(** * Parking IoT / blockchain: the two Solidity contracts

    A shallow embedding of [ParkingSystem] (reservation, settlement and
    cancellation) and of [ParkingOracle] (oracle trust registry and sensor
    readings), followed by the properties of the specification.

    Conventions of the embedding.
    - [uint256] is [N]; Solidity 0.8 arithmetic is checked, so every [+], [-]
      and [*] of the source is written with [U256.add], [U256.sub] and
      [U256.mul], which revert with [Panic] where the EVM does.
    - a [mapping] is a [gmap] read with the Solidity default (the all-zero
      value) for absent keys; a [mapping (_ => bool)] that is only ever set
      to [true] is a [gset].
    - an external call returns [Ok (state', effects)] or [Revert reason]; a
      reverted call leaves the storage as it was. The effects are the events
      emitted and the value transfers performed, in program order.
    - [msg.sender] and [block.timestamp] come from the environment [Env];
      [msg.value] is an argument of the one payable function.
    - a call runs to its end before the next one starts: [transfer] forwards
      too little gas for the recipient to call back, and [reserveSpot] and
      [cancelReservation] are [nonReentrant]. Gas, the view functions and the
      always-reverting [receive] are left out. *)

From stdpp Require Import gmap list strings.
From Stdlib Require Import NArith Lia.

Local Open Scope N_scope.

(** ** Results of calls: a small error monad *)

Inductive result (E A : Type) : Type :=
| Ok (a : A)
| Revert (e : E).
Arguments Ok {E A} a.
Arguments Revert {E A} e.

#[global] Instance result_ret {E} : MRet (result E) := λ A a, Ok a.
#[global] Instance result_bind {E} : MBind (result E) :=
  λ A B f r, match r with Ok a => f a | Revert e => Revert e end.

Definition require {E} (c : bool) (e : E) : result E unit :=
  if c then Ok tt else Revert e.

Definition succeeds {E A} (r : result E A) : Prop := ∃ a, r = Ok a.

(** ** Checked 256-bit arithmetic *)

Module U256.
Definition MAX : N := 2 ^ 256 - 1.

Definition add (a b : N) : option N :=
  if a + b <=? MAX then Some (a + b) else None.
Definition sub (a b : N) : option N :=
  if b <=? a then Some (a - b) else None.
Definition mul (a b : N) : option N :=
  if a * b <=? MAX then Some (a * b) else None.
End U256.

Definition address := N.

(** Sum of a measure over the values stored in a map. *)
Definition sumList {V} (f : V → N) (l : list (N * V)) : N :=
  foldr (λ kv acc, f kv.2 + acc) 0 l.
Definition sumMap {V} (f : V → N) (m : gmap N V) : N :=
  sumList f (map_to_list m).

(** ** ParkingSystem *)

Module ParkingSystem.

Record ParkingSpot := mkSpot {
  spotId : N;
  location : string;
  hourlyRate : N;
  isActive : bool;
  isOccupied : bool;
  currentUser : address;
  reservationEnd : N;
  totalEarnings : N;
  totalOccupations : N
}.

Inductive ReservationStatus := Active | Completed | Cancelled | Expired.

#[global] Instance ReservationStatus_eq_dec : EqDecision ReservationStatus.
Proof. solve_decision. Defined.

Record Reservation := mkReservation {
  reservationId : N;
  user : address;
  resSpotId : N;
  startTime : N;
  endTime : N;
  totalCost : N;
  paidAmount : N;
  status : ReservationStatus;
  actualStartTime : N;
  actualEndTime : N
}.

(** Contract storage, with the inherited [Ownable] owner and [Pausable]
    flag, and the ether held by the contract account. *)
Record State := mkState {
  parkingSpots : gmap N ParkingSpot;
  reservations : gmap N Reservation;
  userReservations : gmap N (list N);
  spotExists : gset N;
  nextSpotId : N;
  nextReservationId : N;
  platformFeePercentage : N;
  totalPlatformEarnings : N;
  oracleAddress : address;
  owner : address;
  paused : bool;
  balance : N
}.

Definition MIN_RESERVATION_TIME : N := 3600.
Definition MAX_RESERVATION_TIME : N := 86400.
Definition HOUR : N := 3600.

Inductive Event :=
| SpotCreated (spot : N) (loc : string) (rate : N)
| ReservationCreated (id : N) (who : address) (spot start end_ cost : N)
| ReservationStarted (id at_ : N)
| ReservationCompleted (id at_ actualCost refundAmount : N)
| ReservationCancelled (id refundAmount : N)
| SpotOccupancyChanged (spot : N) (occupied : bool) (who : address)
| PlatformFeeUpdated (fee : N)
| OracleUpdated (oracle : address)
| Paused (by_ : address)
| Unpaused (by_ : address)
| OwnershipTransferred (old new : address).

Inductive Effect :=
| Emit (e : Event)
| Transfer (to : address) (amount : N).

(** Revert reasons, one per [require] message of the source, the custom
    errors of the inherited OpenZeppelin contracts, the arithmetic panic
    and a failed value transfer. *)
Inductive Error :=
| OwnableUnauthorizedAccount
| OwnableInvalidOwner
| EnforcedPause
| ExpectedPause
| OnlyOracle                  (* Seul l'oracle peut appeler cette fonction *)
| SpotNotFound                (* Place de parking inexistante *)
| ReservationNotFound         (* Reservation inexistante *)
| RateNotPositive             (* Le tarif doit etre superieur a 0 *)
| SpotInactive                (* Place de parking inactive *)
| SpotOccupied                (* Place deja occupee *)
| InvalidStartTime            (* Heure de debut invalide *)
| InvalidEndTime              (* Heure de fin invalide *)
| DurationTooShort            (* Duree minimale non respectee *)
| DurationTooLong             (* Duree maximale depassee *)
| SpotAlreadyReserved         (* Place deja reservee pour cette periode *)
| InsufficientPayment         (* Paiement insuffisant *)
| ReservationNotActive        (* Reservation non active *)
| ReservationAlreadyStarted   (* Reservation deja commencee *)
| ReservationNotStarted       (* Reservation non commencee *)
| ReservationAlreadyCompleted (* Reservation deja terminee *)
| NotAuthorized               (* Pas autorise *)
| CannotCancelAfterStart      (* Impossible d'annuler apres le debut *)
| TooLateToCancel             (* Trop tard pour annuler *)
| FeeTooHigh                  (* Frais maximum 20% *)
| InvalidOracleAddress        (* Adresse oracle invalide *)
| Panic
| TransferFailed.

(** [accepts a] tells whether the account [a] accepts a value transfer
    during this call (an externally owned account always does). *)
Record Env := mkEnv {
  msg_sender : address;
  block_timestamp : N;
  accepts : address → bool
}.

Abbreviation M := (result Error).
Definition checked (o : option N) : M N :=
  match o with Some n => Ok n | None => Revert Panic end.

(** *** Storage access *)

Definition zeroSpot : ParkingSpot := mkSpot 0 "" 0 false false 0 0 0 0.
Definition zeroReservation : Reservation :=
  mkReservation 0 0 0 0 0 0 0 Active 0 0.

Definition spot_at (st : State) (k : N) : ParkingSpot :=
  default zeroSpot (parkingSpots st !! k).
Definition reservation_at (st : State) (k : N) : Reservation :=
  default zeroReservation (reservations st !! k).
Definition userReservations_at (st : State) (a : address) : list N :=
  default [] (userReservations st !! a).

Definition set_parkingSpots (f : gmap N ParkingSpot → gmap N ParkingSpot)
    (st : State) : State :=
  mkState (f (parkingSpots st)) (reservations st) (userReservations st)
    (spotExists st) (nextSpotId st) (nextReservationId st)
    (platformFeePercentage st) (totalPlatformEarnings st) (oracleAddress st)
    (owner st) (paused st) (balance st).
Definition set_reservations (f : gmap N Reservation → gmap N Reservation)
    (st : State) : State :=
  mkState (parkingSpots st) (f (reservations st)) (userReservations st)
    (spotExists st) (nextSpotId st) (nextReservationId st)
    (platformFeePercentage st) (totalPlatformEarnings st) (oracleAddress st)
    (owner st) (paused st) (balance st).
Definition set_userReservations (f : gmap N (list N) → gmap N (list N))
    (st : State) : State :=
  mkState (parkingSpots st) (reservations st) (f (userReservations st))
    (spotExists st) (nextSpotId st) (nextReservationId st)
    (platformFeePercentage st) (totalPlatformEarnings st) (oracleAddress st)
    (owner st) (paused st) (balance st).
Definition set_spotExists (f : gset N → gset N) (st : State) : State :=
  mkState (parkingSpots st) (reservations st) (userReservations st)
    (f (spotExists st)) (nextSpotId st) (nextReservationId st)
    (platformFeePercentage st) (totalPlatformEarnings st) (oracleAddress st)
    (owner st) (paused st) (balance st).
Definition set_nextSpotId (v : N) (st : State) : State :=
  mkState (parkingSpots st) (reservations st) (userReservations st)
    (spotExists st) v (nextReservationId st)
    (platformFeePercentage st) (totalPlatformEarnings st) (oracleAddress st)
    (owner st) (paused st) (balance st).
Definition set_nextReservationId (v : N) (st : State) : State :=
  mkState (parkingSpots st) (reservations st) (userReservations st)
    (spotExists st) (nextSpotId st) v
    (platformFeePercentage st) (totalPlatformEarnings st) (oracleAddress st)
    (owner st) (paused st) (balance st).
Definition set_platformFeePercentage (v : N) (st : State) : State :=
  mkState (parkingSpots st) (reservations st) (userReservations st)
    (spotExists st) (nextSpotId st) (nextReservationId st)
    v (totalPlatformEarnings st) (oracleAddress st)
    (owner st) (paused st) (balance st).
Definition set_totalPlatformEarnings (v : N) (st : State) : State :=
  mkState (parkingSpots st) (reservations st) (userReservations st)
    (spotExists st) (nextSpotId st) (nextReservationId st)
    (platformFeePercentage st) v (oracleAddress st)
    (owner st) (paused st) (balance st).
Definition set_oracleAddress (v : address) (st : State) : State :=
  mkState (parkingSpots st) (reservations st) (userReservations st)
    (spotExists st) (nextSpotId st) (nextReservationId st)
    (platformFeePercentage st) (totalPlatformEarnings st) v
    (owner st) (paused st) (balance st).
Definition set_owner (v : address) (st : State) : State :=
  mkState (parkingSpots st) (reservations st) (userReservations st)
    (spotExists st) (nextSpotId st) (nextReservationId st)
    (platformFeePercentage st) (totalPlatformEarnings st) (oracleAddress st)
    v (paused st) (balance st).
Definition set_paused (v : bool) (st : State) : State :=
  mkState (parkingSpots st) (reservations st) (userReservations st)
    (spotExists st) (nextSpotId st) (nextReservationId st)
    (platformFeePercentage st) (totalPlatformEarnings st) (oracleAddress st)
    (owner st) v (balance st).
Definition set_balance (v : N) (st : State) : State :=
  mkState (parkingSpots st) (reservations st) (userReservations st)
    (spotExists st) (nextSpotId st) (nextReservationId st)
    (platformFeePercentage st) (totalPlatformEarnings st) (oracleAddress st)
    (owner st) (paused st) v.

(** Field updates through a [storage] reference. *)
Definition spot_set_reservationEnd (v : N) (s : ParkingSpot) : ParkingSpot :=
  mkSpot (spotId s) (location s) (hourlyRate s) (isActive s) (isOccupied s)
    (currentUser s) v (totalEarnings s) (totalOccupations s).
Definition spot_set_occupancy (occ : bool) (who : address) (s : ParkingSpot)
    : ParkingSpot :=
  mkSpot (spotId s) (location s) (hourlyRate s) (isActive s) occ
    who (reservationEnd s) (totalEarnings s) (totalOccupations s).
Definition spot_set_totalOccupations (v : N) (s : ParkingSpot) : ParkingSpot :=
  mkSpot (spotId s) (location s) (hourlyRate s) (isActive s) (isOccupied s)
    (currentUser s) (reservationEnd s) (totalEarnings s) v.
Definition spot_set_totalEarnings (v : N) (s : ParkingSpot) : ParkingSpot :=
  mkSpot (spotId s) (location s) (hourlyRate s) (isActive s) (isOccupied s)
    (currentUser s) (reservationEnd s) v (totalOccupations s).

Definition res_set_actualStartTime (v : N) (r : Reservation) : Reservation :=
  mkReservation (reservationId r) (user r) (resSpotId r) (startTime r)
    (endTime r) (totalCost r) (paidAmount r) (status r) v (actualEndTime r).
Definition res_set_actualEndTime (v : N) (r : Reservation) : Reservation :=
  mkReservation (reservationId r) (user r) (resSpotId r) (startTime r)
    (endTime r) (totalCost r) (paidAmount r) (status r) (actualStartTime r) v.
Definition res_set_status (v : ReservationStatus) (r : Reservation)
    : Reservation :=
  mkReservation (reservationId r) (user r) (resSpotId r) (startTime r)
    (endTime r) (totalCost r) (paidAmount r) v (actualStartTime r)
    (actualEndTime r).

Definition write_spot (k : N) (s : ParkingSpot) : State → State :=
  set_parkingSpots (λ m, <[k := s]> m).
Definition write_reservation (k : N) (r : Reservation) : State → State :=
  set_reservations (λ m, <[k := r]> m).

(** [payable(to).transfer(amount)]: reverts when the contract does not hold
    [amount] or when the recipient refuses the payment. *)
Definition transfer (env : Env) (to : address) (amount : N) (st : State)
    : M State :=
  _ ← require (accepts env to && (amount <=? balance st)) TransferFailed;
  mret (set_balance (balance st - amount) st).

(** *** Modifiers *)

Definition onlyOwner (st : State) (env : Env) : M unit :=
  require (msg_sender env =? owner st) OwnableUnauthorizedAccount.
Definition onlyOracle (st : State) (env : Env) : M unit :=
  require (msg_sender env =? oracleAddress st) OnlyOracle.
Definition spotExistsModifier (st : State) (_spotId : N) : M unit :=
  require (bool_decide (_spotId ∈ spotExists st)) SpotNotFound.
Definition validReservation (st : State) (_reservationId : N) : M unit :=
  require (_reservationId <? nextReservationId st) ReservationNotFound.
Definition whenNotPaused (st : State) : M unit :=
  require (negb (paused st)) EnforcedPause.
Definition whenPaused (st : State) : M unit :=
  require (paused st) ExpectedPause.

(** *** External functions *)

Definition Outcome : Type := State * list Effect.

Definition createParkingSpot (st : State) (env : Env)
    (_location : string) (_hourlyRate : N) : M Outcome :=
  _ ← onlyOwner st env;
  _ ← require (0 <? _hourlyRate) RateNotPositive;
  let spotId := nextSpotId st in
  next ← checked (U256.add (nextSpotId st) 1);
  let st := set_nextSpotId next st in
  let st := write_spot spotId
              (mkSpot spotId _location _hourlyRate true false 0 0 0 0) st in
  let st := set_spotExists (λ s, {[spotId]} ∪ s) st in
  mret (st, [Emit (SpotCreated spotId _location _hourlyRate)]).

(** Payable: [value] is [msg.value], credited to the contract before the
    body runs. *)
Definition reserveSpot (st : State) (env : Env) (value : N)
    (_spotId _startTime _endTime : N) : M Outcome :=
  let st := set_balance (balance st + value) st in
  _ ← whenNotPaused st;
  _ ← spotExistsModifier st _spotId;
  let spot := spot_at st _spotId in
  _ ← require (isActive spot) SpotInactive;
  _ ← require (negb (isOccupied spot)) SpotOccupied;
  _ ← require (block_timestamp env <=? _startTime) InvalidStartTime;
  _ ← require (_startTime <? _endTime) InvalidEndTime;
  d1 ← checked (U256.sub _endTime _startTime);
  _ ← require (MIN_RESERVATION_TIME <=? d1) DurationTooShort;
  d2 ← checked (U256.sub _endTime _startTime);
  _ ← require (d2 <=? MAX_RESERVATION_TIME) DurationTooLong;
  _ ← require (reservationEnd spot <=? _startTime) SpotAlreadyReserved;
  duration ← checked (U256.sub _endTime _startTime);
  prod ← checked (U256.mul duration (hourlyRate spot));
  let totalCost := prod / HOUR in
  _ ← require (totalCost <=? value) InsufficientPayment;
  let reservationId := nextReservationId st in
  next ← checked (U256.add (nextReservationId st) 1);
  let st := set_nextReservationId next st in
  let st := write_reservation reservationId
              (mkReservation reservationId (msg_sender env) _spotId
                 _startTime _endTime totalCost value Active 0 0) st in
  let st := set_userReservations
              (λ m, <[msg_sender env :=
                        userReservations_at st (msg_sender env)
                          ++ [reservationId]]> m) st in
  let st := write_spot _spotId (spot_set_reservationEnd _endTime spot) st in
  let created := Emit (ReservationCreated reservationId (msg_sender env)
                         _spotId _startTime _endTime totalCost) in
  if totalCost <? value then
    surplus ← checked (U256.sub value totalCost);
    st ← transfer env (msg_sender env) surplus st;
    mret (st, [Transfer (msg_sender env) surplus; created])
  else mret (st, [created]).

Definition startReservation (st : State) (env : Env) (_reservationId : N)
    : M Outcome :=
  _ ← onlyOracle st env;
  _ ← validReservation st _reservationId;
  let reservation := reservation_at st _reservationId in
  _ ← require (bool_decide (status reservation = Active)) ReservationNotActive;
  _ ← require (actualStartTime reservation =? 0) ReservationAlreadyStarted;
  let spot := spot_at st (resSpotId reservation) in
  let reservation :=
    res_set_actualStartTime (block_timestamp env) reservation in
  let spot := spot_set_occupancy true (user reservation) spot in
  occupations ← checked (U256.add (totalOccupations spot) 1);
  let spot := spot_set_totalOccupations occupations spot in
  let st := write_reservation _reservationId reservation st in
  let st := write_spot (resSpotId reservation) spot st in
  mret (st, [Emit (ReservationStarted _reservationId (block_timestamp env));
             Emit (SpotOccupancyChanged (resSpotId reservation) true
                     (user reservation))]).

Definition completeReservation (st : State) (env : Env) (_reservationId : N)
    : M Outcome :=
  _ ← onlyOracle st env;
  _ ← validReservation st _reservationId;
  let reservation := reservation_at st _reservationId in
  _ ← require (bool_decide (status reservation = Active)) ReservationNotActive;
  _ ← require (0 <? actualStartTime reservation) ReservationNotStarted;
  _ ← require (actualEndTime reservation =? 0) ReservationAlreadyCompleted;
  let spot := spot_at st (resSpotId reservation) in
  let reservation := res_set_actualEndTime (block_timestamp env) reservation in
  let reservation := res_set_status Completed reservation in
  let spot := spot_set_occupancy false 0 spot in
  actualDuration ← checked (U256.sub (actualEndTime reservation)
                                     (actualStartTime reservation));
  prod ← checked (U256.mul actualDuration (hourlyRate spot));
  let actualCost := prod / HOUR in
  feeProd ← checked (U256.mul actualCost (platformFeePercentage st));
  let platformFee := feeProd / 100 in
  spotEarnings ← checked (U256.sub actualCost platformFee);
  earned ← checked (U256.add (totalEarnings spot) spotEarnings);
  let spot := spot_set_totalEarnings earned spot in
  accrued ← checked (U256.add (totalPlatformEarnings st) platformFee);
  let st := write_reservation _reservationId reservation st in
  let st := write_spot (resSpotId reservation) spot st in
  let st := set_totalPlatformEarnings accrued st in
  let vacated :=
    Emit (SpotOccupancyChanged (resSpotId reservation) false 0) in
  if actualCost <? totalCost reservation then
    refundAmount ← checked (U256.sub (totalCost reservation) actualCost);
    st ← transfer env (user reservation) refundAmount st;
    mret (st, [Transfer (user reservation) refundAmount;
               Emit (ReservationCompleted _reservationId
                       (block_timestamp env) actualCost refundAmount);
               vacated])
  else
    mret (st, [Emit (ReservationCompleted _reservationId
                       (block_timestamp env) actualCost 0);
               vacated]).

Definition cancelReservation (st : State) (env : Env) (_reservationId : N)
    : M Outcome :=
  _ ← validReservation st _reservationId;
  let reservation := reservation_at st _reservationId in
  _ ← require (user reservation =? msg_sender env) NotAuthorized;
  _ ← require (bool_decide (status reservation = Active)) ReservationNotActive;
  _ ← require (actualStartTime reservation =? 0) CannotCancelAfterStart;
  _ ← require (block_timestamp env <? startTime reservation) TooLateToCancel;
  let reservation := res_set_status Cancelled reservation in
  let spot := spot_at st (resSpotId reservation) in
  let spot := spot_set_reservationEnd 0 spot in
  feeProd ← checked (U256.mul (totalCost reservation) 5);
  let cancellationFee := feeProd / 100 in
  refundAmount ← checked (U256.sub (totalCost reservation) cancellationFee);
  accrued ← checked (U256.add (totalPlatformEarnings st) cancellationFee);
  let st := write_reservation _reservationId reservation st in
  let st := write_spot (resSpotId reservation) spot st in
  let st := set_totalPlatformEarnings accrued st in
  st ← transfer env (msg_sender env) refundAmount st;
  mret (st, [Transfer (msg_sender env) refundAmount;
             Emit (ReservationCancelled _reservationId refundAmount)]).

Definition updatePlatformFee (st : State) (env : Env) (_newFeePercentage : N)
    : M Outcome :=
  _ ← onlyOwner st env;
  _ ← require (_newFeePercentage <=? 20) FeeTooHigh;
  mret (set_platformFeePercentage _newFeePercentage st,
        [Emit (PlatformFeeUpdated _newFeePercentage)]).

Definition updateOracle (st : State) (env : Env) (_newOracle : address)
    : M Outcome :=
  _ ← onlyOwner st env;
  _ ← require (negb (_newOracle =? 0)) InvalidOracleAddress;
  mret (set_oracleAddress _newOracle st, [Emit (OracleUpdated _newOracle)]).

Definition withdrawPlatformEarnings (st : State) (env : Env) : M Outcome :=
  _ ← onlyOwner st env;
  let amount := totalPlatformEarnings st in
  let st := set_totalPlatformEarnings 0 st in
  st ← transfer env (owner st) amount st;
  mret (st, [Transfer (owner st) amount]).

Definition pause (st : State) (env : Env) : M Outcome :=
  _ ← onlyOwner st env;
  _ ← whenNotPaused st;
  mret (set_paused true st, [Emit (Paused (msg_sender env))]).

Definition unpause (st : State) (env : Env) : M Outcome :=
  _ ← onlyOwner st env;
  _ ← whenPaused st;
  mret (set_paused false st, [Emit (Unpaused (msg_sender env))]).

(** Inherited from [Ownable]. *)
Definition transferOwnership (st : State) (env : Env) (newOwner : address)
    : M Outcome :=
  _ ← onlyOwner st env;
  _ ← require (negb (newOwner =? 0)) OwnableInvalidOwner;
  mret (set_owner newOwner st,
        [Emit (OwnershipTransferred (owner st) newOwner)]).

Definition renounceOwnership (st : State) (env : Env) : M Outcome :=
  _ ← onlyOwner st env;
  mret (set_owner 0 st, [Emit (OwnershipTransferred (owner st) 0)]).

(** *** Transactions and executions *)

Inductive Call :=
| CreateParkingSpot (_location : string) (_hourlyRate : N)
| ReserveSpot (value _spotId _startTime _endTime : N)
| StartReservation (_reservationId : N)
| CompleteReservation (_reservationId : N)
| CancelReservation (_reservationId : N)
| UpdatePlatformFee (_newFeePercentage : N)
| UpdateOracle (_newOracle : address)
| WithdrawPlatformEarnings
| Pause
| Unpause
| TransferOwnership (newOwner : address)
| RenounceOwnership.

Definition call (st : State) (env : Env) (c : Call) : M Outcome :=
  match c with
  | CreateParkingSpot l r => createParkingSpot st env l r
  | ReserveSpot v s b e => reserveSpot st env v s b e
  | StartReservation i => startReservation st env i
  | CompleteReservation i => completeReservation st env i
  | CancelReservation i => cancelReservation st env i
  | UpdatePlatformFee f => updatePlatformFee st env f
  | UpdateOracle o => updateOracle st env o
  | WithdrawPlatformEarnings => withdrawPlatformEarnings st env
  | Pause => pause st env
  | Unpause => unpause st env
  | TransferOwnership o => transferOwnership st env o
  | RenounceOwnership => renounceOwnership st env
  end.

(** The state after the constructor, deployed by [deployer]. *)
Definition deployed (deployer _oracleAddress : address) : State :=
  mkState ∅ ∅ ∅ ∅ 1 1 10 0 _oracleAddress deployer false 0.

(** One transaction: a reverted call changes nothing and logs nothing. *)
Definition Tx : Type := Env * Call.
Definition Log : Type := list (Call * list Effect).

Definition exec1 (acc : State * Log) (tx : Tx) : State * Log :=
  match call acc.1 tx.1 tx.2 with
  | Ok (st', effects) => (st', acc.2 ++ [(tx.2, effects)])
  | Revert _ => acc
  end.

Definition exec (st : State) (txs : list Tx) : State * Log :=
  foldl exec1 (st, []) txs.

Definition reachable (st : State) (log : Log) : Prop :=
  ∃ deployer oracle txs, exec (deployed deployer oracle) txs = (st, log).

(** *** Quantities the properties speak about *)

(** The amounts [completeReservation] computes for a reservation [r]
    completed at time [now]. *)
Definition actualCostOf (st : State) (now : N) (r : Reservation) : N :=
  (now - actualStartTime r) * hourlyRate (spot_at st (resSpotId r)) / HOUR.
Definition platformFeeOf (st : State) (actualCost : N) : N :=
  actualCost * platformFeePercentage st / 100.
Definition refundOf (r : Reservation) (actualCost : N) : N :=
  if actualCost <? totalCost r then totalCost r - actualCost else 0.

(** The penalty [cancelReservation] keeps. *)
Definition cancellationFeeOf (r : Reservation) : N := totalCost r * 5 / 100.

(** The actual cost of a reservation that reached [Completed], from the
    times recorded in it; other reservations count for nothing. *)
Definition completedCost (spots : gmap N ParkingSpot) (r : Reservation) : N :=
  if bool_decide (status r = Completed)
  then (actualEndTime r - actualStartTime r)
         * hourlyRate (default zeroSpot (spots !! resSpotId r)) / HOUR
  else 0.
Definition cancelledFee (r : Reservation) : N :=
  if bool_decide (status r = Cancelled) then cancellationFeeOf r else 0.

Definition totalSpotEarnings (st : State) : N :=
  sumMap totalEarnings (parkingSpots st).
Definition totalCompletedCost (st : State) : N :=
  sumMap (completedCost (parkingSpots st)) (reservations st).
Definition totalCancellationFees (st : State) : N :=
  sumMap cancelledFee (reservations st).

(** What the owner has taken out with [withdrawPlatformEarnings]. *)
Definition transferred (effects : list Effect) : N :=
  foldr (λ e acc, match e with Transfer _ a => a + acc | Emit _ => acc end)
    0 effects.
Definition withdrawnBy (entry : Call * list Effect) : N :=
  match entry.1 with
  | WithdrawPlatformEarnings => transferred entry.2
  | _ => 0
  end.
Definition withdrawn (log : Log) : N :=
  foldr (λ entry acc, withdrawnBy entry + acc) 0 log.

(** The conservation equation as the specification writes it, and with
    the two flows the contract adds to it. *)
Definition conservation_as_specified (st : State) : Prop :=
  totalSpotEarnings st + totalPlatformEarnings st = totalCompletedCost st.
Definition conservation (st : State) (log : Log) : Prop :=
  totalSpotEarnings st + totalPlatformEarnings st + withdrawn log
  = totalCompletedCost st + totalCancellationFees st.

(** Two reservations whose windows [start, end) intersect. *)
Definition overlapping (r1 r2 : Reservation) : Prop :=
  startTime r1 < endTime r2 ∧ startTime r2 < endTime r1.

(** Identifiers and spot keys stay below the counters. *)
Definition well_formed (st : State) : Prop :=
  1 ≤ nextSpotId st ∧
  (∀ k, k ∈ spotExists st → k < nextSpotId st) ∧
  (∀ k s, parkingSpots st !! k = Some s → k < nextSpotId st) ∧
  (∀ id r, reservations st !! id = Some r →
     id < nextReservationId st ∧ resSpotId r < nextSpotId st).

(** The conditions under which [cancelReservation] goes through. *)
Definition cancellable (st : State) (env : Env) (id : N) : Prop :=
  let r := reservation_at st id in
  id < nextReservationId st ∧
  user r = msg_sender env ∧
  status r = Active ∧
  actualStartTime r = 0 ∧
  block_timestamp env < startTime r ∧
  totalCost r * 5 ≤ U256.MAX ∧
  totalPlatformEarnings st + cancellationFeeOf r ≤ U256.MAX ∧
  accepts env (msg_sender env) = true ∧
  totalCost r - cancellationFeeOf r ≤ balance st.

Definition invariant (st : State) (log : Log) : Prop :=
  conservation st log ∧ well_formed st.

(** *** Concrete executions used below *)

Definition everyone (who now : N) : Env := mkEnv who now (λ _, true).

(** Owner 1, oracle 2; user 7 books spot 1 for one hour at rate 100 and
    cancels before the start. *)
Definition cancelled_run : list Tx :=
  [ (everyone 1 0, CreateParkingSpot "A1" 100);
    (everyone 7 0, ReserveSpot 100 1 10000 13600);
    (everyone 7 5, CancelReservation 1) ].

(** User 7 books, the oracle starts and completes over half an hour, the
    owner withdraws the platform earnings. *)
Definition withdrawn_run : list Tx :=
  [ (everyone 1 0, CreateParkingSpot "A1" 100);
    (everyone 7 0, ReserveSpot 100 1 10000 13600);
    (everyone 2 10000, StartReservation 1);
    (everyone 2 11800, CompleteReservation 1);
    (everyone 1 11900, WithdrawPlatformEarnings) ].

(** Users 7 and 8 book two disjoint hours of spot 1; 7 cancels; user 9
    then books the hour that 8 still holds. *)
Definition double_booking_run : list Tx :=
  [ (everyone 1 0, CreateParkingSpot "A1" 100);
    (everyone 7 0, ReserveSpot 100 1 10000 13600);
    (everyone 8 0, ReserveSpot 100 1 20000 23600);
    (everyone 7 5, CancelReservation 1);
    (everyone 9 6, ReserveSpot 100 1 20000 23600) ].

(** User 7 holds reservation 1 of spot 1, starting at 10000. *)
Definition booked_run : list Tx :=
  [ (everyone 1 0, CreateParkingSpot "A1" 100);
    (everyone 7 0, ReserveSpot 100 1 10000 13600) ].

(** As above, started by the oracle at 10000. *)
Definition started_run : list Tx :=
  booked_run ++ [ (everyone 2 10000, StartReservation 1) ].

(** *** View functions *)

Definition getParkingSpot (st : State) (_spotId : N) : M ParkingSpot :=
  _ ← spotExistsModifier st _spotId;
  mret (spot_at st _spotId).

Definition getReservation (st : State) (_reservationId : N) : M Reservation :=
  _ ← validReservation st _reservationId;
  mret (reservation_at st _reservationId).

Definition getUserReservations (st : State) (_user : address) : list N :=
  userReservations_at st _user.

(** *** Further quantities *)

(** What the contract still holds of the payment made for a reservation:
    the whole escrow while Active, the escrow less the refund once Completed,
    the penalty once Cancelled. *)
Definition heldFor (spots : gmap N ParkingSpot) (r : Reservation) : N :=
  match status r with
  | Active => totalCost r
  | Completed => N.min (totalCost r) (completedCost spots r)
  | Cancelled => cancellationFeeOf r
  | Expired => 0
  end.
Definition totalHeld (st : State) : N :=
  sumMap (heldFor (parkingSpots st)) (reservations st).

(** The fields of a reservation fixed by [reserveSpot]. *)
Definition booking (r : Reservation)
    : N * address * N * N * N * N * N :=
  (reservationId r, user r, resSpotId r, startTime r, endTime r,
   totalCost r, paidAmount r).

(** The fields of a spot fixed by [createParkingSpot]. *)
Definition listing (s : ParkingSpot) : N * string * N * bool :=
  (spotId s, location s, hourlyRate s, isActive s).





(** The terms of a booking: an existing spot, a window of one to twenty-four
    hours, the cost of the window at the rate of the spot, fully paid. *)
Definition priced (st : State) (r : Reservation) : Prop :=
  resSpotId r ∈ spotExists st ∧
  startTime r < endTime r ∧
  MIN_RESERVATION_TIME ≤ endTime r - startTime r ∧
  endTime r - startTime r ≤ MAX_RESERVATION_TIME ∧
  totalCost r
  = (endTime r - startTime r) * hourlyRate (spot_at st (resSpotId r)) / HOUR ∧
  totalCost r ≤ paidAmount r.

(** The calls reserved to the owner, and those reserved to the oracle. *)
Definition owner_only (c : Call) : bool :=
  match c with
  | CreateParkingSpot _ _ | UpdatePlatformFee _ | UpdateOracle _
  | WithdrawPlatformEarnings | Pause | Unpause
  | TransferOwnership _ | RenounceOwnership => true
  | _ => false
  end.
Definition oracle_only (c : Call) : bool :=
  match c with
  | StartReservation _ | CompleteReservation _ => true
  | _ => false
  end.

(** The payment escrowed for a reservation that is still Active. *)
Definition activeEscrow (r : Reservation) : N :=
  if bool_decide (status r = Active) then totalCost r else 0.
Definition totalEscrow (st : State) : N :=
  sumMap activeEscrow (reservations st).

(** The calls on which the pause flag bears. *)
Definition pausable (c : Call) : bool :=
  match c with
  | ReserveSpot _ _ _ _ | Pause | Unpause => true
  | _ => false
  end.

(** [msg.value] of a call: only [reserveSpot] is payable. *)
Definition value_of (c : Call) : N :=
  match c with ReserveSpot value _ _ _ => value | _ => 0 end.

(** The accounts a call pays. *)
Definition recipients (effects : list Effect) : list address :=
  omap (λ e, match e with Transfer to _ => Some to | Emit _ => None end)
    effects.

End ParkingSystem.

(** ** ParkingOracle *)

Module ParkingOracle.

Record SensorData := mkSensorData {
  spotId : N;
  isOccupied : bool;
  confidence : N;
  timestamp : N;
  sensorType : string;
  dataHash : N
}.

Record OracleNode := mkOracleNode {
  nodeAddress : address;
  isActive : bool;
  reputation : N;
  totalUpdates : N;
  lastUpdate : N;
  nodeId : string
}.

Record State := mkState {
  oracleNodes : gmap N OracleNode;
  latestSensorData : gmap N SensorData;
  sensorHistory : gmap N (list SensorData);
  processedDataHashes : gset N;
  activeOracles : list address;
  parkingSystemContract : address;
  owner : address;
  paused : bool
}.

Definition MIN_CONFIDENCE : N := 70.
Definition MAX_HISTORY_SIZE : nat := 100.
Definition UPDATE_COOLDOWN : N := 30.

Inductive Event :=
| OracleNodeAdded (node : address) (label : string)
| OracleNodeRemoved (node : address)
| OracleNodeUpdated (node : address) (active : bool) (rep : N)
| SensorDataUpdated (spot : N) (occupied : bool) (conf : N)
    (oracle : address) (kind : string)
| ParkingSystemUpdated (newContract : address)
| DataValidationFailed (oracle : address) (spot : N) (reason : string)
| Paused (by_ : address)
| Unpaused (by_ : address)
| OwnershipTransferred (old new : address).

Inductive Error :=
| OwnableUnauthorizedAccount
| OwnableInvalidOwner
| EnforcedPause
| ExpectedPause
| OracleNotAuthorized     (* Oracle non autorise *)
| InvalidSpotId           (* ID de place invalide *)
| CooldownNotElapsed      (* Cooldown non ecoule *)
| InvalidAddress          (* Adresse invalide *)
| OracleAlreadyActive     (* Oracle deja actif *)
| OracleNotActive         (* Oracle non actif *)
| InsufficientConfidence  (* Confiance insuffisante *)
| DataAlreadyProcessed    (* Donnees deja traitees *)
| SensorTypeRequired      (* Type de capteur requis *)
| ReputationTooHigh       (* Reputation maximale 1000 *)
| OracleNotFound          (* Oracle inexistant *)
| Panic.

Record Env := mkEnv {
  msg_sender : address;
  block_timestamp : N
}.

Abbreviation M := (result Error).
Definition checked (o : option N) : M N :=
  match o with Some n => Ok n | None => Revert Panic end.

(** *** Storage access *)

Definition zeroData : SensorData := mkSensorData 0 false 0 0 "" 0.
Definition zeroNode : OracleNode := mkOracleNode 0 false 0 0 0 "".

Definition node_at (st : State) (a : address) : OracleNode :=
  default zeroNode (oracleNodes st !! a).
Definition latest_at (st : State) (k : N) : SensorData :=
  default zeroData (latestSensorData st !! k).
Definition history_at (st : State) (k : N) : list SensorData :=
  default [] (sensorHistory st !! k).

Definition write_node (a : address) (n : OracleNode) (st : State) : State :=
  mkState (<[a := n]> (oracleNodes st)) (latestSensorData st)
    (sensorHistory st) (processedDataHashes st) (activeOracles st)
    (parkingSystemContract st) (owner st) (paused st).
Definition write_latest (k : N) (d : SensorData) (st : State) : State :=
  mkState (oracleNodes st) (<[k := d]> (latestSensorData st))
    (sensorHistory st) (processedDataHashes st) (activeOracles st)
    (parkingSystemContract st) (owner st) (paused st).
Definition write_history (k : N) (h : list SensorData) (st : State) : State :=
  mkState (oracleNodes st) (latestSensorData st)
    (<[k := h]> (sensorHistory st)) (processedDataHashes st)
    (activeOracles st) (parkingSystemContract st) (owner st) (paused st).
Definition mark_processed (h : N) (st : State) : State :=
  mkState (oracleNodes st) (latestSensorData st) (sensorHistory st)
    ({[h]} ∪ processedDataHashes st) (activeOracles st)
    (parkingSystemContract st) (owner st) (paused st).
Definition set_activeOracles (l : list address) (st : State) : State :=
  mkState (oracleNodes st) (latestSensorData st) (sensorHistory st)
    (processedDataHashes st) l (parkingSystemContract st) (owner st)
    (paused st).
Definition set_parkingSystemContract (a : address) (st : State) : State :=
  mkState (oracleNodes st) (latestSensorData st) (sensorHistory st)
    (processedDataHashes st) (activeOracles st) a (owner st) (paused st).
Definition set_owner (a : address) (st : State) : State :=
  mkState (oracleNodes st) (latestSensorData st) (sensorHistory st)
    (processedDataHashes st) (activeOracles st) (parkingSystemContract st)
    a (paused st).
Definition set_paused (b : bool) (st : State) : State :=
  mkState (oracleNodes st) (latestSensorData st) (sensorHistory st)
    (processedDataHashes st) (activeOracles st) (parkingSystemContract st)
    (owner st) b.

Definition node_set_isActive (b : bool) (n : OracleNode) : OracleNode :=
  mkOracleNode (nodeAddress n) b (reputation n) (totalUpdates n)
    (lastUpdate n) (nodeId n).
Definition node_set_reputation (r : N) (n : OracleNode) : OracleNode :=
  mkOracleNode (nodeAddress n) (isActive n) r (totalUpdates n)
    (lastUpdate n) (nodeId n).
Definition node_set_totalUpdates (u : N) (n : OracleNode) : OracleNode :=
  mkOracleNode (nodeAddress n) (isActive n) (reputation n) u
    (lastUpdate n) (nodeId n).
Definition node_set_lastUpdate (t : N) (n : OracleNode) : OracleNode :=
  mkOracleNode (nodeAddress n) (isActive n) (reputation n) (totalUpdates n)
    t (nodeId n).

(** *** Dynamic arrays *)

(** [a[i]] with the bounds check of Solidity. *)
Definition index {A} (l : list A) (i : nat) : M A :=
  match l !! i with Some x => Ok x | None => Revert Panic end.

(** [a.pop()]: panics on an empty array. *)
Definition pop {A} (l : list A) : M (list A) :=
  match l with [] => Revert Panic | _ => Ok (removelast l) end.

(** *** Modifiers *)

Definition onlyOwner (st : State) (env : Env) : M unit :=
  require (msg_sender env =? owner st) OwnableUnauthorizedAccount.
Definition onlyAuthorizedOracle (st : State) (env : Env) : M unit :=
  require (isActive (node_at st (msg_sender env))) OracleNotAuthorized.
Definition validSpotId (_spotId : N) : M unit :=
  require (0 <? _spotId) InvalidSpotId.
Definition cooldownPassed (st : State) (env : Env) (_spotId : N) : M unit :=
  ready ← checked (U256.add (timestamp (latest_at st _spotId)) UPDATE_COOLDOWN);
  require (ready <=? block_timestamp env) CooldownNotElapsed.
Definition whenNotPaused (st : State) : M unit :=
  require (negb (paused st)) EnforcedPause.
Definition whenPaused (st : State) : M unit :=
  require (paused st) ExpectedPause.

(** *** Functions *)

Definition Outcome : Type := State * list Event.

Definition addOracleNode (st : State) (env : Env)
    (_nodeAddress : address) (_nodeId : string) : M Outcome :=
  _ ← onlyOwner st env;
  _ ← require (negb (_nodeAddress =? 0)) InvalidAddress;
  _ ← require (negb (isActive (node_at st _nodeAddress))) OracleAlreadyActive;
  let st := write_node _nodeAddress
              (mkOracleNode _nodeAddress true 500 0 0 _nodeId) st in
  let st := set_activeOracles (activeOracles st ++ [_nodeAddress]) st in
  mret (st, [OracleNodeAdded _nodeAddress _nodeId]).

(** The removal loop: at the first index [i] holding the address, the last
    element is copied to [i], the array is popped and the loop breaks.
    [n] counts the iterations left, [length l - i]. *)
Fixpoint removeActive (a : address) (n i : nat) (l : list address)
    : M (list address) :=
  match n with
  | O => Ok l
  | S n' =>
      x ← index l i;
      if x =? a then
        y ← index l (length l - 1);
        pop (<[i := y]> l)
      else removeActive a n' (S i) l
  end.

Definition removeOracleNode (st : State) (env : Env) (_nodeAddress : address)
    : M Outcome :=
  _ ← onlyOwner st env;
  _ ← require (isActive (node_at st _nodeAddress)) OracleNotActive;
  let st := write_node _nodeAddress
              (node_set_isActive false (node_at st _nodeAddress)) st in
  l ← removeActive _nodeAddress (length (activeOracles st)) 0
        (activeOracles st);
  mret (set_activeOracles l st, [OracleNodeRemoved _nodeAddress]).

Definition _validateSensorData (st : State) (env : Env)
    (_spotId : N) (_isOccupied : bool) (_confidence : N)
    (_sensorType : string) : M bool :=
  if (_confidence <? MIN_CONFIDENCE) || (100 <? _confidence) then mret false
  else
    let lastData := latest_at st _spotId in
    if 0 <? timestamp lastData then
      if negb (eqb (isOccupied lastData) _isOccupied) && (_confidence <? 80)
      then mret false
      else
        elapsed ← checked (U256.sub (block_timestamp env)
                                    (timestamp lastData));
        if elapsed <? UPDATE_COOLDOWN then mret false else mret true
    else mret true.

Definition _shouldNotifyParkingSystem (st : State)
    (_spotId : N) (_isOccupied : bool) : bool :=
  let lastData := latest_at st _spotId in
  (timestamp lastData =? 0) || negb (eqb (isOccupied lastData) _isOccupied).

(** The body of the source is a comment: nothing is sent. *)
Definition _notifyParkingSystem (st : State)
    (_spotId : N) (_isOccupied : bool) : State :=
  if negb (parkingSystemContract st =? 0) then st else st.

Definition _rewardOracle (st : State) (_oracle : address) : State :=
  let oracle := node_at st _oracle in
  if reputation oracle <? 1000
  then write_node _oracle
         (node_set_reputation (reputation oracle + 1) oracle) st
  else st.

Definition _penalizeOracle (st : State) (_oracle : address) : Outcome :=
  let oracle := node_at st _oracle in
  let st := if 10 <? reputation oracle
            then write_node _oracle
                   (node_set_reputation (reputation oracle - 10) oracle) st
            else st in
  let oracle := node_at st _oracle in
  if reputation oracle <? 100
  then (write_node _oracle (node_set_isActive false oracle) st,
        [OracleNodeUpdated _oracle false (reputation oracle)])
  else (st, []).

(** The eviction loop of [updateSensorData]:
    [for (i = 0; i < length - MAX_HISTORY_SIZE; i++) h[i] = h[i + 1]].
    The assignments keep the length, so the bound is fixed when the loop
    starts; [n] counts the iterations left. *)
Fixpoint shiftHistory (n i : nat) (h : list SensorData)
    : M (list SensorData) :=
  match n with
  | O => Ok h
  | S n' =>
      x ← index h (i + 1);
      shiftHistory n' (S i) (<[i := x]> h)
  end.

Definition pushHistory (h : list SensorData) (newData : SensorData)
    : M (list SensorData) :=
  let h := h ++ [newData] in
  if (MAX_HISTORY_SIZE <? length h)%nat then
    h ← shiftHistory (length h - MAX_HISTORY_SIZE) 0 h;
    pop h
  else mret h.

Definition updateSensorData (st : State) (env : Env)
    (_spotId : N) (_isOccupied : bool) (_confidence : N)
    (_sensorType : string) (_dataHash : N) : M Outcome :=
  _ ← onlyAuthorizedOracle st env;
  _ ← whenNotPaused st;
  _ ← validSpotId _spotId;
  _ ← cooldownPassed st env _spotId;
  _ ← require (MIN_CONFIDENCE <=? _confidence) InsufficientConfidence;
  _ ← require (negb (bool_decide (_dataHash ∈ processedDataHashes st)))
        DataAlreadyProcessed;
  _ ← require (0 <? String.length _sensorType)%nat SensorTypeRequired;
  valid ← _validateSensorData st env _spotId _isOccupied _confidence
            _sensorType;
  if negb valid then
    let '(st, events) := _penalizeOracle st (msg_sender env) in
    mret (st, DataValidationFailed (msg_sender env) _spotId
                "Validation échouée" :: events)
  else
    let newData := mkSensorData _spotId _isOccupied _confidence
                     (block_timestamp env) _sensorType _dataHash in
    let st := write_latest _spotId newData st in
    let st := mark_processed _dataHash st in
    h ← pushHistory (history_at st _spotId) newData;
    let st := write_history _spotId h st in
    let oracle := node_at st (msg_sender env) in
    updates ← checked (U256.add (totalUpdates oracle) 1);
    let oracle := node_set_totalUpdates updates oracle in
    let oracle := node_set_lastUpdate (block_timestamp env) oracle in
    let st := write_node (msg_sender env) oracle st in
    let st := _rewardOracle st (msg_sender env) in
    let st := if _shouldNotifyParkingSystem st _spotId _isOccupied
              then _notifyParkingSystem st _spotId _isOccupied else st in
    mret (st, [SensorDataUpdated _spotId _isOccupied _confidence
                 (msg_sender env) _sensorType]).

Definition updateParkingSystemContract (st : State) (env : Env)
    (_newContract : address) : M Outcome :=
  _ ← onlyOwner st env;
  _ ← require (negb (_newContract =? 0)) InvalidAddress;
  mret (set_parkingSystemContract _newContract st,
        [ParkingSystemUpdated _newContract]).

Definition updateOracleReputation (st : State) (env : Env)
    (_oracle : address) (_newReputation : N) : M Outcome :=
  _ ← onlyOwner st env;
  _ ← require (_newReputation <=? 1000) ReputationTooHigh;
  _ ← require (negb (nodeAddress (node_at st _oracle) =? 0)) OracleNotFound;
  let st := write_node _oracle
              (node_set_reputation _newReputation (node_at st _oracle)) st in
  mret (st, [OracleNodeUpdated _oracle (isActive (node_at st _oracle))
               _newReputation]).

Definition pause (st : State) (env : Env) : M Outcome :=
  _ ← onlyOwner st env;
  _ ← whenNotPaused st;
  mret (set_paused true st, [Paused (msg_sender env)]).

Definition unpause (st : State) (env : Env) : M Outcome :=
  _ ← onlyOwner st env;
  _ ← whenPaused st;
  mret (set_paused false st, [Unpaused (msg_sender env)]).

(** Inherited from [Ownable]. *)
Definition transferOwnership (st : State) (env : Env) (newOwner : address)
    : M Outcome :=
  _ ← onlyOwner st env;
  _ ← require (negb (newOwner =? 0)) OwnableInvalidOwner;
  mret (set_owner newOwner st, [OwnershipTransferred (owner st) newOwner]).

Definition renounceOwnership (st : State) (env : Env) : M Outcome :=
  _ ← onlyOwner st env;
  mret (set_owner 0 st, [OwnershipTransferred (owner st) 0]).

(** *** Transactions and executions *)

Inductive Call :=
| AddOracleNode (_nodeAddress : address) (_nodeId : string)
| RemoveOracleNode (_nodeAddress : address)
| UpdateSensorData (_spotId : N) (_isOccupied : bool) (_confidence : N)
    (_sensorType : string) (_dataHash : N)
| UpdateParkingSystemContract (_newContract : address)
| UpdateOracleReputation (_oracle : address) (_newReputation : N)
| Pause
| Unpause
| TransferOwnership (newOwner : address)
| RenounceOwnership.

Definition call (st : State) (env : Env) (c : Call) : M Outcome :=
  match c with
  | AddOracleNode a l => addOracleNode st env a l
  | RemoveOracleNode a => removeOracleNode st env a
  | UpdateSensorData s o c t h => updateSensorData st env s o c t h
  | UpdateParkingSystemContract a => updateParkingSystemContract st env a
  | UpdateOracleReputation a r => updateOracleReputation st env a r
  | Pause => pause st env
  | Unpause => unpause st env
  | TransferOwnership o => transferOwnership st env o
  | RenounceOwnership => renounceOwnership st env
  end.

Definition deployed (deployer _parkingSystemContract : address) : State :=
  mkState ∅ ∅ ∅ ∅ [] _parkingSystemContract deployer false.

Definition Tx : Type := Env * Call.

(** One transaction: a reverted call changes nothing. *)
Definition exec1 (st : State) (tx : Tx) : State :=
  match call st tx.1 tx.2 with
  | Ok (st', _) => st'
  | Revert _ => st
  end.

Definition exec (st : State) (txs : list Tx) : State := foldl exec1 st txs.

Definition reachable (st : State) : Prop :=
  ∃ deployer parking txs, exec (deployed deployer parking) txs = st.

(** *** Quantities the properties speak about *)

(** A node record after [_penalizeOracle]. *)
Definition penalized (n : OracleNode) : OracleNode :=
  let r := if 10 <? reputation n then reputation n - 10 else reputation n in
  mkOracleNode (nodeAddress n) (if r <? 100 then false else isActive n) r
    (totalUpdates n) (lastUpdate n) (nodeId n).

(** The guards of [updateSensorData], in the order of the source. *)
Definition guards_pass (st : State) (env : Env) (_spotId _confidence : N)
    (_sensorType : string) (_dataHash : N) : Prop :=
  isActive (node_at st (msg_sender env)) = true ∧
  paused st = false ∧
  0 < _spotId ∧
  timestamp (latest_at st _spotId) + UPDATE_COOLDOWN ≤ U256.MAX ∧
  timestamp (latest_at st _spotId) + UPDATE_COOLDOWN ≤ block_timestamp env ∧
  MIN_CONFIDENCE ≤ _confidence ∧
  (_dataHash ∉ processedDataHashes st) ∧
  (0 < String.length _sensorType)%nat.

(** The semantic check fails: the confidence is above 100, or the reading
    flips the occupancy recorded by an earlier reading with a confidence
    below 80. *)
Definition semantically_rejected (st : State) (_spotId : N)
    (_isOccupied : bool) (_confidence : N) : bool :=
  (100 <? _confidence)
  || ((0 <? timestamp (latest_at st _spotId))
      && negb (eqb (isOccupied (latest_at st _spotId)) _isOccupied)
      && (_confidence <? 80)).

(** The state and events after an accepted reading whose history is
    [hist]. *)
Definition accepted (st : State) (env : Env) (_spotId : N)
    (_isOccupied : bool) (_confidence : N) (_sensorType : string)
    (_dataHash : N) (hist : list SensorData) : State :=
  let newData := mkSensorData _spotId _isOccupied _confidence
                   (block_timestamp env) _sensorType _dataHash in
  let oracle := node_at st (msg_sender env) in
  _rewardOracle
    (write_node (msg_sender env)
       (node_set_lastUpdate (block_timestamp env)
          (node_set_totalUpdates (totalUpdates oracle + 1) oracle))
       (write_history _spotId hist
          (mark_processed _dataHash (write_latest _spotId newData st))))
    (msg_sender env).

(** Every reputation is within the range. *)
Definition bounded (st : State) : Prop :=
  ∀ a, reputation (node_at st a) ≤ 1000.

(** The call is the registration of [a] by [addOracleNode]. *)
Definition registers (a : address) (c : Call) : Prop :=
  ∃ label, c = AddOracleNode a label.

(** *** Concrete executions used below *)

(** The owner 1 registers node 5. *)
Definition registered_run : list Tx :=
  [ (mkEnv 1 0, AddOracleNode 5 "n5") ].

(** The owner lowers the reputation of node 5 to 105; the node reports
    spot 1 occupied, then free with a confidence of 75, which is rejected
    and costs it 10 points. *)
Definition deactivated_run : list Tx :=
  registered_run ++
  [ (mkEnv 1 10, UpdateOracleReputation 5 105);
    (mkEnv 5 100, UpdateSensorData 1 true 90 "fusion" 1);
    (mkEnv 5 200, UpdateSensorData 1 false 75 "fusion" 2) ].

(** Node 5 then reports spot 1 occupied, once every 100 time units, with
    the hashes 1, 2, ..., [n]. *)
Definition readings (n : nat) : list Tx :=
  map (λ i : nat, (mkEnv 5 (100 * N.of_nat i),
                   UpdateSensorData 1 true 90 "fusion" (N.of_nat i)))
    (seq 1 n).

(** As [deactivated_run], up to the reading that is rejected. *)
Definition penalty_due_run : list Tx :=
  registered_run ++
  [ (mkEnv 1 10, UpdateOracleReputation 5 105);
    (mkEnv 5 100, UpdateSensorData 1 true 90 "fusion" 1) ].

(** After [deactivated_run] the owner registers node 5 again. *)
Definition readmitted_run : list Tx :=
  deactivated_run ++ [ (mkEnv 1 250, AddOracleNode 5 "n5") ].


(** *** View functions *)

Definition getLatestSensorData (st : State) (_spotId : N) : SensorData :=
  latest_at st _spotId.
Definition getSensorHistory (st : State) (_spotId : N) : list SensorData :=
  history_at st _spotId.
Definition getOracleNode (st : State) (_oracle : address) : OracleNode :=
  node_at st _oracle.
Definition getActiveOracles (st : State) : list address := activeOracles st.

(** *** Further quantities *)

(** A stored reading of spot [k]: it carries the number of the spot, a
    confidence within the range, a type, a processed hash and a time not
    after the latest reading of the spot. *)
Definition well_stored (st : State) (k : N) (d : SensorData) : Prop :=
  spotId d = k ∧ 0 < k ∧
  MIN_CONFIDENCE ≤ confidence d ∧ confidence d ≤ 100 ∧
  (0 < String.length (sensorType d))%nat ∧
  dataHash d ∈ processedDataHashes st ∧
  timestamp d ≤ timestamp (latest_at st k).

(** The calls reserved to the owner. *)
Definition owner_only (c : Call) : bool :=
  match c with UpdateSensorData _ _ _ _ _ => false | _ => true end.

End ParkingOracle.

(** * Properties *)

(** ** Reasoning about the monad and the checked arithmetic *)

Section Monad.
Context {E : Type}.

Lemma bind_Ok {A B} (m : result E A) (f : A → result E B) (b : B) :
  m ≫= f = Ok b ↔ ∃ a, m = Ok a ∧ f a = Ok b.
Proof.
  destruct m as [a|e]; simpl; split.
  - intros H. by exists a.
  - by intros (a' & [= <-] & H).
  - discriminate.
  - by intros (a' & [=] & _).
Qed.

Lemma bind_Revert {A B} (m : result E A) (f : A → result E B) (e : E) :
  m ≫= f = Revert e ↔ m = Revert e ∨ ∃ a, m = Ok a ∧ f a = Revert e.
Proof.
  destruct m as [a|e']; simpl; split.
  - intros H. right. by exists a.
  - intros [[=] | (a' & [= <-] & H)]. done.
  - intros [= ->]. by left.
  - intros [[= ->] | (a' & [=] & _)]. done.
Qed.

Lemma require_Ok (c : bool) (e : E) (u : unit) :
  require c e = Ok u ↔ c = true.
Proof. destruct c, u; simpl; split; (done || discriminate). Qed.

Lemma require_Revert (c : bool) (e e' : E) :
  require c e = Revert e' ↔ c = false ∧ e' = e.
Proof.
  destruct c; simpl; split; try done.
  - by intros [??].
  - by intros [= ->].
  - by intros [_ ->].
Qed.
End Monad.

Module U256Facts.
Import U256.

Lemma add_Some a b n : add a b = Some n ↔ n = a + b ∧ a + b ≤ MAX.
Proof.
  unfold add. destruct (N.leb_spec (a + b) MAX); split.
  - by intros [= <-].
  - by intros [-> _].
  - discriminate.
  - intros [_ ?]. lia.
Qed.

Lemma sub_Some a b n : sub a b = Some n ↔ n = a - b ∧ b ≤ a.
Proof.
  unfold sub. destruct (N.leb_spec b a); split.
  - by intros [= <-].
  - by intros [-> _].
  - discriminate.
  - intros [_ ?]. lia.
Qed.

Lemma mul_Some a b n : mul a b = Some n ↔ n = a * b ∧ a * b ≤ MAX.
Proof.
  unfold mul. destruct (N.leb_spec (a * b) MAX); split.
  - by intros [= <-].
  - by intros [-> _].
  - discriminate.
  - intros [_ ?]. lia.
Qed.
End U256Facts.

(** ** Sums over maps *)

Section SumMap.
Context {V : Type}.
Implicit Types (f g : V → N) (m : gmap N V).

Lemma sumList_perm f (l l' : list (N * V)) :
  l ≡ₚ l' → sumList f l = sumList f l'.
Proof. induction 1; simpl in *; lia. Qed.

Lemma sumMap_empty f : sumMap f (∅ : gmap N V) = 0.
Proof. unfold sumMap. by rewrite map_to_list_empty. Qed.

Lemma sumMap_insert_fresh f m k v :
  m !! k = None → sumMap f (<[k := v]> m) = sumMap f m + f v.
Proof.
  intros Hk. unfold sumMap.
  rewrite (sumList_perm f _ _ (map_to_list_insert m k v Hk)). simpl. lia.
Qed.

Lemma sumMap_delete f m k v :
  m !! k = Some v → sumMap f m = sumMap f (delete k m) + f v.
Proof.
  intros Hk. unfold sumMap.
  rewrite <- (sumList_perm f _ _ (map_to_list_delete m k v Hk)). simpl. lia.
Qed.

(** Overwriting the entry at [k]: the old contribution leaves the sum, the
    new one enters it. An absent entry counts as the default [d]. *)
Lemma sumMap_insert f m k v d :
  f d = 0 →
  sumMap f (<[k := v]> m) + f (default d (m !! k)) = sumMap f m + f v.
Proof.
  intros Hd. destruct (m !! k) as [old|] eqn:Hk; simpl.
  - rewrite <- insert_delete_eq.
    rewrite sumMap_insert_fresh by apply lookup_delete_eq.
    rewrite (sumMap_delete f m k old Hk). lia.
  - rewrite sumMap_insert_fresh by done. lia.
Qed.

Lemma sumMap_ext f g m :
  (∀ k v, m !! k = Some v → f v = g v) → sumMap f m = sumMap g m.
Proof.
  intros Hfg. unfold sumMap, sumList.
  assert (Hall : ∀ kv, kv ∈ map_to_list m → f kv.2 = g kv.2).
  { intros [k v] Hin. apply elem_of_map_to_list in Hin. eauto. }
  induction (map_to_list m) as [|kv l IH]; simpl; [done|].
  rewrite IH, (Hall kv); [done| |].
  - apply list_elem_of_here.
  - intros kv' Hin. apply Hall. by apply list_elem_of_further.
Qed.
End SumMap.

Module ParkingSystemFacts.
Import ParkingSystem U256Facts.

Lemma checked_Ok o n : checked o = Ok n ↔ o = Some n.
Proof. destruct o; simpl; split; congruence. Qed.

Lemma transfer_Ok env to amount st st' :
  transfer env to amount st = Ok st' ↔
  accepts env to = true ∧ amount ≤ balance st ∧
  st' = set_balance (balance st - amount) st.
Proof.
  unfold transfer. rewrite bind_Ok. split.
  - intros ([] & Hreq & [= <-]). apply require_Ok in Hreq.
    apply andb_true_iff in Hreq as [? ?%N.leb_le]. done.
  - intros (Ha & Hle%N.leb_le & ->). exists tt.
    split; [|done]. apply require_Ok. by rewrite Ha, Hle.
Qed.

(** Take one hypothesis [H : (x ← m; k) = Ok r] apart, statement by
    statement of the source function. *)
Ltac bind_step H :=
  let a := fresh "v" in
  let Ha := fresh "Hv" in
  apply bind_Ok in H as (a & Ha & H);
  first
    [ apply require_Ok in Ha
    | apply checked_Ok in Ha;
      first [ apply add_Some in Ha as [-> Ha]
            | apply sub_Some in Ha as [-> Ha]
            | apply mul_Some in Ha as [-> Ha] ]
    | apply transfer_Ok in Ha as (? & ? & ->)
    | idtac ];
  cbv beta zeta in H.

Ltac bind_steps H := repeat bind_step H.

(** Case analysis on [H : x ∈ [a; b; ...]]; the cases where [x] and the
    element are different constructors are closed. *)
Ltac elem_cases H :=
  repeat (apply elem_of_cons in H as [H|H]; [try discriminate H|]);
  try (by apply elem_of_nil in H).

(** Read the fields of records built by the setters. *)
Ltac fields :=
  cbn [spotId location hourlyRate isActive isOccupied currentUser
       reservationEnd totalEarnings totalOccupations
       reservationId user resSpotId startTime endTime totalCost paidAmount
       status actualStartTime actualEndTime
       parkingSpots reservations userReservations spotExists nextSpotId
       nextReservationId platformFeePercentage totalPlatformEarnings
       oracleAddress owner paused balance
       set_parkingSpots set_reservations set_userReservations set_spotExists
       set_nextSpotId set_nextReservationId set_platformFeePercentage
       set_totalPlatformEarnings set_oracleAddress set_owner set_paused
       set_balance write_spot write_reservation
       spot_set_reservationEnd spot_set_occupancy spot_set_totalOccupations
       spot_set_totalEarnings res_set_actualStartTime res_set_actualEndTime
       res_set_status fst snd].
Ltac fields_in H :=
  cbn [spotId location hourlyRate isActive isOccupied currentUser
       reservationEnd totalEarnings totalOccupations
       reservationId user resSpotId startTime endTime totalCost paidAmount
       status actualStartTime actualEndTime
       parkingSpots reservations userReservations spotExists nextSpotId
       nextReservationId platformFeePercentage totalPlatformEarnings
       oracleAddress owner paused balance
       set_parkingSpots set_reservations set_userReservations set_spotExists
       set_nextSpotId set_nextReservationId set_platformFeePercentage
       set_totalPlatformEarnings set_oracleAddress set_owner set_paused
       set_balance write_spot write_reservation
       spot_set_reservationEnd spot_set_occupancy spot_set_totalOccupations
       spot_set_totalEarnings res_set_actualStartTime res_set_actualEndTime
       res_set_status fst snd] in H.

Lemma reservation_at_write k r st :
  reservation_at (write_reservation k r st) k = r.
Proof. unfold reservation_at. simpl. by rewrite lookup_insert_eq. Qed.

Lemma reservation_at_write_ne k k' r st :
  k ≠ k' → reservation_at (write_reservation k r st) k' = reservation_at st k'.
Proof. intros. unfold reservation_at. simpl. by rewrite lookup_insert_ne. Qed.

(** Reading back what a settlement or a cancellation wrote. *)
Lemma reservation_at_settled b p k s id r st :
  reservation_at
    (set_balance b
       (set_totalPlatformEarnings p
          (write_spot k s (write_reservation id r st)))) id = r.
Proof. unfold reservation_at. fields. by rewrite lookup_insert_eq. Qed.

Lemma spot_at_settled b p k s id r st :
  spot_at
    (set_balance b
       (set_totalPlatformEarnings p
          (write_spot k s (write_reservation id r st)))) k = s.
Proof. unfold spot_at. fields. by rewrite lookup_insert_eq. Qed.

Lemma spot_at_write k s st : spot_at (write_spot k s st) k = s.
Proof. unfold spot_at. simpl. by rewrite lookup_insert_eq. Qed.

Lemma spot_at_write_ne k k' s st :
  k ≠ k' → spot_at (write_spot k s st) k' = spot_at st k'.
Proof. intros. unfold spot_at. simpl. by rewrite lookup_insert_ne. Qed.

Lemma completeReservation_Ok st env id st' effects :
  completeReservation st env id = Ok (st', effects) →
  let r := reservation_at st id in
  let actualCost := actualCostOf st (block_timestamp env) r in
  let platformFee := platformFeeOf st actualCost in
  let refund := refundOf r actualCost in
  msg_sender env = oracleAddress st ∧ id < nextReservationId st ∧
  status r = Active ∧ 0 < actualStartTime r ∧ actualEndTime r = 0 ∧
  actualStartTime r ≤ block_timestamp env ∧
  platformFee ≤ actualCost ∧ refund ≤ balance st ∧
  st' = set_balance (balance st - refund)
          (set_totalPlatformEarnings (totalPlatformEarnings st + platformFee)
             (write_spot (resSpotId r)
                (spot_set_totalEarnings
                   (totalEarnings (spot_at st (resSpotId r))
                      + (actualCost - platformFee))
                   (spot_set_occupancy false 0 (spot_at st (resSpotId r))))
                (write_reservation id
                   (res_set_status Completed
                      (res_set_actualEndTime (block_timestamp env) r)) st)))
  ∧ effects =
      (if actualCost <? totalCost r
       then [Transfer (user r) refund] else [])
      ++ [Emit (ReservationCompleted id (block_timestamp env)
                  actualCost refund);
          Emit (SpotOccupancyChanged (resSpotId r) false 0)].
Proof.
  intros H. unfold completeReservation in H.
  do 11 bind_step H. fields_in H.
  unfold actualCostOf, platformFeeOf, refundOf. fields.
  apply N.eqb_eq in Hv. apply N.ltb_lt in Hv0, Hv2.
  apply bool_decide_eq_true in Hv1. apply N.eqb_eq in Hv3.
  destruct (_ <? totalCost _) eqn:Hlt.
  - do 2 bind_step H. injection H as <- <-. fields.
    repeat split; try done.
  - injection H as <- <-.
    repeat split; try done; try lia.
    by rewrite N.sub_0_r.
Qed.

(** *** Well-formedness is preserved *)

Lemma well_formed_deployed deployer oracle :
  well_formed (deployed deployer oracle).
Proof.
  unfold well_formed, deployed; simpl. split; [lia|].
  split; [set_solver|]. split; intros ?? H; by rewrite lookup_empty in H.
Qed.

Lemma well_formed_reservation_at st id :
  well_formed st → resSpotId (reservation_at st id) < nextSpotId st.
Proof.
  intros (Hone & _ & _ & Hres). unfold reservation_at.
  destruct (reservations st !! id) as [r|] eqn:Hr; simpl; [|lia].
  by apply Hres in Hr as [_ ?].
Qed.

(** After a call that wrote at most one spot and one reservation. *)
Ltac wf_goal Hwf :=
  let Hone := fresh "Hone" in
  let Hex := fresh "Hex" in
  let Hsp := fresh "Hsp" in
  let Hres := fresh "Hres" in
  destruct Hwf as (Hone & Hex & Hsp & Hres);
  unfold well_formed; fields;
  split; [lia|]; split; [try done|]; split;
  [ try done;
    let k := fresh "k" in let s := fresh "s" in let Hl := fresh "Hl" in
    intros k s Hl;
    match type of Hl with
    | <[?k0 := _]> _ !! _ = _ =>
        destruct (decide (k0 = k)) as [<-|?];
        [ try done | rewrite lookup_insert_ne in Hl by done; eauto ]
    end
  | try done;
    let k := fresh "id" in let r := fresh "r" in let Hl := fresh "Hl" in
    intros k r Hl;
    match type of Hl with
    | <[?k0 := _]> _ !! _ = _ =>
        destruct (decide (k0 = k)) as [<-|?];
        [ rewrite lookup_insert_eq in Hl; injection Hl as <-; fields;
          split; try done; try lia
        | rewrite lookup_insert_ne in Hl by done;
          apply Hres in Hl; split; [lia | tauto] ]
    end ].

Lemma call_well_formed st env c st' effects :
  well_formed st → call st env c = Ok (st', effects) → well_formed st'.
Proof.
  intros Hwf H. destruct c; simpl in H.
  - unfold createParkingSpot in H. bind_steps H. injection H as <- <-.
    destruct Hwf as (Hone & Hex & Hsp & Hres). unfold well_formed. fields.
    split; [lia|]. split; [|split].
    + intros k [->%elem_of_singleton | Hk]%elem_of_union; [lia|].
      apply Hex in Hk. lia.
    + intros k s Hl. destruct (decide (nextSpotId st = k)) as [<-|Hne]; [lia|].
      rewrite lookup_insert_ne in Hl by done. apply Hsp in Hl. lia.
    + intros id r Hl. apply Hres in Hl. lia.
  - unfold reserveSpot in H. bind_steps H. fields_in H.
    assert (Hk : _spotId < nextSpotId st).
    { destruct Hwf as (_ & Hex & _). apply Hex.
      by apply bool_decide_eq_true in Hv0. }
    destruct (_ <? value); bind_steps H; injection H as <- <-; wf_goal Hwf.
  - unfold startReservation in H. bind_steps H. injection H as <- <-.
    pose proof (well_formed_reservation_at st _reservationId Hwf).
    apply N.ltb_lt in Hv0. wf_goal Hwf.
  - apply completeReservation_Ok in H
      as (_ & Hid & _ & _ & _ & _ & _ & _ & -> & _).
    pose proof (well_formed_reservation_at st _reservationId Hwf).
    wf_goal Hwf.
  - unfold cancelReservation in H. bind_steps H. injection H as <- <-.
    pose proof (well_formed_reservation_at st _reservationId Hwf).
    apply N.ltb_lt in Hv. wf_goal Hwf.
  - unfold updatePlatformFee in H. bind_steps H. by injection H as <- <-.
  - unfold updateOracle in H. bind_steps H. by injection H as <- <-.
  - unfold withdrawPlatformEarnings in H. bind_steps H. by injection H as <- <-.
  - unfold pause in H. bind_steps H. by injection H as <- <-.
  - unfold unpause in H. bind_steps H. by injection H as <- <-.
  - unfold transferOwnership in H. bind_steps H. by injection H as <- <-.
  - unfold renounceOwnership in H. bind_steps H. by injection H as <- <-.
Qed.

(** *** The conservation equation is preserved *)

Lemma completedCost_insert spots k s r :
  hourlyRate s = hourlyRate (default zeroSpot (spots !! k)) →
  completedCost (<[k := s]> spots) r = completedCost spots r.
Proof.
  intros Hrate. unfold completedCost. case_bool_decide; [|done].
  destruct (decide (k = resSpotId r)) as [->|Hne].
  - rewrite lookup_insert_eq. simpl. by rewrite Hrate.
  - by rewrite lookup_insert_ne.
Qed.

Lemma completedCost_insert_other spots k s r :
  resSpotId r ≠ k → completedCost (<[k := s]> spots) r = completedCost spots r.
Proof.
  intros Hne. unfold completedCost. case_bool_decide; [|done].
  by rewrite lookup_insert_ne.
Qed.

Lemma withdrawn_snoc log entry :
  withdrawn (log ++ [entry]) = withdrawn log + withdrawnBy entry.
Proof. unfold withdrawn. induction log as [|e l IH]; simpl in *; lia. Qed.

(** The three sums after one spot and one reservation were overwritten,
    the spot keeping its rate. *)
Lemma sums_after_write spots ress id r' k s' :
  hourlyRate s' = hourlyRate (default zeroSpot (spots !! k)) →
  sumMap totalEarnings (<[k := s']> spots)
    + totalEarnings (default zeroSpot (spots !! k))
  = sumMap totalEarnings spots + totalEarnings s' ∧
  sumMap (completedCost (<[k := s']> spots)) (<[id := r']> ress)
    + completedCost spots (default zeroReservation (ress !! id))
  = sumMap (completedCost spots) ress + completedCost spots r' ∧
  sumMap cancelledFee (<[id := r']> ress)
    + cancelledFee (default zeroReservation (ress !! id))
  = sumMap cancelledFee ress + cancelledFee r'.
Proof.
  intros Hrate. split; [|split].
  - by apply sumMap_insert.
  - rewrite (sumMap_ext (completedCost (<[k := s']> spots))
               (completedCost spots)).
    + by apply sumMap_insert.
    + intros. by apply completedCost_insert.
  - by apply sumMap_insert.
Qed.

Lemma completedCost_not_completed spots r :
  status r ≠ Completed → completedCost spots r = 0.
Proof. intros. unfold completedCost. by case_bool_decide. Qed.

Lemma completedCost_completed spots r :
  status r = Completed →
  completedCost spots r
  = (actualEndTime r - actualStartTime r)
      * hourlyRate (default zeroSpot (spots !! resSpotId r)) / HOUR.
Proof. intros. unfold completedCost. by case_bool_decide. Qed.

Lemma cancelledFee_not_cancelled r : status r ≠ Cancelled → cancelledFee r = 0.
Proof. intros. unfold cancelledFee. by case_bool_decide. Qed.

Lemma cancelledFee_cancelled r :
  status r = Cancelled → cancelledFee r = totalCost r * 5 / 100.
Proof. intros. unfold cancelledFee. by case_bool_decide. Qed.

Ltac sums_goal :=
  unfold conservation, totalSpotEarnings, totalCompletedCost,
    totalCancellationFees, spot_at, reservation_at in *;
  fields.

(** Instantiate [sums_after_write] at the maps of the goal. *)
Ltac sums_written HE HC HF :=
  match goal with
  | |- context [sumMap (completedCost (<[?k := ?s]> ?spots))
                  (<[?id := ?r]> ?ress)] =>
      destruct (sums_after_write spots ress id r k s)
        as (HE & HC & HF); [done|]
  end.

(** The old entry was [Active]; the new one has status [s]. *)
Ltac status_old HC HF Hold :=
  match type of HC with
  | _ + completedCost ?sp ?old = _ =>
      rewrite (completedCost_not_completed sp old) in HC
        by (rewrite Hold; discriminate);
      rewrite (cancelledFee_not_cancelled old) in HF
        by (rewrite Hold; discriminate)
  end.

Lemma call_conservation st env c st' effects log :
  invariant st log → call st env c = Ok (st', effects) →
  conservation st' (log ++ [(c, effects)]).
Proof.
  intros [Hcons Hwf] H. unfold conservation. rewrite withdrawn_snoc.
  unfold withdrawnBy. destruct c; simpl in H; cbn [fst snd].
  - (* createParkingSpot *)
    unfold createParkingSpot in H. bind_steps H. injection H as <- <-.
    destruct Hwf as (Hone & Hex & Hsp & Hres). sums_goal.
    assert (Hfresh : parkingSpots st !! nextSpotId st = None).
    { destruct (parkingSpots st !! nextSpotId st) eqn:Hl; [|done].
      apply Hsp in Hl. lia. }
    rewrite sumMap_insert_fresh by done.
    rewrite (sumMap_ext (completedCost (<[nextSpotId st := _]> _))
               (completedCost (parkingSpots st))).
    + simpl. lia.
    + intros id r Hl. apply completedCost_insert_other.
      apply Hres in Hl. lia.
  - (* reserveSpot *)
    unfold reserveSpot in H. bind_steps H. fields_in H.
    assert (Hfresh : reservations st !! nextReservationId st = None).
    { destruct Hwf as (_ & _ & _ & Hres).
      destruct (reservations st !! nextReservationId st) eqn:Hl; [|done].
      apply Hres in Hl. lia. }
    destruct (_ <? value); bind_steps H; injection H as <- <-; sums_goal.
    all: sums_written HE HC HF.
    all: rewrite Hfresh in HC, HF; cbn [default] in HC, HF.
    all: rewrite !completedCost_not_completed in HC by discriminate.
    all: rewrite !cancelledFee_not_cancelled in HF by discriminate.
    all: fields_in HE; lia.
  - (* startReservation *)
    unfold startReservation in H. bind_steps H. injection H as <- <-.
    apply bool_decide_eq_true in Hv1. sums_goal.
    sums_written HE HC HF. status_old HC HF Hv1.
    rewrite completedCost_not_completed in HC by (fields; congruence).
    rewrite cancelledFee_not_cancelled in HF by (fields; congruence).
    fields_in HE. lia.
  - (* completeReservation *)
    apply completeReservation_Ok in H
      as (_ & _ & Hact & _ & _ & Hle & Hfee & _ & -> & _).
    unfold actualCostOf, platformFeeOf in *. sums_goal.
    sums_written HE HC HF. status_old HC HF Hact.
    rewrite completedCost_completed in HC by done.
    rewrite cancelledFee_not_cancelled in HF by discriminate.
    fields_in HE. fields_in HC. lia.
  - (* cancelReservation *)
    unfold cancelReservation in H. bind_steps H. injection H as <- <-.
    apply bool_decide_eq_true in Hv1. sums_goal.
    sums_written HE HC HF. status_old HC HF Hv1.
    rewrite completedCost_not_completed in HC by discriminate.
    rewrite cancelledFee_cancelled in HF by done.
    fields_in HE. fields_in HF. lia.
  - unfold updatePlatformFee in H. bind_steps H. injection H as <- <-.
    sums_goal. lia.
  - unfold updateOracle in H. bind_steps H. injection H as <- <-.
    sums_goal. lia.
  - (* withdrawPlatformEarnings *)
    unfold withdrawPlatformEarnings in H. bind_steps H.
    injection H as <- <-. sums_goal. simpl. lia.
  - unfold pause in H. bind_steps H. injection H as <- <-. sums_goal. lia.
  - unfold unpause in H. bind_steps H. injection H as <- <-. sums_goal. lia.
  - unfold transferOwnership in H. bind_steps H. injection H as <- <-.
    sums_goal. lia.
  - unfold renounceOwnership in H. bind_steps H. injection H as <- <-.
    sums_goal. lia.
Qed.

(** *** Executions *)

Lemma exec_invariant txs : ∀ st log,
  invariant st log →
  invariant (foldl exec1 (st, log) txs).1 (foldl exec1 (st, log) txs).2.
Proof.
  induction txs as [|[env c] txs IH]; intros st log Hinv; [done|].
  simpl.
  assert (Hstep : invariant (exec1 (st, log) (env, c)).1
                            (exec1 (st, log) (env, c)).2).
  { unfold exec1. cbn [fst snd].
    destruct (call st env c) as [[st' effects]|e] eqn:Hcall; [|done].
    split; cbn [fst snd].
    - by eapply call_conservation.
    - destruct Hinv as [_ Hwf]. by eapply call_well_formed. }
  destruct (exec1 (st, log) (env, c)) as [st1 log1]. by apply IH.
Qed.

Lemma reachable_invariant st log : reachable st log → invariant st log.
Proof.
  intros (deployer & oracle & txs & Hexec).
  pose proof (exec_invariant txs (deployed deployer oracle) []) as Hinv.
  change (foldl exec1 (deployed deployer oracle, []) txs)
    with (exec (deployed deployer oracle) txs) in Hinv.
  rewrite Hexec in Hinv. apply Hinv. split.
  - unfold conservation, totalSpotEarnings, totalCompletedCost,
      totalCancellationFees. simpl. by rewrite !sumMap_empty.
  - apply well_formed_deployed.
Qed.

Lemma reachable_exec deployer oracle txs :
  reachable (exec (deployed deployer oracle) txs).1
            (exec (deployed deployer oracle) txs).2.
Proof. exists deployer, oracle, txs. apply surjective_pairing. Qed.

(** *** C1: financial conservation *)

(** C1, as stated, fails: after a cancellation the platform holds the 5%
    penalty although no reservation is Completed; and after a withdrawal
    the earnings of a completed reservation are no longer in the contract's
    counters. *)
Lemma conservation_as_specified_fails :
  (let st := (exec (deployed 1 2) cancelled_run).1 in
   reachable st (exec (deployed 1 2) cancelled_run).2 ∧
   totalSpotEarnings st + totalPlatformEarnings st = 5 ∧
   totalCompletedCost st = 0 ∧
   ¬ conservation_as_specified st) ∧
  (let st := (exec (deployed 1 2) withdrawn_run).1 in
   reachable st (exec (deployed 1 2) withdrawn_run).2 ∧
   totalSpotEarnings st + totalPlatformEarnings st = 45 ∧
   totalCompletedCost st = 50 ∧
   ¬ conservation_as_specified st).
Proof.
  split; cbv zeta; (split; [apply reachable_exec|]);
    unfold conservation_as_specified; vm_compute; repeat split; discriminate.
Qed.

(** C1 (amended): in every reachable state, the spots' total earnings plus
    the platform's accumulated earnings plus what the owner has withdrawn
    equals the actual cost of all Completed reservations plus the
    cancellation penalties of all Cancelled ones. *)
Theorem financial_conservation st log :
  reachable st log →
  totalSpotEarnings st + totalPlatformEarnings st + withdrawn log
  = totalCompletedCost st + totalCancellationFees st.
Proof. intros Hreach. by apply reachable_invariant in Hreach as [Hcons _]. Qed.

Lemma financial_conservation_witness :
  let st := (exec (deployed 1 2) withdrawn_run).1 in
  let log := (exec (deployed 1 2) withdrawn_run).2 in
  reachable st log ∧
  totalSpotEarnings st + totalPlatformEarnings st + withdrawn log
  = totalCompletedCost st + totalCancellationFees st.
Proof.
  split; [apply reachable_exec|].
  apply financial_conservation, reachable_exec.
Defined.

(** *** C2: temporal exclusivity *)

(** What [reserveSpot] does enforce: a start before the spot's recorded
    horizon is refused once the earlier guards have passed. *)
Lemma reserveSpot_before_horizon st env value _spotId _startTime _endTime :
  paused st = false → _spotId ∈ spotExists st →
  isActive (spot_at st _spotId) = true →
  isOccupied (spot_at st _spotId) = false →
  block_timestamp env ≤ _startTime → _startTime < _endTime →
  MIN_RESERVATION_TIME ≤ _endTime - _startTime ≤ MAX_RESERVATION_TIME →
  _startTime < reservationEnd (spot_at st _spotId) →
  reserveSpot st env value _spotId _startTime _endTime
  = Revert SpotAlreadyReserved.
Proof.
  intros Hp Hex Hact Hocc Hnow Hlt [Hmin Hmax] Hhor.
  unfold reserveSpot, whenNotPaused, spotExistsModifier, spot_at in *.
  fields. rewrite Hp, (bool_decide_eq_true_2 _ Hex), Hact, Hocc.
  rewrite (proj2 (N.leb_le _ _) Hnow), (proj2 (N.ltb_lt _ _) Hlt).
  unfold U256.sub. rewrite (proj2 (N.leb_le _startTime _endTime)) by lia.
  cbn [require negb mbind result_bind checked].
  rewrite (proj2 (N.leb_le _ _) Hmin), (proj2 (N.leb_le _ _) Hmax).
  cbn [require negb mbind result_bind checked].
  by rewrite (proj2 (N.leb_gt _ _) Hhor).
Qed.

(** C2 at the failing input: after the holder of an earlier window cancels,
    the spot's horizon is 0 although reservation 2 is still Active until
    23600; the booking of user 9 for the same hour is accepted, and the
    state holds two Active reservations of spot 1 with the same window. *)
Theorem double_booking_after_cancel :
  let before := (exec (deployed 1 2) (take 4 double_booking_run)).1 in
  let after := (exec (deployed 1 2) double_booking_run).1 in
  let r2 := reservation_at before 2 in
  status r2 = Active ∧ resSpotId r2 = 1 ∧ endTime r2 = 23600 ∧
  reservationEnd (spot_at before 1) = 0 ∧
  succeeds (reserveSpot before (everyone 9 6) 100 1 20000 23600) ∧
  status (reservation_at after 2) = Active ∧
  status (reservation_at after 3) = Active ∧
  resSpotId (reservation_at after 2) = resSpotId (reservation_at after 3) ∧
  overlapping (reservation_at after 2) (reservation_at after 3).
Proof.
  cbv zeta. repeat split; try (vm_compute; reflexivity).
  vm_compute. eexists. reflexivity.
Qed.

(** *** C3: settlement arithmetic *)

(** C3: a successful [completeReservation] charges
    [floor ((now - actualStart) * hourlyRate / 3600)], keeps
    [floor (actualCost * feePercent / 100)] of it for the platform, credits
    the spot with the rest, and sends the requester [totalCost - actualCost]
    when that is positive and nothing otherwise. *)
Theorem settlement_arithmetic st env id st' effects :
  completeReservation st env id = Ok (st', effects) →
  let r := reservation_at st id in
  let spot := spot_at st (resSpotId r) in
  let actualCost :=
    (block_timestamp env - actualStartTime r) * hourlyRate spot / 3600 in
  let platformFee := actualCost * platformFeePercentage st / 100 in
  let refund :=
    if actualCost <? totalCost r then totalCost r - actualCost else 0 in
  actualStartTime r ≤ block_timestamp env ∧
  actualEndTime (reservation_at st' id) = block_timestamp env ∧
  status (reservation_at st' id) = Completed ∧
  platformFee ≤ actualCost ∧
  totalEarnings (spot_at st' (resSpotId r))
  = totalEarnings spot + (actualCost - platformFee) ∧
  totalPlatformEarnings st' = totalPlatformEarnings st + platformFee ∧
  Emit (ReservationCompleted id (block_timestamp env) actualCost refund)
    ∈ effects ∧
  (∀ to amount, Transfer to amount ∈ effects →
     to = user r ∧ amount = refund ∧ actualCost < totalCost r) ∧
  (actualCost < totalCost r →
     Transfer (user r) (totalCost r - actualCost) ∈ effects) ∧
  balance st' = balance st - refund ∧ refund ≤ balance st ∧
  (refund ≠ 0 → actualCost < totalCost r).
Proof.
  intros H. cbv zeta.
  apply completeReservation_Ok in H
    as (_ & _ & _ & _ & _ & Hstart & Hfee & Hbal & -> & ->).
  unfold actualCostOf, platformFeeOf, refundOf, HOUR in *.
  rewrite reservation_at_settled, spot_at_settled. fields.
  destruct (_ <? totalCost _) eqn:Hlt; cbn [app].
  - apply N.ltb_lt in Hlt. repeat split; try done; try by repeat constructor.
    all: elem_cases H; by injection H as -> ->.
  - apply N.ltb_ge in Hlt. repeat split; try done; try lia.
    + by repeat constructor.
    + elem_cases H.
    + elem_cases H.
    + elem_cases H.
Qed.

Lemma settlement_arithmetic_witness :
  let st := (exec (deployed 1 2) started_run).1 in
  ∃ st' effects,
    completeReservation st (everyone 2 11800) 1 = Ok (st', effects) ∧
    totalEarnings (spot_at st' 1) = 45 ∧
    totalPlatformEarnings st' = 5 ∧
    Transfer 7 50 ∈ effects.
Proof.
  cbv zeta.
  destruct (completeReservation (exec (deployed 1 2) started_run).1
              (everyone 2 11800) 1) as [[st' effects]|e] eqn:H;
    [|by vm_compute in H].
  exists st', effects. split; [done|].
  pose proof (settlement_arithmetic _ _ _ _ _ H) as Hs. cbv zeta in Hs.
  destruct Hs as (_ & _ & _ & _ & HE & HP & _ & _ & HT & _).
  split; [exact HE|]. split; [exact HP|]. apply HT. by vm_compute.
Defined.

(** *** C10: overstay accounting *)

(** C10: when the actual cost exceeds the escrowed [totalCost], a
    successful [completeReservation] sends nothing and leaves the
    reservation's amounts and the contract's balance as they were, while
    the spot and the platform are together credited with the whole actual
    cost: [actualCost - totalCost] more than was escrowed. *)
Theorem overstay_accounting st env id st' effects :
  completeReservation st env id = Ok (st', effects) →
  let r := reservation_at st id in
  let spot := spot_at st (resSpotId r) in
  let actualCost :=
    (block_timestamp env - actualStartTime r) * hourlyRate spot / 3600 in
  totalCost r < actualCost →
  effects = [Emit (ReservationCompleted id (block_timestamp env)
                     actualCost 0);
             Emit (SpotOccupancyChanged (resSpotId r) false 0)] ∧
  balance st' = balance st ∧
  paidAmount (reservation_at st' id) = paidAmount r ∧
  totalCost (reservation_at st' id) = totalCost r ∧
  totalEarnings (spot_at st' (resSpotId r)) + totalPlatformEarnings st'
  = totalEarnings spot + totalPlatformEarnings st
    + totalCost r + (actualCost - totalCost r) ∧
  0 < actualCost - totalCost r.
Proof.
  intros H. cbv zeta. intros Hover.
  apply completeReservation_Ok in H
    as (_ & _ & _ & _ & _ & Hstart & Hfee & Hbal & -> & ->).
  unfold actualCostOf, platformFeeOf, refundOf, HOUR in *.
  rewrite reservation_at_settled, spot_at_settled. fields.
  rewrite (proj2 (N.ltb_ge _ _)) by lia. cbn [app].
  repeat split; try done; lia.
Qed.

Lemma overstay_accounting_witness :
  let st := (exec (deployed 1 2) started_run).1 in
  ∃ st' effects,
    completeReservation st (everyone 2 17200) 1 = Ok (st', effects) ∧
    totalCost (reservation_at st 1) = 100 ∧
    effects = [Emit (ReservationCompleted 1 17200 200 0);
               Emit (SpotOccupancyChanged 1 false 0)] ∧
    balance st' = balance st ∧
    totalEarnings (spot_at st' 1) + totalPlatformEarnings st' = 200.
Proof.
  cbv zeta.
  destruct (completeReservation (exec (deployed 1 2) started_run).1
              (everyone 2 17200) 1) as [[st' effects]|e] eqn:H;
    [|by vm_compute in H].
  exists st', effects. split; [done|]. split; [by vm_compute|].
  pose proof (overstay_accounting _ _ _ _ _ H) as Hs. cbv zeta in Hs.
  destruct Hs as (HE & HB & _ & _ & HS & _); [by vm_compute|].
  split; [exact HE|]. split; [exact HB|exact HS].
Defined.

(** *** C4: cancellation *)

Lemma cancellationFee_le r : cancellationFeeOf r ≤ totalCost r.
Proof.
  unfold cancellationFeeOf. apply N.Div0.div_le_upper_bound. lia.
Qed.

Lemma cancelReservation_Ok st env id st' effects :
  cancelReservation st env id = Ok (st', effects) ↔
  cancellable st env id ∧
  let r := reservation_at st id in
  let refund := totalCost r - cancellationFeeOf r in
  st' = set_balance (balance st - refund)
          (set_totalPlatformEarnings
             (totalPlatformEarnings st + cancellationFeeOf r)
             (write_spot (resSpotId r)
                (spot_set_reservationEnd 0 (spot_at st (resSpotId r)))
                (write_reservation id (res_set_status Cancelled r) st))) ∧
  effects = [Transfer (msg_sender env) refund;
             Emit (ReservationCancelled id refund)].
Proof.
  unfold cancellable, cancellationFeeOf. cbv zeta. split.
  - intros H. unfold cancelReservation in H. bind_steps H.
    injection H as <- <-. fields_in Hv4. fields_in Hv6. fields_in H1.
    apply N.ltb_lt in Hv, Hv3. apply N.eqb_eq in Hv0, Hv2.
    apply bool_decide_eq_true in Hv1. fields. done.
  - intros ((Hid & Huser & Hact & Hns & Hnow & Hmul & Hadd & Hacc & Hbal)
            & -> & ->).
    pose proof (cancellationFee_le (reservation_at st id)) as Hle.
    unfold cancellationFeeOf in Hle.
    unfold cancelReservation, validReservation, transfer, U256.mul,
      U256.sub, U256.add. fields.
    rewrite (proj2 (N.ltb_lt _ _) Hid), (proj2 (N.eqb_eq _ _) Huser).
    rewrite (bool_decide_eq_true_2 _ Hact), (proj2 (N.eqb_eq _ _) Hns).
    rewrite (proj2 (N.ltb_lt _ _) Hnow), (proj2 (N.leb_le _ _) Hmul).
    cbn [require mbind result_bind checked].
    rewrite (proj2 (N.leb_le _ _) Hle), (proj2 (N.leb_le _ _) Hadd).
    cbn [require mbind result_bind checked]. fields.
    rewrite Hacc, (proj2 (N.leb_le _ _) Hbal). done.
Qed.

(** C4, as stated, fails: the requester of an Active reservation that was
    never started cannot cancel once the requested start time is reached. *)
Lemma cancel_at_start_time_fails :
  let st := (exec (deployed 1 2) booked_run).1 in
  let env := everyone 7 10000 in
  let r := reservation_at st 1 in
  user r = msg_sender env ∧ status r = Active ∧ actualStartTime r = 0 ∧
  cancelReservation st env 1 = Revert TooLateToCancel.
Proof. by vm_compute. Qed.

(** C4 (amended): [cancelReservation] succeeds exactly when the id is
    below the reservation counter, the caller is the requester, the
    reservation is Active and not started, and the current time is strictly
    before the requested start (the penalty arithmetic fitting in 256 bits
    and the refund transfer going through). It then refunds
    [totalCost - floor (totalCost * 5 / 100)], accrues the penalty to the
    platform and marks the reservation Cancelled. Otherwise it reverts and
    the state is unchanged. *)
Theorem cancel_precondition st env id :
  let r := reservation_at st id in
  let penalty := totalCost r * 5 / 100 in
  let refund := totalCost r - penalty in
  (succeeds (cancelReservation st env id) ↔
     id < nextReservationId st ∧
     user r = msg_sender env ∧
     status r = Active ∧
     actualStartTime r = 0 ∧
     block_timestamp env < startTime r ∧
     totalCost r * 5 ≤ U256.MAX ∧
     totalPlatformEarnings st + penalty ≤ U256.MAX ∧
     accepts env (msg_sender env) = true ∧
     refund ≤ balance st) ∧
  (∀ st' effects,
     cancelReservation st env id = Ok (st', effects) →
     effects = [Transfer (msg_sender env) refund;
                Emit (ReservationCancelled id refund)] ∧
     status (reservation_at st' id) = Cancelled ∧
     totalPlatformEarnings st' = totalPlatformEarnings st + penalty ∧
     balance st' = balance st - refund) ∧
  (¬ succeeds (cancelReservation st env id) →
     (∃ e, cancelReservation st env id = Revert e) ∧
     ∀ log, exec1 (st, log) (env, CancelReservation id) = (st, log)).
Proof.
  cbv zeta. split; [|split].
  - split.
    + intros [[st' effects] H]. by apply cancelReservation_Ok in H as [H _].
    + intros Hc. eexists (_, _). apply cancelReservation_Ok.
      split; [exact Hc|]. cbv zeta. split; reflexivity.
  - intros st' effects H. apply cancelReservation_Ok in H as (_ & -> & ->).
    rewrite reservation_at_settled. done.
  - intros Hfail.
    destruct (cancelReservation st env id) as [out|e] eqn:H.
    + destruct Hfail. by exists out.
    + split; [by exists e|]. intros log. unfold exec1. simpl. by rewrite H.
Qed.

Lemma cancel_precondition_witness :
  let st := (exec (deployed 1 2) booked_run).1 in
  succeeds (cancelReservation st (everyone 7 5) 1).
Proof.
  cbv zeta.
  apply (proj1 (cancel_precondition (exec (deployed 1 2) booked_run).1
                  (everyone 7 5) 1)).
  by vm_compute.
Defined.

End ParkingSystemFacts.

Module ParkingOracleFacts.
Import ParkingOracle U256Facts.

Lemma oracle_checked_Ok o n : checked o = Ok n ↔ o = Some n.
Proof. destruct o; simpl; split; congruence. Qed.

Ltac bind_step H :=
  let a := fresh "v" in
  let Ha := fresh "Hv" in
  apply bind_Ok in H as (a & Ha & H);
  first
    [ apply require_Ok in Ha
    | apply oracle_checked_Ok in Ha;
      first [ apply add_Some in Ha as [-> Ha]
            | apply sub_Some in Ha as [-> Ha]
            | apply mul_Some in Ha as [-> Ha] ]
    | idtac ];
  cbv beta zeta in H.

Ltac bind_steps H := repeat bind_step H.

Ltac fields :=
  cbn [spotId isOccupied confidence timestamp sensorType dataHash
       nodeAddress isActive reputation totalUpdates lastUpdate nodeId
       oracleNodes latestSensorData sensorHistory processedDataHashes
       activeOracles parkingSystemContract owner paused
       write_node write_latest write_history mark_processed
       set_activeOracles set_parkingSystemContract set_owner set_paused
       node_set_isActive node_set_reputation node_set_totalUpdates
       node_set_lastUpdate fst snd].
Ltac fields_in H :=
  cbn [spotId isOccupied confidence timestamp sensorType dataHash
       nodeAddress isActive reputation totalUpdates lastUpdate nodeId
       oracleNodes latestSensorData sensorHistory processedDataHashes
       activeOracles parkingSystemContract owner paused
       write_node write_latest write_history mark_processed
       set_activeOracles set_parkingSystemContract set_owner set_paused
       node_set_isActive node_set_reputation node_set_totalUpdates
       node_set_lastUpdate fst snd] in H.

(** *** Reading the node table after a write *)

Lemma node_at_write a n st b :
  node_at (write_node a n st) b = if decide (a = b) then n else node_at st b.
Proof.
  unfold node_at. fields. case_decide as Hab.
  - subst. by rewrite lookup_insert_eq.
  - by rewrite lookup_insert_ne.
Qed.

Lemma node_at_write_eq a n st : node_at (write_node a n st) a = n.
Proof. rewrite node_at_write. by case_decide. Qed.

(** *** Reward and penalty *)

Lemma rewardOracle_node st a b :
  node_at (_rewardOracle st a) b
  = if decide (a = b)
    then node_set_reputation
           (if reputation (node_at st a) <? 1000
            then reputation (node_at st a) + 1
            else reputation (node_at st a)) (node_at st a)
    else node_at st b.
Proof.
  unfold _rewardOracle. destruct (_ <? 1000) eqn:Hlt.
  - by rewrite node_at_write.
  - case_decide; [subst|done]. by destruct (node_at st b).
Qed.

Lemma rewardOracle_stores st a :
  latestSensorData (_rewardOracle st a) = latestSensorData st ∧
  sensorHistory (_rewardOracle st a) = sensorHistory st ∧
  processedDataHashes (_rewardOracle st a) = processedDataHashes st ∧
  paused (_rewardOracle st a) = paused st ∧
  owner (_rewardOracle st a) = owner st.
Proof. unfold _rewardOracle. by destruct (_ <? 1000). Qed.

Lemma penalizeOracle_node st a b :
  node_at (_penalizeOracle st a).1 b
  = if decide (a = b) then penalized (node_at st a) else node_at st b.
Proof.
  unfold _penalizeOracle, penalized. cbv zeta.
  destruct (10 <? reputation (node_at st a)) eqn:H10.
  - rewrite node_at_write_eq. fields.
    destruct (_ <? 100); cbn [fst]; rewrite !node_at_write;
      case_decide; done.
  - destruct (_ <? 100); cbn [fst]; rewrite ?node_at_write;
      case_decide; subst; try done.
    by destruct (node_at st b).
Qed.

Lemma penalizeOracle_stores st a :
  latestSensorData (_penalizeOracle st a).1 = latestSensorData st ∧
  sensorHistory (_penalizeOracle st a).1 = sensorHistory st ∧
  processedDataHashes (_penalizeOracle st a).1 = processedDataHashes st ∧
  paused (_penalizeOracle st a).1 = paused st ∧
  owner (_penalizeOracle st a).1 = owner st.
Proof.
  unfold _penalizeOracle. cbv zeta.
  destruct (10 <? _); destruct (_ <? 100); done.
Qed.

(** *** [updateSensorData], case by case *)

Lemma validateSensorData_after_guards st env _spotId _isOccupied _confidence
    _sensorType :
  timestamp (latest_at st _spotId) + UPDATE_COOLDOWN ≤ block_timestamp env →
  MIN_CONFIDENCE ≤ _confidence →
  _validateSensorData st env _spotId _isOccupied _confidence _sensorType
  = Ok (negb (semantically_rejected st _spotId _isOccupied _confidence)).
Proof.
  unfold UPDATE_COOLDOWN, MIN_CONFIDENCE. intros Hcool Hconf.
  unfold _validateSensorData, semantically_rejected, MIN_CONFIDENCE.
  rewrite (proj2 (N.ltb_ge _ _) Hconf). cbn [orb].
  destruct (100 <? _confidence); [done|]. cbn [orb].
  destruct (0 <? timestamp _); [|done]. cbn [andb].
  destruct (negb _ && _); [done|].
  unfold U256.sub, UPDATE_COOLDOWN.
  rewrite (proj2 (N.leb_le (timestamp (latest_at st _spotId))
                    (block_timestamp env))) by lia.
  cbn [checked mbind result_bind].
  by rewrite (proj2 (N.ltb_ge _ _)) by lia.
Qed.

Lemma notifyParkingSystem_id st _spotId _isOccupied :
  _notifyParkingSystem st _spotId _isOccupied = st.
Proof. unfold _notifyParkingSystem. by destruct (negb _). Qed.

Lemma updateSensorData_Ok st env _spotId _isOccupied _confidence _sensorType
    _dataHash st' events :
  updateSensorData st env _spotId _isOccupied _confidence _sensorType
    _dataHash = Ok (st', events) →
  guards_pass st env _spotId _confidence _sensorType _dataHash ∧
  if semantically_rejected st _spotId _isOccupied _confidence
  then st' = (_penalizeOracle st (msg_sender env)).1 ∧
       events = DataValidationFailed (msg_sender env) _spotId
                  "Validation échouée"
                :: (_penalizeOracle st (msg_sender env)).2
  else ∃ hist,
         pushHistory (history_at st _spotId)
           (mkSensorData _spotId _isOccupied _confidence
              (block_timestamp env) _sensorType _dataHash) = Ok hist ∧
         totalUpdates (node_at st (msg_sender env)) + 1 ≤ U256.MAX ∧
         st' = accepted st env _spotId _isOccupied _confidence _sensorType
                 _dataHash hist ∧
         events = [SensorDataUpdated _spotId _isOccupied _confidence
                     (msg_sender env) _sensorType].
Proof.
  intros H. unfold updateSensorData in H. do 4 bind_step H.
  unfold cooldownPassed in Hv2. bind_steps Hv2. apply require_Ok in Hv2.
  do 4 bind_step H.
  apply negb_true_iff in Hv0. apply N.ltb_lt in Hv1. apply N.leb_le in Hv2.
  apply N.leb_le in Hv4. apply negb_true_iff, bool_decide_eq_false in Hv5.
  apply Nat.ltb_lt in Hv6.
  rewrite validateSensorData_after_guards in Hv7 by done.
  injection Hv7 as <-. rewrite negb_involutive in H.
  split; [done|].
  destruct (semantically_rejected _ _ _ _).
  - destruct (_penalizeOracle st (msg_sender env)) as [st1 ev1].
    by injection H as <- <-.
  - bind_steps H. fields_in H.
    rewrite notifyParkingSystem_id in H.
    match goal with Hp : pushHistory _ _ = Ok ?h |- _ => exists h end.
    split; [done|]. split; [done|].
    destruct (_shouldNotifyParkingSystem _ _ _);
      injection H as <- <-; done.
Qed.

(** Run [updateSensorData] through its four modifiers. *)
Ltac pass_modifiers Hact Hp Hspot Hmax Hcool :=
  unfold updateSensorData, onlyAuthorizedOracle, whenNotPaused, validSpotId,
    cooldownPassed, U256.add;
  rewrite Hact, Hp, (proj2 (N.ltb_lt _ _) Hspot),
    (proj2 (N.leb_le _ _) Hmax);
  cbn [require negb mbind result_bind checked];
  rewrite (proj2 (N.leb_le _ _) Hcool);
  cbn [require mbind result_bind].

Lemma updateSensorData_inactive st env _spotId _isOccupied _confidence
    _sensorType _dataHash :
  isActive (node_at st (msg_sender env)) = false →
  updateSensorData st env _spotId _isOccupied _confidence _sensorType
    _dataHash = Revert OracleNotAuthorized.
Proof.
  intros Hact. unfold updateSensorData, onlyAuthorizedOracle.
  by rewrite Hact.
Qed.

Lemma updateSensorData_low_confidence st env _spotId _isOccupied _confidence
    _sensorType _dataHash :
  isActive (node_at st (msg_sender env)) = true →
  paused st = false →
  0 < _spotId →
  timestamp (latest_at st _spotId) + UPDATE_COOLDOWN ≤ U256.MAX →
  timestamp (latest_at st _spotId) + UPDATE_COOLDOWN ≤ block_timestamp env →
  _confidence < MIN_CONFIDENCE →
  updateSensorData st env _spotId _isOccupied _confidence _sensorType
    _dataHash = Revert InsufficientConfidence.
Proof.
  intros Hact Hp Hspot Hmax Hcool Hconf.
  pass_modifiers Hact Hp Hspot Hmax Hcool.
  by rewrite (proj2 (N.leb_gt _ _) Hconf).
Qed.


Lemma updateSensorData_soft st env _spotId _isOccupied _confidence
    _sensorType _dataHash :
  guards_pass st env _spotId _confidence _sensorType _dataHash →
  semantically_rejected st _spotId _isOccupied _confidence = true →
  updateSensorData st env _spotId _isOccupied _confidence _sensorType
    _dataHash
  = Ok ((_penalizeOracle st (msg_sender env)).1,
        DataValidationFailed (msg_sender env) _spotId "Validation échouée"
        :: (_penalizeOracle st (msg_sender env)).2).
Proof.
  intros (Hact & Hp & Hspot & Hmax & Hcool & Hconf & Hfresh & Hty) Hrej.
  pose proof (validateSensorData_after_guards st env _spotId _isOccupied
                _confidence _sensorType Hcool Hconf) as Hval.
  pass_modifiers Hact Hp Hspot Hmax Hcool.
  rewrite (proj2 (N.leb_le _ _) Hconf). cbn [require mbind result_bind].
  rewrite (bool_decide_eq_false_2 _ Hfresh).
  rewrite (proj2 (Nat.ltb_lt _ _) Hty).
  cbn [require negb mbind result_bind].
  rewrite Hval, Hrej. cbn [negb mbind result_bind].
  by destruct (_penalizeOracle st (msg_sender env)).
Qed.

(** *** What every call does to the node table and to the hash set *)

Lemma accepted_node st env _spotId _isOccupied _confidence _sensorType
    _dataHash hist b :
  let st' := accepted st env _spotId _isOccupied _confidence _sensorType
               _dataHash hist in
  (b ≠ msg_sender env → node_at st' b = node_at st b) ∧
  isActive (node_at st' (msg_sender env))
  = isActive (node_at st (msg_sender env)) ∧
  reputation (node_at st' (msg_sender env))
  = (if reputation (node_at st (msg_sender env)) <? 1000
     then reputation (node_at st (msg_sender env)) + 1
     else reputation (node_at st (msg_sender env))).
Proof.
  cbv zeta. unfold accepted. rewrite !rewardOracle_node.
  rewrite !node_at_write_eq. fields. split; [|split].
  - intros Hne. case_decide; [congruence|]. rewrite node_at_write.
    by case_decide; [congruence|].
  - by case_decide.
  - by case_decide.
Qed.

Lemma accepted_processed st env _spotId _isOccupied _confidence _sensorType
    _dataHash hist :
  processedDataHashes
    (accepted st env _spotId _isOccupied _confidence _sensorType _dataHash
       hist)
  = {[_dataHash]} ∪ processedDataHashes st.
Proof.
  unfold accepted.
  by destruct (rewardOracle_stores
                 (write_node (msg_sender env)
                    (node_set_lastUpdate (block_timestamp env)
                       (node_set_totalUpdates
                          (totalUpdates (node_at st (msg_sender env)) + 1)
                          (node_at st (msg_sender env))))
                    (write_history _spotId hist
                       (mark_processed _dataHash
                          (write_latest _spotId
                             (mkSensorData _spotId _isOccupied _confidence
                                (block_timestamp env) _sensorType _dataHash)
                             st))))
                 (msg_sender env)) as (_ & _ & -> & _).
Qed.

Lemma penalized_reputation n :
  reputation (penalized n)
  = (if 10 <? reputation n then reputation n - 10 else reputation n).
Proof. done. Qed.

Lemma penalized_inactive n :
  reputation (penalized n) < 100 → isActive (penalized n) = false.
Proof.
  unfold penalized. fields. intros Hlt.
  by rewrite (proj2 (N.ltb_lt _ _) Hlt).
Qed.

Lemma penalized_keeps_inactive n :
  isActive n = false → isActive (penalized n) = false.
Proof. unfold penalized. fields. intros ->. by destruct (_ <? 100). Qed.

Lemma call_bounded st env c st' events :
  bounded st → call st env c = Ok (st', events) → bounded st'.
Proof.
  intros Hb H b. specialize (Hb b) as Hbb. destruct c; simpl in H.
  - unfold addOracleNode in H. bind_steps H. injection H as <- <-.
    change (reputation (node_at (write_node _nodeAddress
              (mkOracleNode _nodeAddress true 500 0 0 _nodeId) st) b) ≤ 1000).
    rewrite node_at_write. case_decide; [simpl; lia|done].
  - unfold removeOracleNode in H. bind_steps H. injection H as <- <-.
    change (reputation (node_at (write_node _nodeAddress
              (node_set_isActive false (node_at st _nodeAddress)) st) b)
            ≤ 1000).
    rewrite node_at_write. case_decide; [subst; by fields|done].
  - apply updateSensorData_Ok in H as [_ H].
    destruct (semantically_rejected _ _ _ _).
    + destruct H as [-> _]. rewrite penalizeOracle_node.
      case_decide; [subst|done]. rewrite penalized_reputation.
      destruct (10 <? _); lia.
    + destruct H as (hist & _ & _ & -> & _).
      destruct (accepted_node st env _spotId _isOccupied _confidence
                  _sensorType _dataHash hist b) as (Hne & _ & Hrep).
      destruct (decide (b = msg_sender env)) as [->|Hb'].
      * rewrite Hrep. destruct (_ <? 1000) eqn:Hlt; [|done].
        apply N.ltb_lt in Hlt. lia.
      * by rewrite Hne.
  - unfold updateParkingSystemContract in H. bind_steps H.
    by injection H as <- <-.
  - unfold updateOracleReputation in H. bind_steps H. injection H as <- <-.
    rewrite node_at_write. case_decide; [|done]. fields.
    by apply N.leb_le.
  - unfold pause in H. bind_steps H. by injection H as <- <-.
  - unfold unpause in H. bind_steps H. by injection H as <- <-.
  - unfold transferOwnership in H. bind_steps H. by injection H as <- <-.
  - unfold renounceOwnership in H. bind_steps H. by injection H as <- <-.
Qed.

(** A call that is not the owner registering [a] again leaves an inactive
    [a] inactive. *)
Lemma call_keeps_inactive st env c st' events a :
  isActive (node_at st a) = false → ¬ registers a c →
  call st env c = Ok (st', events) → isActive (node_at st' a) = false.
Proof.
  intros Hin Hreg H. destruct c; simpl in H.
  - unfold addOracleNode in H. bind_steps H. injection H as <- <-.
    change (isActive (node_at (write_node _nodeAddress
              (mkOracleNode _nodeAddress true 500 0 0 _nodeId) st) a)
            = false).
    rewrite node_at_write. case_decide; [subst|done].
    destruct Hreg. by exists _nodeId.
  - unfold removeOracleNode in H. bind_steps H. injection H as <- <-.
    change (isActive (node_at (write_node _nodeAddress
              (node_set_isActive false (node_at st _nodeAddress)) st) a)
            = false).
    rewrite node_at_write. by case_decide.
  - apply updateSensorData_Ok in H as [_ H].
    destruct (semantically_rejected _ _ _ _).
    + destruct H as [-> _]. rewrite penalizeOracle_node.
      case_decide; [subst|done]. by apply penalized_keeps_inactive.
    + destruct H as (hist & _ & _ & -> & _).
      destruct (accepted_node st env _spotId _isOccupied _confidence
                  _sensorType _dataHash hist a) as (Hne & Hact & _).
      destruct (decide (a = msg_sender env)) as [->|Hb'].
      * by rewrite Hact.
      * by rewrite Hne.
  - unfold updateParkingSystemContract in H. bind_steps H.
    by injection H as <- <-.
  - unfold updateOracleReputation in H. bind_steps H. injection H as <- <-.
    rewrite node_at_write. case_decide; [subst|done]. by fields.
  - unfold pause in H. bind_steps H. by injection H as <- <-.
  - unfold unpause in H. bind_steps H. by injection H as <- <-.
  - unfold transferOwnership in H. bind_steps H. by injection H as <- <-.
  - unfold renounceOwnership in H. bind_steps H. by injection H as <- <-.
Qed.


(** *** Executions *)

Lemma exec_ind (P : State → Prop) :
  (∀ st env c st' events,
     P st → call st env c = Ok (st', events) → P st') →
  ∀ txs st, P st → P (exec st txs).
Proof.
  intros Hstep txs. induction txs as [|[env c] txs IH]; intros st HP; [done|].
  simpl. apply IH. unfold exec1. simpl.
  destruct (call st env c) as [[st' events]|e] eqn:Hcall; [|done].
  by eapply Hstep.
Qed.

Lemma reachable_bounded st : reachable st → bounded st.
Proof.
  intros (deployer & parking & txs & <-).
  apply exec_ind; [intros; by eapply call_bounded|].
  intros a. unfold node_at, deployed. simpl. by rewrite lookup_empty.
Qed.

Lemma exec_keeps_inactive a txs : ∀ st,
  isActive (node_at st a) = false →
  Forall (λ tx : Tx, ¬ registers a tx.2) txs →
  isActive (node_at (exec st txs) a) = false.
Proof.
  induction txs as [|[env c] txs IH]; intros st Hin Hall; [done|].
  apply Forall_cons in Hall as [Hc Hall]. simpl. apply IH; [|done].
  unfold exec1. simpl.
  destruct (call st env c) as [[st' events]|e] eqn:Hcall; [|done].
  by eapply call_keeps_inactive.
Qed.


(** *** C5: reputation bounds and auto-deactivation *)

(** C5, as stated, fails: a node deactivated by a penalty (reputation 96)
    is refused, but once the owner registers it again with [addOracleNode]
    it is active with reputation 500 and its next reading is accepted. *)
Lemma deactivated_node_is_readmitted :
  let st0 := exec (deployed 1 2) penalty_due_run in
  let st := exec1 st0 (mkEnv 5 200, UpdateSensorData 1 false 75 "fusion" 2) in
  let st' := exec1 st (mkEnv 1 250, AddOracleNode 5 "n5") in
  reachable (exec (deployed 1 2) readmitted_run) ∧
  isActive (node_at st0 5) = true ∧ reputation (node_at st0 5) = 106 ∧
  st = exec (deployed 1 2) deactivated_run ∧
  reputation (node_at st 5) = 96 ∧ isActive (node_at st 5) = false ∧
  updateSensorData st (mkEnv 5 240) 1 true 95 "fusion" 3
  = Revert OracleNotAuthorized ∧
  st' = exec (deployed 1 2) readmitted_run ∧
  isActive (node_at st' 5) = true ∧ reputation (node_at st' 5) = 500 ∧
  updateSensorData st' (mkEnv 5 300) 1 true 95 "fusion" 3
  = Ok (exec1 st' (mkEnv 5 300, UpdateSensorData 1 true 95 "fusion" 3),
        [SensorDataUpdated 1 true 95 5 "fusion"]).
Proof.
  cbv zeta. split; [by exists 1, 2, readmitted_run|].
  split_and!; vm_compute; reflexivity.
Qed.

(** C5 (amended): in every reachable state each node's reputation is at
    most 1000; a reward adds 1 below 1000 and nothing at 1000; a penalty
    subtracts 10 above 10 and nothing otherwise, so a positive reputation
    stays positive; a penalty that leaves the reputation below 100 marks the
    node inactive; a reading submitted by an inactive node is refused with
    "Oracle non autorise"; and a node stays inactive, its readings refused,
    through every sequence of calls in which the owner does not register it
    again with [addOracleNode]. *)
Theorem reputation_bounds_and_deactivation :
  (∀ st a, reachable st → 0 ≤ reputation (node_at st a) ≤ 1000) ∧
  (∀ st a,
     let r := reputation (node_at st a) in
     reputation (node_at (_rewardOracle st a) a)
     = if r <? 1000 then r + 1 else r) ∧
  (∀ st a,
     let r := reputation (node_at st a) in
     let st' := (_penalizeOracle st a).1 in
     reputation (node_at st' a) = (if 10 <? r then r - 10 else r) ∧
     (0 < r → 0 < reputation (node_at st' a)) ∧
     (reputation (node_at st' a) < 100 → isActive (node_at st' a) = false)) ∧
  (∀ st env _oracle _newReputation st' events,
     updateOracleReputation st env _oracle _newReputation
     = Ok (st', events) →
     reputation (node_at st' _oracle) = _newReputation ∧
     _newReputation ≤ 1000) ∧
  (∀ st a txs env _spotId _isOccupied _confidence _sensorType _dataHash,
     isActive (node_at st a) = false →
     Forall (λ tx : Tx, ¬ registers a tx.2) txs →
     msg_sender env = a →
     updateSensorData (exec st txs) env _spotId _isOccupied _confidence
       _sensorType _dataHash = Revert OracleNotAuthorized).
Proof.
  split; [|split; [|split; [|split]]].
  - intros st a Hreach. split; [lia|]. by apply reachable_bounded.
  - intros st a. cbv zeta. rewrite rewardOracle_node.
    case_decide; [|done]. by fields.
  - intros st a. cbv zeta. rewrite penalizeOracle_node.
    case_decide; [|done]. split; [|split].
    + apply penalized_reputation.
    + rewrite penalized_reputation. destruct (10 <? _) eqn:H10; [|done].
      apply N.ltb_lt in H10. lia.
    + apply penalized_inactive.
  - intros st env _oracle _newReputation st' events H.
    unfold updateOracleReputation in H. bind_steps H. injection H as <- <-.
    rewrite node_at_write_eq. fields. split; [done|]. by apply N.leb_le.
  - intros st a txs env _spotId _isOccupied _confidence _sensorType
      _dataHash Hin Hall <-.
    apply updateSensorData_inactive. by apply exec_keeps_inactive.
Qed.

(** *** C6: replay protection *)



(** *** An earlier reading exists exactly when the timestamp is not 0 *)

Lemma accepted_latest st env _spotId _isOccupied _confidence _sensorType
    _dataHash hist :
  latestSensorData
    (accepted st env _spotId _isOccupied _confidence _sensorType _dataHash
       hist)
  = <[_spotId := mkSensorData _spotId _isOccupied _confidence
                   (block_timestamp env) _sensorType _dataHash]>
      (latestSensorData st).
Proof.
  unfold accepted.
  by destruct (rewardOracle_stores
                 (write_node (msg_sender env)
                    (node_set_lastUpdate (block_timestamp env)
                       (node_set_totalUpdates
                          (totalUpdates (node_at st (msg_sender env)) + 1)
                          (node_at st (msg_sender env))))
                    (write_history _spotId hist
                       (mark_processed _dataHash
                          (write_latest _spotId
                             (mkSensorData _spotId _isOccupied _confidence
                                (block_timestamp env) _sensorType _dataHash)
                             st))))
                 (msg_sender env)) as (-> & _).
Qed.

Lemma call_latest st env c st' events :
  (∀ k d, latestSensorData st !! k = Some d → UPDATE_COOLDOWN ≤ timestamp d) →
  call st env c = Ok (st', events) →
  ∀ k d, latestSensorData st' !! k = Some d → UPDATE_COOLDOWN ≤ timestamp d.
Proof.
  intros Hst H. destruct c; simpl in H.
  - unfold addOracleNode in H. bind_steps H. by injection H as <- <-.
  - unfold removeOracleNode in H. bind_steps H. by injection H as <- <-.
  - apply updateSensorData_Ok in H as [Hg H].
    destruct (semantically_rejected _ _ _ _).
    + destruct H as [-> _].
      by destruct (penalizeOracle_stores st (msg_sender env)) as (-> & _).
    + destruct H as (hist & _ & _ & -> & _). rewrite accepted_latest.
      intros k d Hl. destruct (decide (_spotId = k)) as [<-|Hne].
      * rewrite lookup_insert_eq in Hl. injection Hl as <-. fields.
        destruct Hg as (_ & _ & _ & _ & Hcool & _). lia.
      * rewrite lookup_insert_ne in Hl by done. eauto.
  - unfold updateParkingSystemContract in H. bind_steps H.
    by injection H as <- <-.
  - unfold updateOracleReputation in H. bind_steps H.
    by injection H as <- <-.
  - unfold pause in H. bind_steps H. by injection H as <- <-.
  - unfold unpause in H. bind_steps H. by injection H as <- <-.
  - unfold transferOwnership in H. bind_steps H. by injection H as <- <-.
  - unfold renounceOwnership in H. bind_steps H. by injection H as <- <-.
Qed.

(** In a reachable state the test [lastData.timestamp > 0] of
    [_validateSensorData] holds exactly for the spots that have a stored
    reading. *)
Lemma prior_reading_iff_timestamp st k :
  reachable st →
  0 < timestamp (latest_at st k) ↔ is_Some (latestSensorData st !! k).
Proof.
  intros (deployer & parking & txs & <-).
  assert (Hall : ∀ k d,
            latestSensorData (exec (deployed deployer parking) txs) !! k
            = Some d → UPDATE_COOLDOWN ≤ timestamp d).
  { apply (exec_ind (λ s, ∀ k d, latestSensorData s !! k = Some d →
                                 UPDATE_COOLDOWN ≤ timestamp d)).
    - intros. by eapply call_latest.
    - intros k' d Hl. simpl in Hl. by rewrite lookup_empty in Hl. }
  unfold latest_at.
  destruct (latestSensorData _ !! k) as [d|] eqn:Hl; simpl.
  - apply Hall in Hl. unfold UPDATE_COOLDOWN in Hl. split; [eauto|lia].
  - split; [lia|]. by intros [? [=]].
Qed.

(** *** C7: soft semantic rejection *)

(** C7: when a call passes every guard, an earlier reading is recorded for
    the spot (its timestamp is not 0), the occupancy flag differs from the
    recorded one and the confidence is below 80, the call returns normally,
    emits [DataValidationFailed], penalizes the reporter, and leaves the
    latest readings, the histories and the processed hashes as they
    were. *)
Theorem soft_semantic_rejection st env _spotId _isOccupied _confidence
    _sensorType _dataHash :
  isActive (node_at st (msg_sender env)) = true →
  paused st = false →
  0 < _spotId →
  block_timestamp env ≤ U256.MAX →
  timestamp (latest_at st _spotId) + UPDATE_COOLDOWN ≤ block_timestamp env →
  MIN_CONFIDENCE ≤ _confidence →
  _dataHash ∉ processedDataHashes st →
  _sensorType ≠ "" →
  0 < timestamp (latest_at st _spotId) →
  isOccupied (latest_at st _spotId) ≠ _isOccupied →
  _confidence < 80 →
  ∃ st' events,
    updateSensorData st env _spotId _isOccupied _confidence _sensorType
      _dataHash = Ok (st', events) ∧
    DataValidationFailed (msg_sender env) _spotId "Validation échouée"
      ∈ events ∧
    (st', events) =
      ((_penalizeOracle st (msg_sender env)).1,
       DataValidationFailed (msg_sender env) _spotId "Validation échouée"
       :: (_penalizeOracle st (msg_sender env)).2) ∧
    reputation (node_at st' (msg_sender env))
    = (if 10 <? reputation (node_at st (msg_sender env))
       then reputation (node_at st (msg_sender env)) - 10
       else reputation (node_at st (msg_sender env))) ∧
    latestSensorData st' = latestSensorData st ∧
    sensorHistory st' = sensorHistory st ∧
    processedDataHashes st' = processedDataHashes st.
Proof.
  intros Hact Hp Hspot Hmax Hcool Hconf Hfresh Hty Hprior Hflip Hlow.
  eexists _, _. split.
  - apply updateSensorData_soft.
    + repeat split; try done; [lia|].
      destruct _sensorType; [done|simpl; lia].
    + unfold semantically_rejected.
      rewrite (proj2 (N.ltb_lt _ _) Hprior), (proj2 (N.ltb_lt _ _) Hlow).
      rewrite (proj2 (eqb_false_iff _ _) Hflip). apply orb_true_r.
  - split; [apply list_elem_of_here|]. split; [done|].
    rewrite penalizeOracle_node.
    destruct (penalizeOracle_stores st (msg_sender env))
      as (-> & -> & -> & _).
    by case_decide.
Qed.

(** *** C8: the confidence range *)

(** C8, as stated, fails: a confidence of 101 from an active node, with a
    fresh hash, is not refused by a guard: the call returns normally with
    [DataValidationFailed] and the reporter loses 10 points of
    reputation. *)
Lemma confidence_above_100_is_soft :
  let st := exec (deployed 1 2) registered_run in
  let env := mkEnv 5 100 in
  reputation (node_at st 5) = 500 ∧
  ∃ st',
    updateSensorData st env 1 true 101 "fusion" 13
    = Ok (st', [DataValidationFailed 5 1 "Validation échouée"]) ∧
    reputation (node_at st' 5) = 490.
Proof. cbv zeta. split; [by vm_compute|]. eexists. by vm_compute. Qed.

(** C8 (amended): after the modifiers, a confidence below 70 is refused by
    a guard, "Confiance insuffisante": the call reverts, nothing changes
    and nobody is penalized. A confidence above 100 passes that guard and,
    with a fresh hash and a sensor type, is rejected softly: the call
    returns normally, emits [DataValidationFailed], penalizes the reporter
    and stores nothing. *)
Theorem confidence_guard st env _spotId _isOccupied _confidence
    _sensorType _dataHash :
  isActive (node_at st (msg_sender env)) = true →
  paused st = false →
  0 < _spotId →
  block_timestamp env ≤ U256.MAX →
  timestamp (latest_at st _spotId) + UPDATE_COOLDOWN ≤ block_timestamp env →
  let tx := (env, UpdateSensorData _spotId _isOccupied _confidence
                    _sensorType _dataHash) in
  (_confidence < MIN_CONFIDENCE →
     updateSensorData st env _spotId _isOccupied _confidence _sensorType
       _dataHash = Revert InsufficientConfidence ∧
     exec1 st tx = st) ∧
  (100 < _confidence →
     _dataHash ∉ processedDataHashes st →
     _sensorType ≠ "" →
     updateSensorData st env _spotId _isOccupied _confidence _sensorType
       _dataHash
     = Ok ((_penalizeOracle st (msg_sender env)).1,
           DataValidationFailed (msg_sender env) _spotId
             "Validation échouée"
           :: (_penalizeOracle st (msg_sender env)).2) ∧
     reputation (node_at (exec1 st tx) (msg_sender env))
     = (if 10 <? reputation (node_at st (msg_sender env))
        then reputation (node_at st (msg_sender env)) - 10
        else reputation (node_at st (msg_sender env))) ∧
     latestSensorData (exec1 st tx) = latestSensorData st ∧
     sensorHistory (exec1 st tx) = sensorHistory st ∧
     processedDataHashes (exec1 st tx) = processedDataHashes st).
Proof.
  intros Hact Hp Hspot Hnow Hcool. cbv zeta.
  assert (Hmax : timestamp (latest_at st _spotId) + UPDATE_COOLDOWN ≤ U256.MAX)
    by lia.
  split.
  - intros Hlow.
    pose proof (updateSensorData_low_confidence st env _spotId _isOccupied
                  _confidence _sensorType _dataHash Hact Hp Hspot Hmax Hcool
                  Hlow) as H.
    split; [done|]. unfold exec1. simpl. by rewrite H.
  - intros Hhigh Hfresh Hty.
    assert (H : updateSensorData st env _spotId _isOccupied _confidence
                  _sensorType _dataHash
                = Ok ((_penalizeOracle st (msg_sender env)).1,
                      DataValidationFailed (msg_sender env) _spotId
                        "Validation échouée"
                      :: (_penalizeOracle st (msg_sender env)).2)).
    { apply updateSensorData_soft.
      - repeat split; try done.
        + unfold MIN_CONFIDENCE. lia.
        + destruct _sensorType; [done|simpl; lia].
      - unfold semantically_rejected.
        by rewrite (proj2 (N.ltb_lt _ _) Hhigh). }
    split; [done|]. unfold exec1. simpl. rewrite H.
    rewrite penalizeOracle_node.
    destruct (penalizeOracle_stores st (msg_sender env))
      as (-> & -> & -> & _).
    by case_decide.
Qed.

Lemma soft_semantic_rejection_witness :
  let st := exec (deployed 1 2) (registered_run ++ readings 1) in
  ∃ st' events,
    updateSensorData st (mkEnv 5 200) 1 false 75 "fusion" 12
    = Ok (st', events) ∧
    reputation (node_at st 5) = 501 ∧
    reputation (node_at st' 5) = 491 ∧
    latestSensorData st' = latestSensorData st.
Proof.
  cbv zeta.
  destruct (soft_semantic_rejection
              (exec (deployed 1 2) (registered_run ++ readings 1))
              (mkEnv 5 200) 1 false 75 "fusion" 12
              ltac:(by vm_compute) ltac:(by vm_compute)
              ltac:(by vm_compute) ltac:(by vm_compute)
              ltac:(by vm_compute) ltac:(by vm_compute)
              ltac:(by vm_compute) ltac:(by vm_compute)
              ltac:(by vm_compute) ltac:(by vm_compute)
              ltac:(by vm_compute))
    as (st' & events & H & _ & _ & Hrep & Hlatest & _).
  exists st', events. split; [exact H|]. split; [by vm_compute|].
  split; [|exact Hlatest]. etrans; [exact Hrep|]. by vm_compute.
Defined.

Lemma confidence_guard_witness :
  let st := exec (deployed 1 2) registered_run in
  updateSensorData st (mkEnv 5 100) 1 true 69 "fusion" 13
  = Revert InsufficientConfidence ∧
  reputation
    (node_at (exec1 st (mkEnv 5 100,
                        UpdateSensorData 1 true 101 "fusion" 13)) 5) = 490.
Proof.
  cbv zeta. split.
  - apply (confidence_guard (exec (deployed 1 2) registered_run)
             (mkEnv 5 100) 1 true 69 "fusion" 13); by vm_compute.
  - destruct (confidence_guard (exec (deployed 1 2) registered_run)
                (mkEnv 5 100) 1 true 101 "fusion" 13
                ltac:(by vm_compute) ltac:(by vm_compute)
                ltac:(by vm_compute) ltac:(by vm_compute)
                ltac:(by vm_compute)) as [_ Hsoft].
    destruct (Hsoft ltac:(by vm_compute) ltac:(by vm_compute)
                ltac:(by vm_compute)) as (_ & Hrep & _).
    etrans; [exact Hrep|]. by vm_compute.
Defined.

Lemma reputation_bounds_and_deactivation_witness :
  let st := exec (deployed 1 2) deactivated_run in
  reputation (node_at st 5) = 96 ∧ isActive (node_at st 5) = false ∧
  0 ≤ reputation (node_at st 5) ≤ 1000 ∧
  updateSensorData
    (exec st [(mkEnv 1 250, UpdateOracleReputation 5 900);
              (mkEnv 1 260, Pause); (mkEnv 1 270, Unpause)])
    (mkEnv 5 300) 1 true 95 "fusion" 3
  = Revert OracleNotAuthorized.
Proof.
  cbv zeta. split; [by vm_compute|]. split; [by vm_compute|].
  destruct reputation_bounds_and_deactivation
    as (Hbound & _ & _ & _ & Hrefused).
  split.
  - apply Hbound. by exists 1, 2, deactivated_run.
  - apply (Hrefused _ 5); [by vm_compute| |done].
    repeat constructor; by intros [label [=]].
Defined.


(** *** C9: the bounded history *)

Lemma pushHistory_room h newData :
  (length h < MAX_HISTORY_SIZE)%nat → pushHistory h newData = Ok (h ++ [newData]).
Proof.
  intros Hlen. unfold pushHistory. cbv zeta.
  rewrite (proj2 (Nat.ltb_ge _ _)); [done|].
  rewrite length_app. simpl. lia.
Qed.

(** On a full history the loop copies the second entry over the first and
    the [pop] removes the entry that was just pushed. *)
Lemma pushHistory_full x0 x1 rest newData :
  length rest = 98%nat →
  pushHistory (x0 :: x1 :: rest) newData = Ok (x1 :: x1 :: rest).
Proof.
  intros Hlen. unfold pushHistory, MAX_HISTORY_SIZE. cbv zeta.
  assert (Hl : length ((x0 :: x1 :: rest) ++ [newData]) = 101%nat).
  { rewrite length_app. simpl. lia. }
  rewrite Hl. simpl. rewrite removelast_last.
  by destruct rest.
Qed.

(** C9 at the failing input: node 5 has filled the history of spot 1 with
    100 readings (hashes 1 to 100); its next reading (hash 101) is accepted
    and becomes the latest reading, but the history afterwards holds the
    hashes 2, 2, 3, ..., 100: the second-oldest entry twice, and not the
    new reading. *)
Theorem history_eviction_drops_new_reading :
  (∀ x0 x1 rest newData,
     length rest = 98%nat →
     pushHistory (x0 :: x1 :: rest) newData = Ok (x1 :: x1 :: rest)) ∧
  (let st := exec (deployed 1 2) (registered_run ++ readings 100) in
   let st' := exec1 st (mkEnv 5 10100,
                        UpdateSensorData 1 true 90 "fusion" 101) in
   map dataHash (history_at st 1) = map N.of_nat (seq 1 100) ∧
   dataHash (latest_at st' 1) = 101 ∧
   101 ∈ processedDataHashes st' ∧
   length (history_at st' 1) = 100%nat ∧
   map dataHash (history_at st' 1) = 2 :: 2 :: map N.of_nat (seq 3 98) ∧
   dataHash <$> last (history_at st' 1) = Some 100).
Proof.
  split; [apply pushHistory_full|].
  cbv zeta. repeat split; by vm_compute.
Qed.

End ParkingOracleFacts.


(** * Further properties of ParkingSystem *)

Module ParkingSystemExtras.
Import ParkingSystem U256Facts ParkingSystemFacts.

Ltac res_at :=
  unfold reservation_at; fields;
  repeat first [ rewrite lookup_insert_eq
               | rewrite lookup_insert_ne by (done || lia) ];
  cbn [default].

(** What a successful call does to the reservation stored under [id]:
    nothing, one step of its life cycle, or its creation. *)
Lemma call_reservation st env c st' effects id :
  call st env c = Ok (st', effects) →
  let r := reservation_at st id in
  let r' := reservation_at st' id in
  (r' = r ∧
   ∀ value _spotId _startTime _endTime,
     c = ReserveSpot value _spotId _startTime _endTime →
     id ≠ nextReservationId st) ∨
  (id < nextReservationId st ∧ status r = Active ∧
   ((c = StartReservation id ∧ actualStartTime r = 0 ∧
     r' = res_set_actualStartTime (block_timestamp env) r) ∨
    (c = CompleteReservation id ∧ 0 < actualStartTime r ∧
     actualStartTime r ≤ block_timestamp env ∧
     r' = res_set_status Completed
            (res_set_actualEndTime (block_timestamp env) r)) ∨
    (c = CancelReservation id ∧ actualStartTime r = 0 ∧
     r' = res_set_status Cancelled r))) ∨
  (id = nextReservationId st ∧
   ∃ value _spotId _startTime _endTime,
     c = ReserveSpot value _spotId _startTime _endTime ∧
     r' = mkReservation id (msg_sender env) _spotId _startTime _endTime
            ((_endTime - _startTime) * hourlyRate (spot_at st _spotId) / HOUR)
            value Active 0 0).
Proof.
  intros H. cbv zeta. destruct c; simpl in H.
  - unfold createParkingSpot in H. bind_steps H. injection H as <- <-.
    by left.
  - unfold reserveSpot in H. bind_steps H. fields_in H.
    destruct (decide (id = nextReservationId st)) as [->|Hne].
    + right. right. split; [done|].
      exists value, _spotId, _startTime, _endTime. split; [done|].
      destruct (_ <? value); bind_steps H; injection H as <- <-; by res_at.
    + destruct (_ <? value); bind_steps H; injection H as <- <-; left;
        (split; [by res_at|done]).
  - unfold startReservation in H. bind_steps H. injection H as <- <-.
    apply bool_decide_eq_true in Hv1. apply N.eqb_eq in Hv2.
    apply N.ltb_lt in Hv0.
    destruct (decide (_reservationId = id)) as [->|Hne].
    + right. left. split; [done|]. split; [done|]. left.
      split; [done|]. split; [done|]. by res_at.
    + left. split; [by res_at|done].
  - apply completeReservation_Ok in H
      as (_ & Hid & Hact & Hst & _ & Hle & _ & _ & -> & _).
    destruct (decide (_reservationId = id)) as [->|Hne].
    + right. left. split; [done|]. split; [done|]. right. left.
      split; [done|]. split; [done|]. split; [done|]. by res_at.
    + left. split; [by res_at|done].
  - apply cancelReservation_Ok in H
      as ((Hid & _ & Hact & Hns & _) & -> & _).
    destruct (decide (_reservationId = id)) as [->|Hne].
    + right. left. split; [done|]. split; [done|]. right. right.
      split; [done|]. split; [done|]. by res_at.
    + left. split; [by res_at|done].
  - unfold updatePlatformFee in H. bind_steps H. injection H as <- <-. by left.
  - unfold updateOracle in H. bind_steps H. injection H as <- <-. by left.
  - unfold withdrawPlatformEarnings in H. bind_steps H. injection H as <- <-.
    by left.
  - unfold pause in H. bind_steps H. injection H as <- <-. by left.
  - unfold unpause in H. bind_steps H. injection H as <- <-. by left.
  - unfold transferOwnership in H. bind_steps H. injection H as <- <-. by left.
  - unfold renounceOwnership in H. bind_steps H. injection H as <- <-. by left.
Qed.

Lemma call_counters st env c st' effects :
  call st env c = Ok (st', effects) →
  nextReservationId st ≤ nextReservationId st' ∧
  nextSpotId st ≤ nextSpotId st'.
Proof.
  intros H. destruct c; simpl in H.
  - unfold createParkingSpot in H. bind_steps H. injection H as <- <-.
    fields. lia.
  - unfold reserveSpot in H. bind_steps H. fields_in H.
    destruct (_ <? value); bind_steps H; injection H as <- <-; fields; lia.
  - unfold startReservation in H. bind_steps H. by injection H as <- <-.
  - by apply completeReservation_Ok in H
      as (_ & _ & _ & _ & _ & _ & _ & _ & -> & _).
  - by apply cancelReservation_Ok in H as (_ & -> & _).
  - unfold updatePlatformFee in H. bind_steps H. by injection H as <- <-.
  - unfold updateOracle in H. bind_steps H. by injection H as <- <-.
  - unfold withdrawPlatformEarnings in H. bind_steps H.
    by injection H as <- <-.
  - unfold pause in H. bind_steps H. by injection H as <- <-.
  - unfold unpause in H. bind_steps H. by injection H as <- <-.
  - unfold transferOwnership in H. bind_steps H. by injection H as <- <-.
  - unfold renounceOwnership in H. bind_steps H. by injection H as <- <-.
Qed.

(** Induction over an execution, for a property of the state alone. *)
Lemma exec_state_ind (P : State → Prop) :
  (∀ st env c st' effects,
     P st → call st env c = Ok (st', effects) → P st') →
  ∀ txs st log, P st → P (foldl exec1 (st, log) txs).1.
Proof.
  intros Hstep txs. induction txs as [|[env c] txs IH]; intros st log HP;
    [done|].
  simpl. unfold exec1 at 2. cbn [fst snd].
  destruct (call st env c) as [[st' effects]|e] eqn:Hcall; [|by apply IH].
  apply IH. by eapply Hstep.
Qed.

Lemma exec_reservation st txs id :
  id < nextReservationId st →
  let r := reservation_at st id in
  let r' := reservation_at (exec st txs).1 id in
  nextReservationId st ≤ nextReservationId (exec st txs).1 ∧
  booking r' = booking r ∧
  (actualStartTime r ≠ 0 → actualStartTime r' = actualStartTime r) ∧
  (status r ≠ Active → r' = r).
Proof.
  intros Hid. cbv zeta.
  pose (P := λ s : State,
    nextReservationId st ≤ nextReservationId s ∧
    booking (reservation_at s id) = booking (reservation_at st id) ∧
    (actualStartTime (reservation_at st id) ≠ 0 →
     actualStartTime (reservation_at s id)
     = actualStartTime (reservation_at st id)) ∧
    (status (reservation_at st id) ≠ Active →
     reservation_at s id = reservation_at st id)).
  assert (HP : P (exec st txs).1); [|done].
  apply (exec_state_ind P); [|by repeat split].
  intros s env c s' effects (Hle & Hb & Hs & Ht) Hcall.
  destruct (call_counters _ _ _ _ _ Hcall) as [Hle' _].
  split; [lia|].
  destruct (call_reservation _ _ _ _ _ id Hcall)
    as [[-> _] | [(_ & Hact & Hstep) | (-> & _)]]; [done| |lia].
  assert (Hfin : status (reservation_at st id) ≠ Active →
                 reservation_at s' id = reservation_at st id).
  { intros Hna. specialize (Ht Hna). congruence. }
  split; [|split; [|done]].
  - destruct Hstep as [(_ & _ & ->) | [(_ & _ & _ & ->) | (_ & _ & ->)]];
      done.
  - intros Hne. specialize (Hs Hne).
    destruct Hstep as [(_ & H0 & ->) | [(_ & _ & _ & ->) | (_ & _ & ->)]];
      fields; congruence.
Qed.

(** X1: the booking is final. Whatever is executed afterwards, a reservation
    keeps its identifier, requester, spot, window, cost and paid amount, and
    an actual start time, once set, is never changed. *)
Theorem booking_is_final st txs id :
  id < nextReservationId st →
  let r := reservation_at st id in
  let r' := reservation_at (exec st txs).1 id in
  reservationId r' = reservationId r ∧ user r' = user r ∧
  resSpotId r' = resSpotId r ∧
  startTime r' = startTime r ∧ endTime r' = endTime r ∧
  totalCost r' = totalCost r ∧ paidAmount r' = paidAmount r ∧
  (actualStartTime r ≠ 0 → actualStartTime r' = actualStartTime r).
Proof.
  intros Hid. cbv zeta.
  destruct (exec_reservation st txs id Hid) as (_ & Hb & Hs & _).
  unfold booking in Hb. injection Hb as -> -> -> -> -> -> ->. done.
Qed.

Lemma booking_is_final_witness :
  let st := (exec (deployed 1 2) started_run).1 in
  let st' := (exec st [(everyone 2 11800, CompleteReservation 1);
                       (everyone 8 11900, ReserveSpot 500 1 20000 23600)]).1 in
  status (reservation_at st' 1) = Completed ∧
  user (reservation_at st' 1) = 7 ∧ totalCost (reservation_at st' 1) = 100 ∧
  actualStartTime (reservation_at st' 1) = 10000.
Proof.
  cbv zeta. split; [by vm_compute|].
  destruct (booking_is_final (exec (deployed 1 2) started_run).1
              [(everyone 2 11800, CompleteReservation 1);
               (everyone 8 11900, ReserveSpot 500 1 20000 23600)] 1
              ltac:(by vm_compute))
    as (_ & Hu & _ & _ & _ & Hc & _ & Hs).
  split; [etrans; [exact Hu|by vm_compute]|].
  split; [etrans; [exact Hc|by vm_compute]|].
  etrans; [apply Hs; by vm_compute|by vm_compute].
Defined.

(** X2: Completed and Cancelled are final. A reservation that is no longer
    Active is never modified again, whatever is executed afterwards. *)
Theorem terminal_is_final st txs id :
  id < nextReservationId st →
  status (reservation_at st id) ≠ Active →
  reservation_at (exec st txs).1 id = reservation_at st id.
Proof.
  intros Hid Hna.
  destruct (exec_reservation st txs id Hid) as (_ & _ & _ & H). by apply H.
Qed.

Lemma terminal_is_final_witness :
  let st := (exec (deployed 1 2) cancelled_run).1 in
  reservation_at
    (exec st [(everyone 2 6, StartReservation 1);
              (everyone 7 7, CancelReservation 1);
              (everyone 2 8, CompleteReservation 1)]).1 1
  = reservation_at st 1.
Proof.
  cbv zeta. apply terminal_is_final; by vm_compute.
Defined.

(** X3: a started reservation can never be cancelled: once the actual start
    time is set, [cancelReservation] fails for every caller, at every later
    point of the execution. *)
Theorem started_never_cancelled st txs env id :
  id < nextReservationId st →
  actualStartTime (reservation_at st id) ≠ 0 →
  ¬ succeeds (cancelReservation (exec st txs).1 env id).
Proof.
  intros Hid Hst [[st' effects] H].
  apply cancelReservation_Ok in H as ((_ & _ & _ & H0 & _) & _).
  destruct (exec_reservation st txs id Hid) as (_ & _ & Hs & _).
  rewrite (Hs Hst) in H0. done.
Qed.

Lemma started_never_cancelled_witness :
  let st := (exec (deployed 1 2) started_run).1 in
  ¬ succeeds (cancelReservation
                (exec st [(everyone 1 10001, Pause)]).1 (everyone 7 10002) 1).
Proof.
  cbv zeta. apply started_never_cancelled; by vm_compute.
Defined.

Ltac spot_cases k :=
  unfold spot_at; fields; rewrite lookup_insert;
  match goal with
  | |- context [decide (?a = k)] => destruct (decide (a = k)) as [<-|?]
  end;
  cbn [default]; unfold listing; fields; try done.

(** What a successful call does to the table of spots: every spot keeps its
    listing, or one spot is created under the next number. *)
Lemma call_spots st env c st' effects :
  call st env c = Ok (st', effects) →
  (nextSpotId st' = nextSpotId st ∧ spotExists st' = spotExists st ∧
   ∀ k, listing (spot_at st' k) = listing (spot_at st k)) ∨
  (∃ loc rate,
     c = CreateParkingSpot loc rate ∧ 0 < rate ∧
     nextSpotId st' = nextSpotId st + 1 ∧
     spotExists st' = {[nextSpotId st]} ∪ spotExists st ∧
     spot_at st' (nextSpotId st)
     = mkSpot (nextSpotId st) loc rate true false 0 0 0 0 ∧
     ∀ k, k ≠ nextSpotId st → spot_at st' k = spot_at st k).
Proof.
  intros H. destruct c; simpl in H.
  - unfold createParkingSpot in H. bind_steps H. injection H as <- <-.
    apply N.ltb_lt in Hv0. right. exists _location, _hourlyRate.
    split; [done|]. split; [done|]. split; [done|]. split; [done|]. split.
    + unfold spot_at. fields. by rewrite lookup_insert_eq.
    + intros k Hne. unfold spot_at. fields. by rewrite lookup_insert_ne.
  - unfold reserveSpot in H. bind_steps H. fields_in H.
    destruct (_ <? value); bind_steps H; injection H as <- <-; left;
      (split; [done|]); (split; [done|]); intros k; spot_cases k.
  - unfold startReservation in H. bind_steps H. injection H as <- <-.
    left. split; [done|]. split; [done|]. intros k. spot_cases k.
  - apply completeReservation_Ok in H
      as (_ & _ & _ & _ & _ & _ & _ & _ & -> & _).
    left. split; [done|]. split; [done|]. intros k. spot_cases k.
  - apply cancelReservation_Ok in H as (_ & -> & _).
    left. split; [done|]. split; [done|]. intros k. spot_cases k.
  - unfold updatePlatformFee in H. bind_steps H. injection H as <- <-. by left.
  - unfold updateOracle in H. bind_steps H. injection H as <- <-. by left.
  - unfold withdrawPlatformEarnings in H. bind_steps H. injection H as <- <-.
    by left.
  - unfold pause in H. bind_steps H. injection H as <- <-. by left.
  - unfold unpause in H. bind_steps H. injection H as <- <-. by left.
  - unfold transferOwnership in H. bind_steps H. injection H as <- <-. by left.
  - unfold renounceOwnership in H. bind_steps H. injection H as <- <-. by left.
Qed.

Lemma reachable_spots st log k :
  reachable st log →
  (k ∈ spotExists st ↔ 1 ≤ k < nextSpotId st) ∧
  (k ∈ spotExists st →
   spotId (spot_at st k) = k ∧ 0 < hourlyRate (spot_at st k) ∧
   isActive (spot_at st k) = true).
Proof.
  intros (deployer & oracle & txs & Hexec).
  pose (P := λ s : State,
    1 ≤ nextSpotId s ∧
    ∀ k, (k ∈ spotExists s ↔ 1 ≤ k < nextSpotId s) ∧
         (k ∈ spotExists s →
          spotId (spot_at s k) = k ∧ 0 < hourlyRate (spot_at s k) ∧
          isActive (spot_at s k) = true)).
  assert (HP : P (exec (deployed deployer oracle) txs).1).
  { apply (exec_state_ind P).
    - intros s env c s' effects [Hone Hs] Hcall.
      destruct (call_spots _ _ _ _ _ Hcall)
        as [(Hn & Hex & Hl) | (loc & rate & _ & Hrate & Hn & Hex & Hnew & Hold)].
      + split; [lia|]. intros k'. destruct (Hs k') as [Hdom Hspot].
        specialize (Hl k'). unfold listing in Hl.
        injection Hl as Hi _ Hr Ha. rewrite Hex, Hn, Hi, Hr, Ha. done.
      + split; [lia|]. intros k'. destruct (Hs k') as [Hdom Hspot].
        rewrite Hex, Hn, elem_of_union, elem_of_singleton.
        destruct (decide (k' = nextSpotId s)) as [->|Hne].
        * rewrite Hnew. simpl. split; [|done]. split; [lia|by left].
        * rewrite (Hold k' Hne). split.
          -- rewrite Hdom. lia.
          -- intros [?|Hk]; [done|]. by apply Hspot.
    - split; [done|]. intros k'. unfold deployed. simpl. split.
      + rewrite elem_of_empty. lia.
      + by rewrite elem_of_empty. }
  change (exec (deployed deployer oracle) txs) with
    (foldl exec1 (deployed deployer oracle, []) txs) in Hexec.
  unfold exec in HP. rewrite Hexec in HP. destruct HP as [_ HP]. apply HP.
Qed.

(** X4: spots are never repriced or deactivated. In every reachable state
    the existing spots are exactly those numbered from 1 up to the counter,
    and each carries its own number, a positive hourly rate and the active
    flag: the "Place de parking inactive" guard of [reserveSpot] cannot
    fire. *)
Theorem spots_stay_listed st log k :
  reachable st log →
  (k ∈ spotExists st ↔ 1 ≤ k < nextSpotId st) ∧
  (k ∈ spotExists st →
   spotId (spot_at st k) = k ∧ 0 < hourlyRate (spot_at st k) ∧
   isActive (spot_at st k) = true).
Proof. apply reachable_spots. Qed.

Lemma spots_stay_listed_witness :
  let st := (exec (deployed 1 2) double_booking_run).1 in
  1 ∈ spotExists st ∧ hourlyRate (spot_at st 1) = 100 ∧
  isActive (spot_at st 1) = true.
Proof.
  cbv zeta.
  destruct (spots_stay_listed _ _ 1 (reachable_exec 1 2 double_booking_run))
    as [Hdom Hspot].
  assert (Hin : 1 ∈ spotExists (exec (deployed 1 2) double_booking_run).1).
  { apply Hdom. by vm_compute. }
  split; [done|]. split; [by vm_compute|]. by apply Hspot.
Defined.

(** X5: the rate and the location of a spot are fixed at its creation: no
    later execution changes them. *)
Theorem rate_is_fixed st txs k :
  k < nextSpotId st →
  hourlyRate (spot_at (exec st txs).1 k) = hourlyRate (spot_at st k) ∧
  location (spot_at (exec st txs).1 k) = location (spot_at st k) ∧
  isActive (spot_at (exec st txs).1 k) = isActive (spot_at st k).
Proof.
  intros Hk.
  pose (P := λ s : State,
    nextSpotId st ≤ nextSpotId s ∧
    listing (spot_at s k) = listing (spot_at st k)).
  assert (HP : P (exec st txs).1).
  { apply (exec_state_ind P); [|done].
    intros s env c s' effects [Hle Hl] Hcall.
    destruct (call_spots _ _ _ _ _ Hcall)
      as [(Hn & _ & Hl') | (loc & rate & _ & _ & Hn & _ & _ & Hold)].
    - split; [lia|]. by rewrite Hl'.
    - split; [lia|]. rewrite Hold; [done|lia]. }
  destruct HP as [_ HP]. unfold listing in HP. by injection HP as _ -> -> ->.
Qed.

Lemma rate_is_fixed_witness :
  let st := (exec (deployed 1 2) booked_run).1 in
  hourlyRate
    (spot_at (exec st [(everyone 2 10000, StartReservation 1);
                       (everyone 1 10001, CreateParkingSpot "B1" 7);
                       (everyone 2 17200, CompleteReservation 1)]).1 1) = 100.
Proof.
  cbv zeta.
  destruct (rate_is_fixed (exec (deployed 1 2) booked_run).1
              [(everyone 2 10000, StartReservation 1);
               (everyone 1 10001, CreateParkingSpot "B1" 7);
               (everyone 2 17200, CompleteReservation 1)] 1
              ltac:(by vm_compute)) as (Hr & _).
  etrans; [exact Hr|by vm_compute].
Defined.

Lemma call_next_reservation st env c st' effects :
  call st env c = Ok (st', effects) →
  (nextReservationId st' = nextReservationId st ∧
   ∀ value _spotId _startTime _endTime,
     c ≠ ReserveSpot value _spotId _startTime _endTime) ∨
  ((∃ value _spotId _startTime _endTime,
      c = ReserveSpot value _spotId _startTime _endTime) ∧
   nextReservationId st' = nextReservationId st + 1).
Proof.
  intros H. destruct c; simpl in H.
  - unfold createParkingSpot in H. bind_steps H. injection H as <- <-.
    by left.
  - unfold reserveSpot in H. bind_steps H. fields_in H. right.
    split; [by eexists _, _, _, _|].
    destruct (_ <? value); bind_steps H; by injection H as <- <-.
  - unfold startReservation in H. bind_steps H. injection H as <- <-.
    by left.
  - apply completeReservation_Ok in H
      as (_ & _ & _ & _ & _ & _ & _ & _ & -> & _). by left.
  - apply cancelReservation_Ok in H as (_ & -> & _). by left.
  - unfold updatePlatformFee in H. bind_steps H. injection H as <- <-. by left.
  - unfold updateOracle in H. bind_steps H. injection H as <- <-. by left.
  - unfold withdrawPlatformEarnings in H. bind_steps H. injection H as <- <-.
    by left.
  - unfold pause in H. bind_steps H. injection H as <- <-. by left.
  - unfold unpause in H. bind_steps H. injection H as <- <-. by left.
  - unfold transferOwnership in H. bind_steps H. injection H as <- <-. by left.
  - unfold renounceOwnership in H. bind_steps H. injection H as <- <-. by left.
Qed.

Lemma reachable_state_ind (P : State → Prop) :
  (∀ deployer oracle, P (deployed deployer oracle)) →
  (∀ st env c st' effects,
     P st → call st env c = Ok (st', effects) → P st') →
  ∀ st log, reachable st log → P st.
Proof.
  intros Hinit Hstep st log (deployer & oracle & txs & Hexec).
  pose proof (exec_state_ind P Hstep txs (deployed deployer oracle) []
                (Hinit deployer oracle)) as HP.
  change (foldl exec1 (deployed deployer oracle, []) txs)
    with (exec (deployed deployer oracle) txs) in HP.
  by rewrite Hexec in HP.
Qed.

Lemma reachable_reservations st log id :
  reachable st log →
  let r := reservation_at st id in
  1 ≤ nextReservationId st ∧
  (1 ≤ id < nextReservationId st → reservationId r = id) ∧
  (nextReservationId st ≤ id → r = zeroReservation) ∧
  status r ≠ Expired ∧
  (status r = Active → actualEndTime r = 0) ∧
  (status r = Completed →
   0 < actualStartTime r ∧ actualStartTime r ≤ actualEndTime r).
Proof.
  intros Hreach. cbv zeta. revert id.
  pattern st. eapply reachable_state_ind; [| |exact Hreach].
  - intros deployer oracle id. unfold reservation_at, deployed. simpl.
    rewrite lookup_empty. simpl. repeat split; try done; lia.
  - intros s env c s' effects IH Hcall id.
    destruct (IH id) as (Hone & Hid & Hzero & Hexp & Hact & Hcomp).
    destruct (call_next_reservation _ _ _ _ _ Hcall)
      as [[Hn Hnot] | [(v & sp & b & e & ->) Hn]]; rewrite Hn.
    + destruct (call_reservation _ _ _ _ _ id Hcall)
        as [[-> _] | [(Hlt & Ha & Hstep) | (_ & v & sp & b & e & -> & _)]];
        [done| |by destruct (Hnot v sp b e)].
      destruct Hstep
        as [(_ & H0 & ->) | [(_ & Hpos & Hle & ->) | (_ & H0 & ->)]]; fields.
      * split_and!; [done|by intros; apply Hid|intros; lia|done|done|].
        intros; congruence.
      * split_and!; [done|by intros; apply Hid|intros; lia|done|done|done].
      * split_and!; [done|by intros; apply Hid|intros; lia|done|done|done].
    + destruct (call_reservation _ _ _ _ _ id Hcall)
        as [[-> Hne] | [(_ & _ & [(? & _)|[(? & _)|(? & _)]])
                       | (-> & ? & ? & ? & ? & _ & ->)]]; try done.
      * specialize (Hne v sp b e eq_refl).
        split_and!; [lia| | |done|done|done].
        -- intros. apply Hid. lia.
        -- intros. apply Hzero. lia.
      * simpl. split_and!; [lia|done|intros; lia|done|done|done].
Qed.

(** X6: the table of reservations. In every reachable state the identifiers
    from 1 up to the counter each hold the reservation created under that
    number, nothing is stored at or above the counter, no reservation is ever
    Expired, an Active reservation has no actual end time (the guard
    "Reservation deja terminee" cannot fire), and a Completed one was started
    before it ended. *)
Theorem reservation_table st log id :
  reachable st log →
  let r := reservation_at st id in
  1 ≤ nextReservationId st ∧
  (1 ≤ id < nextReservationId st → reservationId r = id) ∧
  (nextReservationId st ≤ id → r = zeroReservation) ∧
  status r ≠ Expired ∧
  (status r = Active → actualEndTime r = 0) ∧
  (status r = Completed →
   0 < actualStartTime r ∧ actualStartTime r ≤ actualEndTime r).
Proof. apply reachable_reservations. Qed.

Lemma reservation_table_witness :
  let st := (exec (deployed 1 2) double_booking_run).1 in
  reservationId (reservation_at st 3) = 3 ∧
  reservation_at st 4 = zeroReservation ∧
  status (reservation_at st 1) ≠ Expired.
Proof.
  cbv zeta.
  destruct (reservation_table _ _ 3 (reachable_exec 1 2 double_booking_run))
    as (_ & H3 & _).
  destruct (reservation_table _ _ 4 (reachable_exec 1 2 double_booking_run))
    as (_ & _ & H4 & _).
  destruct (reservation_table _ _ 1 (reachable_exec 1 2 double_booking_run))
    as (_ & _ & _ & H1 & _).
  split; [apply H3; by vm_compute|]. split; [apply H4; by vm_compute|done].
Defined.

Lemma reserveSpot_Ok st env value sp b e st' effects :
  reserveSpot st env value sp b e = Ok (st', effects) →
  let spot := spot_at st sp in
  let cost := (e - b) * hourlyRate spot / HOUR in
  let id := nextReservationId st in
  paused st = false ∧ sp ∈ spotExists st ∧
  isActive spot = true ∧ isOccupied spot = false ∧
  block_timestamp env ≤ b ∧ b < e ∧
  MIN_RESERVATION_TIME ≤ e - b ∧ e - b ≤ MAX_RESERVATION_TIME ∧
  reservationEnd spot ≤ b ∧ cost ≤ value ∧
  st' = set_balance (balance st + cost)
          (write_spot sp (spot_set_reservationEnd e spot)
             (set_userReservations
                (λ m, <[msg_sender env :=
                          userReservations_at st (msg_sender env) ++ [id]]> m)
                (write_reservation id
                   (mkReservation id (msg_sender env) sp b e cost value
                      Active 0 0)
                   (set_nextReservationId (id + 1) st)))) ∧
  effects =
    (if cost <? value then [Transfer (msg_sender env) (value - cost)] else [])
    ++ [Emit (ReservationCreated id (msg_sender env) sp b e cost)].
Proof.
  intros H. cbv zeta. unfold reserveSpot in H. bind_steps H. fields_in H.
  change (spot_at (set_balance (balance st + value) st) sp)
    with (spot_at st sp) in *.
  fields_in Hv. fields_in Hv0. fields_in Hv13.
  apply negb_true_iff in Hv, Hv2. apply bool_decide_eq_true in Hv0.
  apply N.leb_le in Hv3, Hv6, Hv8, Hv9, Hv12. apply N.ltb_lt in Hv4.
  set (cost := (e - b) * hourlyRate (spot_at st sp) / HOUR) in *.
  clearbody cost. clear Hv11.
  split_and!; try done.
  - destruct (_ <? value) eqn:Hlt.
    + bind_steps H. injection H as <- <-. apply N.ltb_lt in Hlt. fields.
      unfold set_balance, write_spot, set_parkingSpots, set_userReservations,
        write_reservation, set_reservations, set_nextReservationId,
        userReservations_at. fields. f_equal. lia.
    + injection H as <- <-. apply N.ltb_ge in Hlt.
      unfold set_balance, write_spot, set_parkingSpots, set_userReservations,
        write_reservation, set_reservations, set_nextReservationId,
        userReservations_at. fields. f_equal. lia.
  - destruct (_ <? value) eqn:Hlt.
    + bind_steps H. by injection H as <- <-.
    + by injection H as <- <-.
Qed.

(** Induction over an execution, for a property of the state and the log. *)
Lemma exec_log_ind (P : State → Log → Prop) :
  (∀ st log env c st' effects,
     P st log → call st env c = Ok (st', effects) →
     P st' (log ++ [(c, effects)])) →
  ∀ txs st log,
    P st log → P (foldl exec1 (st, log) txs).1 (foldl exec1 (st, log) txs).2.
Proof.
  intros Hstep txs. induction txs as [|[env c] txs IH]; intros st log HP;
    [done|].
  simpl. unfold exec1 at 2 4. cbn [fst snd].
  destruct (call st env c) as [[st' effects]|e] eqn:Hcall; [|by apply IH].
  apply IH. by eapply Hstep.
Qed.

Lemma reachable_log_ind (P : State → Log → Prop) :
  (∀ deployer oracle, P (deployed deployer oracle) []) →
  (∀ st log env c st' effects,
     P st log → call st env c = Ok (st', effects) →
     P st' (log ++ [(c, effects)])) →
  ∀ st log, reachable st log → P st log.
Proof.
  intros Hinit Hstep st log (deployer & oracle & txs & Hexec).
  pose proof (exec_log_ind P Hstep txs (deployed deployer oracle) []
                (Hinit deployer oracle)) as HP.
  change (foldl exec1 (deployed deployer oracle, []) txs)
    with (exec (deployed deployer oracle) txs) in HP.
  by rewrite Hexec in HP.
Qed.

(** What a successful call does to the fee, the owner, the oracle and the
    pause flag. *)
Lemma call_settings st env c st' effects :
  call st env c = Ok (st', effects) →
  (platformFeePercentage st' = platformFeePercentage st ∨
   platformFeePercentage st' ≤ 20) ∧
  (owner st' = owner st ∨
   (∃ o, c = TransferOwnership o) ∨ c = RenounceOwnership) ∧
  (oracleAddress st' = oracleAddress st ∨ ∃ o, c = UpdateOracle o) ∧
  (paused st' = paused st ∨ c = Pause ∨ c = Unpause).
Proof.
  intros H. destruct c; simpl in H.
  - unfold createParkingSpot in H. bind_steps H. injection H as <- <-.
    split_and!; by left.
  - apply reserveSpot_Ok in H as (_ & _ & _ & _ & _ & _ & _ & _ & _ & _ & -> & _).
    split_and!; by left.
  - unfold startReservation in H. bind_steps H. injection H as <- <-.
    split_and!; by left.
  - apply completeReservation_Ok in H
      as (_ & _ & _ & _ & _ & _ & _ & _ & -> & _).
    split_and!; by left.
  - apply cancelReservation_Ok in H as (_ & -> & _). split_and!; by left.
  - unfold updatePlatformFee in H. bind_steps H. injection H as <- <-.
    apply N.leb_le in Hv0. split_and!; [by right|by left..].
  - unfold updateOracle in H. bind_steps H. injection H as <- <-.
    split_and!; [by left|by left|right; by eexists|by left].
  - unfold withdrawPlatformEarnings in H. bind_steps H. injection H as <- <-.
    split_and!; by left.
  - unfold pause in H. bind_steps H. injection H as <- <-.
    split_and!; [by left|by left|by left|right; by left].
  - unfold unpause in H. bind_steps H. injection H as <- <-.
    split_and!; [by left|by left|by left|right; by right].
  - unfold transferOwnership in H. bind_steps H. injection H as <- <-.
    split_and!; [by left|right; left; by eexists|by left|by left].
  - unfold renounceOwnership in H. bind_steps H. injection H as <- <-.
    split_and!; [by left|right; by right|by left|by left].
Qed.

Lemma reachable_fee st log : reachable st log → platformFeePercentage st ≤ 20.
Proof.
  apply (reachable_state_ind (λ s, platformFeePercentage s ≤ 20)).
  - intros. simpl. lia.
  - intros s env c s' effects IH Hcall.
    destruct (call_settings _ _ _ _ _ Hcall) as ([-> | ?] & _); done.
Qed.

(** X7: the platform fee is capped. In every reachable state the fee
    percentage is at most 20, so a completion credits the platform with at
    most a fifth of the actual cost and the spot with the rest. *)
Theorem fee_is_capped st log :
  reachable st log →
  platformFeePercentage st ≤ 20 ∧
  ∀ env id st' effects,
    completeReservation st env id = Ok (st', effects) →
    let r := reservation_at st id in
    let actualCost := actualCostOf st (block_timestamp env) r in
    5 * platformFeeOf st actualCost ≤ actualCost ∧
    totalPlatformEarnings st'
    = totalPlatformEarnings st + platformFeeOf st actualCost ∧
    totalEarnings (spot_at st' (resSpotId r))
    = totalEarnings (spot_at st (resSpotId r))
      + (actualCost - platformFeeOf st actualCost).
Proof.
  intros Hreach. pose proof (reachable_fee _ _ Hreach) as Hfee.
  split; [done|]. intros env id st' effects H. cbv zeta.
  apply completeReservation_Ok in H
    as (_ & _ & _ & _ & _ & _ & _ & _ & -> & _).
  rewrite spot_at_settled. fields. split; [|done].
  unfold platformFeeOf.
  set (c := actualCostOf st (block_timestamp env) (reservation_at st id)).
  clearbody c.
  assert (Hle : c * platformFeePercentage st / 100 ≤ c / 5).
  { etrans; [apply (N.Div0.div_le_mono _ (c * 20) 100); nia|].
    change 100 with (5 * 20). by rewrite N.Div0.div_mul_cancel_r. }
  pose proof (N.Div0.mul_div_le c 5). lia.
Qed.

Lemma fee_is_capped_witness :
  platformFeePercentage (exec (deployed 1 2) started_run).1 ≤ 20.
Proof.
  exact (proj1 (fee_is_capped _ _ (reachable_exec 1 2 started_run))).
Defined.

(** X8: who may call what. A call reserved to the owner succeeds only for
    the owner, a start or a completion only for the oracle, a cancellation
    only for the requester of the reservation; and the owner, the oracle
    address, the fee and the pause flag change only in calls made by the
    owner. *)
Theorem who_may_call st env c st' effects :
  call st env c = Ok (st', effects) →
  (owner_only c = true → msg_sender env = owner st) ∧
  (oracle_only c = true → msg_sender env = oracleAddress st) ∧
  (∀ id, c = CancelReservation id →
         msg_sender env = user (reservation_at st id)) ∧
  (msg_sender env ≠ owner st →
   owner st' = owner st ∧ oracleAddress st' = oracleAddress st ∧
   platformFeePercentage st' = platformFeePercentage st ∧
   paused st' = paused st ∧ nextSpotId st' = nextSpotId st ∧
   totalPlatformEarnings st ≤ totalPlatformEarnings st').
Proof.
  intros H. destruct c; simpl in H; cbn [owner_only oracle_only].
  - unfold createParkingSpot in H. bind_steps H. injection H as <- <-.
    apply N.eqb_eq in Hv. done.
  - apply reserveSpot_Ok in H
      as (_ & _ & _ & _ & _ & _ & _ & _ & _ & _ & -> & _).
    split_and!; try done.
  - unfold startReservation in H. bind_steps H. injection H as <- <-.
    apply N.eqb_eq in Hv. split_and!; try done.
  - apply completeReservation_Ok in H
      as (Ho & _ & _ & _ & _ & _ & _ & _ & -> & _).
    split_and!; try done. intros _. fields. split_and!; try done. lia.
  - apply cancelReservation_Ok in H as ((_ & Hu & _) & -> & _).
    split_and!; try done.
    + by intros id [= <-].
    + intros _. fields. split_and!; try done. lia.
  - unfold updatePlatformFee in H. bind_steps H. injection H as <- <-.
    apply N.eqb_eq in Hv. done.
  - unfold updateOracle in H. bind_steps H. injection H as <- <-.
    apply N.eqb_eq in Hv. done.
  - unfold withdrawPlatformEarnings in H. bind_steps H. injection H as <- <-.
    apply N.eqb_eq in Hv. done.
  - unfold pause in H. bind_steps H. injection H as <- <-.
    apply N.eqb_eq in Hv. done.
  - unfold unpause in H. bind_steps H. injection H as <- <-.
    apply N.eqb_eq in Hv. done.
  - unfold transferOwnership in H. bind_steps H. injection H as <- <-.
    apply N.eqb_eq in Hv. done.
  - unfold renounceOwnership in H. bind_steps H. injection H as <- <-.
    apply N.eqb_eq in Hv. done.
Qed.

Lemma who_may_call_witness :
  ∃ st' effects,
    call (exec (deployed 1 2) booked_run).1 (everyone 2 10000)
      (StartReservation 1) = Ok (st', effects) ∧
    owner st' = 1 ∧ paused st' = false.
Proof.
  destruct (call (exec (deployed 1 2) booked_run).1 (everyone 2 10000)
              (StartReservation 1)) as [[st' effects]|err] eqn:H;
    [|by vm_compute in H].
  exists st', effects. split; [done|].
  destruct (who_may_call _ _ _ _ _ H) as (_ & _ & _ & Hkeep).
  destruct Hkeep as (-> & _ & _ & -> & _); by vm_compute.
Defined.

Lemma call_while_paused st env c st' effects :
  paused st = true → c ≠ Unpause → call st env c = Ok (st', effects) →
  paused st' = true ∧ nextReservationId st' = nextReservationId st ∧
  balance st' ≤ balance st.
Proof.
  intros Hp Hc H. destruct c; simpl in H.
  - unfold createParkingSpot in H. bind_steps H. by injection H as <- <-.
  - apply reserveSpot_Ok in H as (Hnp & _). congruence.
  - unfold startReservation in H. bind_steps H. by injection H as <- <-.
  - apply completeReservation_Ok in H
      as (_ & _ & _ & _ & _ & _ & _ & _ & -> & _).
    fields. split_and!; [done..|lia].
  - apply cancelReservation_Ok in H as (_ & -> & _).
    fields. split_and!; [done..|lia].
  - unfold updatePlatformFee in H. bind_steps H. by injection H as <- <-.
  - unfold updateOracle in H. bind_steps H. by injection H as <- <-.
  - unfold withdrawPlatformEarnings in H. bind_steps H. injection H as <- <-.
    fields. split_and!; [done..|lia].
  - unfold pause in H. bind_steps H. by injection H as <- <-.
  - done.
  - unfold transferOwnership in H. bind_steps H. by injection H as <- <-.
  - unfold renounceOwnership in H. bind_steps H. by injection H as <- <-.
Qed.

(** X9: while the contract is paused no reservation is created and no money
    comes in: through every sequence of transactions without [unpause] the
    contract stays paused, the reservation counter stands still and the
    balance does not grow (starts, completions, cancellations and
    withdrawals go on). *)
Theorem nothing_booked_while_paused txs : ∀ st,
  paused st = true →
  Forall (λ tx : Tx, tx.2 ≠ Unpause) txs →
  paused (exec st txs).1 = true ∧
  nextReservationId (exec st txs).1 = nextReservationId st ∧
  balance (exec st txs).1 ≤ balance st.
Proof.
  unfold exec. generalize (@nil (Call * list Effect)).
  induction txs as [|[env c] txs IH]; intros log st Hp Hall; [done|].
  apply Forall_cons in Hall as [Hc Hall]. simpl in Hc. simpl.
  unfold exec1 at 2 4 6. cbn [fst snd].
  destruct (call st env c) as [[st' effects]|e] eqn:Hcall; [|by apply IH].
  destruct (call_while_paused _ _ _ _ _ Hp Hc Hcall) as (Hp' & Hn & Hb).
  destruct (IH (log ++ [(c, effects)]) st' Hp' Hall) as (? & ? & ?).
  split_and!; [done|congruence|lia].
Qed.

Lemma nothing_booked_while_paused_witness :
  let st := (exec (deployed 1 2) (booked_run ++ [(everyone 1 1, Pause)])).1 in
  let st' := (exec st [(everyone 8 2, ReserveSpot 100 1 20000 23600);
                       (everyone 7 5, CancelReservation 1)]).1 in
  nextReservationId st' = 2 ∧ balance st' ≤ 100.
Proof.
  cbv zeta.
  destruct (nothing_booked_while_paused
              [(everyone 8 2, ReserveSpot 100 1 20000 23600);
               (everyone 7 5, CancelReservation 1)]
              (exec (deployed 1 2) (booked_run ++ [(everyone 1 1, Pause)])).1
              ltac:(by vm_compute)
              ltac:(by repeat constructor))
    as (_ & Hn & Hb).
  split; [etrans; [exact Hn|by vm_compute]|].
  etrans; [exact Hb|by vm_compute].
Defined.

(** *** Escrow *)

Lemma sumMap_le {V} (f g : V → N) (m : gmap N V) :
  (∀ k v, m !! k = Some v → f v ≤ g v) → sumMap f m ≤ sumMap g m.
Proof.
  intros Hfg. unfold sumMap, sumList.
  assert (Hall : ∀ kv, kv ∈ map_to_list m → f kv.2 ≤ g kv.2).
  { intros [k v] Hin. apply elem_of_map_to_list in Hin. eauto. }
  induction (map_to_list m) as [|kv l IH]; simpl; [done|].
  pose proof (Hall kv (list_elem_of_here _ _)).
  assert (∀ kv', kv' ∈ l → f kv'.2 ≤ g kv'.2) as Hl.
  { intros kv' Hin. apply Hall. by apply list_elem_of_further. }
  specialize (IH Hl). lia.
Qed.

Lemma sumMap_plus {V} (f g : V → N) (m : gmap N V) :
  sumMap (λ v, f v + g v) m = sumMap f m + sumMap g m.
Proof.
  unfold sumMap, sumList.
  induction (map_to_list m) as [|kv l IH]; simpl; lia.
Qed.

Lemma heldFor_insert spots k s r :
  hourlyRate s = hourlyRate (default zeroSpot (spots !! k)) →
  heldFor (<[k := s]> spots) r = heldFor spots r.
Proof. intros Hrate. unfold heldFor. by rewrite completedCost_insert. Qed.

Lemma heldFor_insert_other spots k s r :
  resSpotId r ≠ k → heldFor (<[k := s]> spots) r = heldFor spots r.
Proof. intros Hne. unfold heldFor. by rewrite completedCost_insert_other. Qed.

(** The sum of what is held after one spot and one reservation were
    overwritten, the spot keeping its rate. *)
Lemma held_after_write spots ress id r' k s' :
  hourlyRate s' = hourlyRate (default zeroSpot (spots !! k)) →
  sumMap (heldFor (<[k := s']> spots)) (<[id := r']> ress)
    + heldFor spots (default zeroReservation (ress !! id))
  = sumMap (heldFor spots) ress + heldFor spots r'.
Proof.
  intros Hrate.
  rewrite (sumMap_ext (heldFor (<[k := s']> spots)) (heldFor spots)).
  - by apply sumMap_insert.
  - intros. by apply heldFor_insert.
Qed.

Lemma heldFor_active spots r : status r = Active → heldFor spots r = totalCost r.
Proof. unfold heldFor. by intros ->. Qed.

Lemma heldFor_completed spots r :
  status r = Completed →
  heldFor spots r
  = N.min (totalCost r)
      ((actualEndTime r - actualStartTime r)
         * hourlyRate (default zeroSpot (spots !! resSpotId r)) / HOUR).
Proof.
  intros H. unfold heldFor. rewrite H. by rewrite completedCost_completed.
Qed.

Lemma heldFor_cancelled spots r :
  status r = Cancelled → heldFor spots r = totalCost r * 5 / 100.
Proof. unfold heldFor. by intros ->. Qed.

(** Instantiate [held_after_write] at the maps of the goal; [old] and [new]
    rewrite what is held for the old and for the new entry. *)
Ltac held_written HH old new :=
  match goal with
  | |- context [sumMap (heldFor (<[?k := ?s]> ?spots)) (<[?id := ?r]> ?ress)] =>
      pose proof (held_after_write spots ress id r k s eq_refl) as HH;
      match type of HH with
      | _ + heldFor ?sp ?o = _ + heldFor _ ?n =>
          rewrite (old sp o), (new sp n) in HH by done
      end
  end.

Lemma call_escrow st env c st' effects log :
  well_formed st →
  balance st + withdrawn log = totalHeld st →
  call st env c = Ok (st', effects) →
  balance st' + withdrawn (log ++ [(c, effects)]) = totalHeld st'.
Proof.
  intros Hwf Hbal H. rewrite withdrawn_snoc. unfold withdrawnBy.
  unfold totalHeld in *. destruct c; simpl in H; cbn [fst snd].
  - unfold createParkingSpot in H. bind_steps H. injection H as <- <-.
    destruct Hwf as (_ & _ & _ & Hres). fields.
    rewrite (sumMap_ext (heldFor (<[nextSpotId st := _]> _))
               (heldFor (parkingSpots st))); [lia|].
    intros id r Hl. apply heldFor_insert_other. apply Hres in Hl. lia.
  - apply reserveSpot_Ok in H
      as (_ & _ & _ & _ & _ & _ & _ & _ & _ & _ & -> & _).
    assert (Hfresh : reservations st !! nextReservationId st = None).
    { destruct Hwf as (_ & _ & _ & Hres).
      destruct (reservations st !! nextReservationId st) eqn:Hl; [|done].
      apply Hres in Hl. lia. }
    unfold spot_at. fields.
    match goal with
    | |- context [sumMap (heldFor (<[?k := ?s]> ?spots)) (<[?id := ?r]> ?ress)] =>
        pose proof (held_after_write spots ress id r k s eq_refl) as HH
    end.
    rewrite Hfresh in HH. cbn [default] in HH.
    rewrite !heldFor_active in HH by done. fields_in HH. simpl in HH.
    set (cost := _ / HOUR) in *. clearbody cost. lia.
  - unfold startReservation in H. bind_steps H. injection H as <- <-.
    apply bool_decide_eq_true in Hv1.
    unfold spot_at, reservation_at in *. fields.
    held_written HH heldFor_active heldFor_active.
    fields_in HH. lia.
  - apply completeReservation_Ok in H
      as (_ & _ & Hact & _ & _ & Hle & _ & Href & -> & _).
    unfold actualCostOf, refundOf in *.
    unfold spot_at, reservation_at in *. fields.
    held_written HH heldFor_active heldFor_completed.
    fields_in HH.
    set (cost := _ / HOUR) in *. clearbody cost.
    destruct (_ <? _) eqn:Hlt.
    + apply N.ltb_lt in Hlt. lia.
    + apply N.ltb_ge in Hlt. lia.
  - apply cancelReservation_Ok in H
      as ((_ & _ & Hact & _ & _ & _ & _ & _ & Href) & -> & _).
    pose proof (cancellationFee_le (reservation_at st _reservationId)).
    unfold cancellationFeeOf in *.
    unfold spot_at, reservation_at in *. fields.
    held_written HH heldFor_active heldFor_cancelled.
    fields_in HH.
    set (fee := _ / 100) in *. clearbody fee. lia.
  - unfold updatePlatformFee in H. bind_steps H. injection H as <- <-.
    fields. lia.
  - unfold updateOracle in H. bind_steps H. injection H as <- <-.
    fields. lia.
  - unfold withdrawPlatformEarnings in H. bind_steps H. injection H as <- <-.
    fields_in H1. fields. simpl. lia.
  - unfold pause in H. bind_steps H. injection H as <- <-. fields. lia.
  - unfold unpause in H. bind_steps H. injection H as <- <-. fields. lia.
  - unfold transferOwnership in H. bind_steps H. injection H as <- <-.
    fields. lia.
  - unfold renounceOwnership in H. bind_steps H. injection H as <- <-.
    fields. lia.
Qed.

Lemma reachable_escrow st log :
  reachable st log → balance st + withdrawn log = totalHeld st.
Proof.
  intros Hreach.
  cut (well_formed st ∧ balance st + withdrawn log = totalHeld st);
    [by intros [_ ?]|].
  revert st log Hreach.
  apply (reachable_log_ind
           (λ s l, well_formed s ∧ balance s + withdrawn l = totalHeld s)).
  - intros. split; [apply well_formed_deployed|].
    unfold totalHeld, deployed. simpl. by rewrite sumMap_empty.
  - intros s l env c s' effects [Hwf Hb] Hcall. split.
    + by eapply call_well_formed.
    + by eapply call_escrow.
Qed.

Lemma heldFor_le spots r :
  heldFor spots r ≤ activeEscrow r + completedCost spots r + cancelledFee r.
Proof.
  unfold heldFor, activeEscrow, cancelledFee.
  destruct (status r); repeat case_bool_decide; try done; lia.
Qed.

(** X10: the escrow. In every reachable state the balance of the contract
    plus what the owner has withdrawn is exactly what is held for the
    reservations: the whole cost of an Active one, the smaller of cost and
    actual cost of a Completed one, the penalty of a Cancelled one. The
    contract therefore never holds more than the escrow of the Active
    reservations plus the earnings it has booked for spots and platform. *)
Theorem escrow_accounting st log :
  reachable st log →
  balance st + withdrawn log = totalHeld st ∧
  balance st ≤ totalEscrow st + totalSpotEarnings st + totalPlatformEarnings st.
Proof.
  intros Hreach. pose proof (reachable_escrow _ _ Hreach) as Hesc.
  split; [done|].
  destruct (reachable_invariant _ _ Hreach) as [Hcons _].
  unfold conservation, totalCompletedCost, totalCancellationFees in Hcons.
  unfold totalHeld in Hesc. unfold totalEscrow.
  pose proof (sumMap_le (heldFor (parkingSpots st))
                (λ r, activeEscrow r + completedCost (parkingSpots st) r
                      + cancelledFee r) (reservations st)
                (λ _ r _, heldFor_le (parkingSpots st) r)) as Hle.
  rewrite (sumMap_plus (λ r, activeEscrow r + completedCost (parkingSpots st) r)
             cancelledFee) in Hle.
  rewrite (sumMap_plus activeEscrow (completedCost (parkingSpots st))) in Hle.
  lia.
Qed.

Lemma escrow_accounting_witness :
  let run := exec (deployed 1 2) withdrawn_run in
  balance run.1 + withdrawn run.2 = totalHeld run.1.
Proof.
  exact (proj1 (escrow_accounting _ _ (reachable_exec 1 2 withdrawn_run))).
Defined.
(** *** Bookings *)

Lemma call_booking st env c st' effects id :
  call st env c = Ok (st', effects) → id < nextReservationId st →
  booking (reservation_at st' id) = booking (reservation_at st id).
Proof.
  intros Hcall Hid.
  destruct (call_reservation _ _ _ _ _ id Hcall)
    as [[-> _] | [(_ & _ & Hstep) | (-> & _)]]; [done| |lia].
  by destruct Hstep as [(_ & _ & ->) | [(_ & _ & _ & ->) | (_ & _ & ->)]].
Qed.

Lemma call_created st env v sp b e st' effects :
  call st env (ReserveSpot v sp b e) = Ok (st', effects) →
  reservation_at st' (nextReservationId st)
  = mkReservation (nextReservationId st) (msg_sender env) sp b e
      ((e - b) * hourlyRate (spot_at st sp) / HOUR) v Active 0 0.
Proof.
  intros Hcall.
  destruct (call_reservation _ _ _ _ _ (nextReservationId st) Hcall)
    as [[_ Hne] | [(_ & _ & [(? & _)|[(? & _)|(? & _)]])
                  | (_ & ? & ? & ? & ? & [= <- <- <- <-] & ->)]]; try done.
  by destruct (Hne v sp b e).
Qed.

Lemma call_id_range st env c st' effects id :
  call st env c = Ok (st', effects) → id < nextReservationId st' →
  id < nextReservationId st ∨
  (id = nextReservationId st ∧
   ∃ v sp b e, c = ReserveSpot v sp b e).
Proof.
  intros Hcall Hid.
  destruct (call_next_reservation _ _ _ _ _ Hcall) as [[Hn _] | [Hc Hn]].
  - left. lia.
  - destruct (decide (id = nextReservationId st)); [by right|left; lia].
Qed.

(** An existing spot stays, with its rate. *)
Lemma call_rate st env c st' effects k :
  well_formed st → call st env c = Ok (st', effects) →
  k ∈ spotExists st →
  k ∈ spotExists st' ∧
  hourlyRate (spot_at st' k) = hourlyRate (spot_at st k).
Proof.
  intros (_ & Hex & _) Hcall Hk.
  destruct (call_spots _ _ _ _ _ Hcall)
    as [(_ & -> & Hl) | (loc & rate & _ & _ & _ & -> & _ & Hold)].
  - split; [done|]. specialize (Hl k). unfold listing in Hl.
    by injection Hl as _ _ ->.
  - split; [apply elem_of_union; by right|].
    rewrite Hold; [done|]. apply Hex in Hk. lia.
Qed.

Lemma priced_range st r :
  priced st r →
  hourlyRate (spot_at st (resSpotId r)) ≤ totalCost r ∧
  totalCost r ≤ 24 * hourlyRate (spot_at st (resSpotId r)).
Proof.
  unfold priced, MIN_RESERVATION_TIME, MAX_RESERVATION_TIME, HOUR.
  intros (_ & _ & Hmin & Hmax & -> & _).
  set (rate := hourlyRate _). set (d := endTime r - startTime r) in *.
  split.
  - rewrite <- (N.div_mul rate 3600) at 1 by done.
    apply N.Div0.div_le_mono. nia.
  - rewrite <- (N.div_mul (24 * rate) 3600) by done.
    apply N.Div0.div_le_mono. nia.
Qed.

Lemma reachable_priced st log :
  reachable st log →
  ∀ id, 1 ≤ id < nextReservationId st → priced st (reservation_at st id).
Proof.
  intros Hreach.
  cut (well_formed st ∧
       ∀ id, 1 ≤ id < nextReservationId st → priced st (reservation_at st id));
    [by intros [_ ?]|].
  revert st log Hreach.
  apply (reachable_state_ind
           (λ s, well_formed s ∧
                 ∀ id, 1 ≤ id < nextReservationId s →
                       priced s (reservation_at s id))).
  - intros. split; [apply well_formed_deployed|].
    intros id. unfold deployed. simpl. lia.
  - intros s env c s' effects [Hwf IH] Hcall.
    split; [by eapply call_well_formed|]. intros id [Hone Hid].
    destruct (call_id_range _ _ _ _ _ _ Hcall Hid)
      as [Hlt | (-> & v & sp & b & e & ->)].
    + pose proof (call_booking _ _ _ _ _ _ Hcall Hlt) as Hb.
      unfold booking in Hb. injection Hb as _ _ Hs Hst He Hc Hp.
      destruct (IH id (conj Hone Hlt)) as (Hin & Hw & Hmin & Hmax & Hcost & Hpaid).
      destruct (call_rate _ _ _ _ _ _ Hwf Hcall Hin) as [Hin' Hrate].
      unfold priced. rewrite Hs, Hst, He, Hc, Hp, Hrate. done.
    + rewrite (call_created _ _ _ _ _ _ _ _ Hcall).
      pose proof Hcall as Hok. simpl in Hok.
      apply reserveSpot_Ok in Hok
        as (_ & Hin & _ & _ & _ & Hw & Hmin & Hmax & _ & Hpaid & _).
      destruct (call_rate _ _ _ _ _ _ Hwf Hcall Hin) as [Hin' Hrate].
      unfold priced. fields. rewrite Hrate. done.
Qed.

(** X11: the terms of a booking. In every reachable state each reservation
    is for an existing spot and a window of one to twenty-four hours, its
    cost is the length of the window times the rate the spot has now,
    divided by 3600 and rounded down, hence between one and twenty-four
    hourly rates, and the amount paid covers it. *)
Theorem bookings_are_priced st log id :
  reachable st log →
  1 ≤ id < nextReservationId st →
  let r := reservation_at st id in
  let rate := hourlyRate (spot_at st (resSpotId r)) in
  resSpotId r ∈ spotExists st ∧
  3600 ≤ endTime r - startTime r ∧ endTime r - startTime r ≤ 86400 ∧
  totalCost r = (endTime r - startTime r) * rate / 3600 ∧
  rate ≤ totalCost r ∧ totalCost r ≤ 24 * rate ∧
  totalCost r ≤ paidAmount r.
Proof.
  intros Hreach Hid. cbv zeta.
  pose proof (reachable_priced _ _ Hreach id Hid) as Hp.
  destruct (priced_range _ _ Hp) as [Hlo Hhi].
  destruct Hp as (Hin & _ & Hmin & Hmax & Hcost & Hpaid). done.
Qed.

Lemma bookings_are_priced_witness :
  let st := (exec (deployed 1 2) double_booking_run).1 in
  totalCost (reservation_at st 3) ≤ paidAmount (reservation_at st 3).
Proof.
  cbv zeta.
  apply (bookings_are_priced _ _ 3 (reachable_exec 1 2 double_booking_run)).
  by vm_compute.
Defined.

(** *** Exclusivity *)

Lemma spot_at_reserved b k s id r f n st :
  spot_at
    (set_balance b
       (write_spot k s
          (set_userReservations f
             (write_reservation id r (set_nextReservationId n st))))) k = s.
Proof. unfold spot_at. fields. by rewrite lookup_insert_eq. Qed.





(** *** The lists of reservations per user *)

Lemma call_userReservations st env c st' effects a :
  call st env c = Ok (st', effects) →
  userReservations_at st' a
  = match c with
    | ReserveSpot _ _ _ _ =>
        if decide (a = msg_sender env)
        then userReservations_at st a ++ [nextReservationId st]
        else userReservations_at st a
    | _ => userReservations_at st a
    end.
Proof.
  intros H. destruct c; simpl in H.
  - unfold createParkingSpot in H. bind_steps H. by injection H as <- <-.
  - apply reserveSpot_Ok in H
      as (_ & _ & _ & _ & _ & _ & _ & _ & _ & _ & -> & _).
    unfold userReservations_at. fields. rewrite lookup_insert.
    destruct (decide (msg_sender env = a)) as [->|Hne].
    + by rewrite decide_True.
    + by rewrite decide_False.
  - unfold startReservation in H. bind_steps H. by injection H as <- <-.
  - by apply completeReservation_Ok in H
      as (_ & _ & _ & _ & _ & _ & _ & _ & -> & _).
  - by apply cancelReservation_Ok in H as (_ & -> & _).
  - unfold updatePlatformFee in H. bind_steps H. by injection H as <- <-.
  - unfold updateOracle in H. bind_steps H. by injection H as <- <-.
  - unfold withdrawPlatformEarnings in H. bind_steps H.
    by injection H as <- <-.
  - unfold pause in H. bind_steps H. by injection H as <- <-.
  - unfold unpause in H. bind_steps H. by injection H as <- <-.
  - unfold transferOwnership in H. bind_steps H. by injection H as <- <-.
  - unfold renounceOwnership in H. bind_steps H. by injection H as <- <-.
Qed.

Lemma reachable_user_lists st log :
  reachable st log →
  ∀ a, NoDup (userReservations_at st a) ∧
       ∀ id, id ∈ userReservations_at st a ↔
             1 ≤ id < nextReservationId st ∧ user (reservation_at st id) = a.
Proof.
  intros Hreach.
  cut (1 ≤ nextReservationId st ∧
       ∀ a, NoDup (userReservations_at st a) ∧
            ∀ id, id ∈ userReservations_at st a ↔
                  1 ≤ id < nextReservationId st ∧
                  user (reservation_at st id) = a);
    [by intros [_ ?]|].
  revert st log Hreach.
  apply (reachable_state_ind
           (λ s, 1 ≤ nextReservationId s ∧
                 ∀ a, NoDup (userReservations_at s a) ∧
                      ∀ id, id ∈ userReservations_at s a ↔
                            1 ≤ id < nextReservationId s ∧
                            user (reservation_at s id) = a)).
  - intros. split; [done|]. intros a. unfold userReservations_at, deployed.
    simpl. rewrite lookup_empty. simpl. split; [constructor|].
    intros id. rewrite elem_of_nil. lia.
  - intros s env c s' effects [Hone IH] Hcall.
    pose proof (λ a, call_userReservations _ _ _ _ _ a Hcall) as Hur.
    assert (Huser : ∀ id, id < nextReservationId s →
              user (reservation_at s' id) = user (reservation_at s id)).
    { intros id Hlt. pose proof (call_booking _ _ _ _ _ _ Hcall Hlt) as Hb.
      unfold booking in Hb. by injection Hb as _ ->. }
    destruct (call_next_reservation _ _ _ _ _ Hcall)
      as [[Hn Hnot] | [(v & sp & b & e & ->) Hn]]; rewrite Hn.
    + split; [done|]. intros a. destruct (IH a) as [Hnd Hin].
      assert (Hsame : userReservations_at s' a = userReservations_at s a).
      { rewrite Hur. destruct c; try done. by destruct (Hnot value _spotId _startTime _endTime). }
      rewrite Hsame. split; [done|]. intros id. rewrite Hin. split.
      * intros [Hr <-]. split; [done|]. apply Huser. lia.
      * intros [Hr <-]. split; [done|]. symmetry. apply Huser. lia.
    + split; [lia|]. intros a. destruct (IH a) as [Hnd Hin].
      pose proof (call_created _ _ _ _ _ _ _ _ Hcall) as Hnew.
      assert (Hfresh : nextReservationId s ∉ userReservations_at s a).
      { rewrite Hin. lia. }
      rewrite Hur. destruct (decide (a = msg_sender env)) as [->|Hne].
      * split.
        -- apply NoDup_app. split; [done|]. split; [|apply NoDup_singleton].
           intros x Hx ->%list_elem_of_singleton. done.
        -- intros id. rewrite elem_of_app, list_elem_of_singleton, Hin.
           destruct (decide (id = nextReservationId s)) as [->|Hid].
           ++ rewrite Hnew. fields. split; [|by right].
              intros _. split; [lia|done].
           ++ split.
              ** intros [[Hr <-] | ?]; [|done]. split; [lia|].
                 apply Huser. lia.
              ** intros [Hr <-]. left. split; [lia|].
                 symmetry. apply Huser. lia.
      * split; [done|]. intros id. rewrite Hin.
        destruct (decide (id = nextReservationId s)) as [->|Hid].
        -- rewrite Hnew. fields. split; [lia|]. intros [_ ?]. congruence.
        -- split.
           ++ intros [Hr <-]. split; [lia|]. apply Huser. lia.
           ++ intros [Hr <-]. split; [lia|]. symmetry. apply Huser. lia.
Qed.

(** X13: the list of a user. In every reachable state
    [getUserReservations] returns, without repetition, exactly the
    identifiers of the reservations requested by that address. *)
Theorem user_lists st log a id :
  reachable st log →
  NoDup (getUserReservations st a) ∧
  (id ∈ getUserReservations st a ↔
   1 ≤ id < nextReservationId st ∧ user (reservation_at st id) = a).
Proof.
  intros Hreach. destruct (reachable_user_lists _ _ Hreach a) as [Hnd Hin].
  split; [done|]. apply Hin.
Qed.

Lemma user_lists_witness :
  3 ∈ getUserReservations (exec (deployed 1 2) double_booking_run).1 9.
Proof.
  apply (user_lists _ _ 9 3 (reachable_exec 1 2 double_booking_run)).
  by vm_compute.
Defined.

(** *** The start of a reservation *)

Lemma startReservation_Ok st env id st' effects :
  startReservation st env id = Ok (st', effects) ↔
  let r := reservation_at st id in
  let spot := spot_at st (resSpotId r) in
  (msg_sender env = oracleAddress st ∧ id < nextReservationId st ∧
   status r = Active ∧ actualStartTime r = 0 ∧
   totalOccupations spot + 1 ≤ U256.MAX) ∧
  st' = write_spot (resSpotId r)
          (spot_set_totalOccupations (totalOccupations spot + 1)
             (spot_set_occupancy true (user r) spot))
          (write_reservation id
             (res_set_actualStartTime (block_timestamp env) r) st) ∧
  effects = [Emit (ReservationStarted id (block_timestamp env));
             Emit (SpotOccupancyChanged (resSpotId r) true (user r))].
Proof.
  cbv zeta. split.
  - intros H. unfold startReservation in H. bind_steps H.
    injection H as <- <-. fields_in Hv3.
    apply N.eqb_eq in Hv, Hv2. apply N.ltb_lt in Hv0.
    apply bool_decide_eq_true in Hv1. done.
  - intros ((Ho & Hid & Hact & Hns & Hocc) & -> & ->).
    unfold startReservation, onlyOracle, validReservation, U256.add. fields.
    rewrite (proj2 (N.eqb_eq _ _) Ho), (proj2 (N.ltb_lt _ _) Hid).
    rewrite (bool_decide_eq_true_2 _ Hact), (proj2 (N.eqb_eq _ _) Hns).
    cbn [require mbind result_bind checked].
    rewrite (proj2 (N.leb_le _ _) Hocc). done.
Qed.

(** X14: the start of a reservation. [startReservation] succeeds exactly
    when the caller is the oracle, the identifier is below the counter and
    the reservation is Active and not yet started (the count of occupations
    fitting in 256 bits). It then records the current time as the actual
    start, marks the spot occupied by the requester and counts one more
    occupation; nothing else changes, and no money moves. *)
Theorem start_precondition st env id :
  let r := reservation_at st id in
  let spot := spot_at st (resSpotId r) in
  (succeeds (startReservation st env id) ↔
     msg_sender env = oracleAddress st ∧ id < nextReservationId st ∧
     status r = Active ∧ actualStartTime r = 0 ∧
     totalOccupations spot + 1 ≤ U256.MAX) ∧
  (∀ st' effects,
     startReservation st env id = Ok (st', effects) →
     reservation_at st' id = res_set_actualStartTime (block_timestamp env) r ∧
     isOccupied (spot_at st' (resSpotId r)) = true ∧
     currentUser (spot_at st' (resSpotId r)) = user r ∧
     totalOccupations (spot_at st' (resSpotId r)) = totalOccupations spot + 1 ∧
     balance st' = balance st ∧
     totalPlatformEarnings st' = totalPlatformEarnings st ∧
     transferred effects = 0).
Proof.
  cbv zeta. split.
  - split.
    + intros [[st' effects] H]. by apply startReservation_Ok in H as [H _].
    + intros Hc. eexists (_, _). apply startReservation_Ok.
      split; [exact Hc|]. split; reflexivity.
  - intros st' effects H. apply startReservation_Ok in H as (_ & -> & ->).
    rewrite spot_at_write. split; [|done]. by res_at.
Qed.
Lemma start_precondition_witness :
  succeeds (startReservation (exec (deployed 1 2) booked_run).1
              (everyone 2 10000) 1).
Proof.
  apply (proj1 (start_precondition (exec (deployed 1 2) booked_run).1
                  (everyone 2 10000) 1)).
  by vm_compute.
Defined.

(** *** The scope of the pause *)

Ltac run_guards :=
  repeat first
    [ progress cbn [require checked mbind result_bind mret result_ret]
    | match goal with
      | |- context [require ?c _] => destruct c
      | |- context [checked ?o] => destruct o
      end ].

Lemma call_set_paused st env c b :
  pausable c = false →
  call (set_paused b st) env c
  = match call st env c with
    | Ok (s, effects) => Ok (set_paused b s, effects)
    | Revert e => Revert e
    end.
Proof.
  intros Hc. destruct c; try done; simpl.
  - unfold createParkingSpot, onlyOwner. fields. by run_guards.
  - unfold startReservation, onlyOracle, validReservation, reservation_at,
      spot_at. fields. by run_guards.
  - unfold completeReservation, onlyOracle, validReservation, reservation_at,
      spot_at, transfer. fields. run_guards; try done.
    all: destruct (_ <? _); run_guards; done.
  - unfold cancelReservation, validReservation, reservation_at, spot_at,
      transfer. fields. by run_guards.
  - unfold updatePlatformFee, onlyOwner. fields. by run_guards.
  - unfold updateOracle, onlyOwner. fields. by run_guards.
  - unfold withdrawPlatformEarnings, onlyOwner, transfer. fields.
    by run_guards.
  - unfold transferOwnership, onlyOwner. fields. by run_guards.
  - unfold renounceOwnership, onlyOwner. fields. by run_guards.
Qed.
(** X15: the scope of the pause. The pause flag bears on [reserveSpot]
    alone: every other call (but [pause] and [unpause] themselves) succeeds
    or reverts, with the same effects, the same changes and the same
    reason, whether the contract is paused or not; a paused contract refuses
    every [reserveSpot]. *)
Theorem pause_scope st env c b :
  (pausable c = false →
   (∀ st' effects,
      call st env c = Ok (st', effects) →
      call (set_paused b st) env c = Ok (set_paused b st', effects)) ∧
   (∀ e, call st env c = Revert e →
         call (set_paused b st) env c = Revert e)) ∧
  (paused st = true →
   ∀ value _spotId _startTime _endTime,
     reserveSpot st env value _spotId _startTime _endTime
     = Revert EnforcedPause).
Proof.
  split.
  - intros Hc. pose proof (call_set_paused st env c b Hc) as H.
    split.
    + intros st' effects Hok. by rewrite H, Hok.
    + intros e Hrev. by rewrite H, Hrev.
  - intros Hp value _spotId _startTime _endTime.
    unfold reserveSpot, whenNotPaused. fields. by rewrite Hp.
Qed.

Lemma pause_scope_witness :
  let st := (exec (deployed 1 2) booked_run).1 in
  succeeds (call (set_paused true st) (everyone 7 5) (CancelReservation 1)) ∧
  reserveSpot (set_paused true st) (everyone 8 5) 100 1 20000 23600
  = Revert EnforcedPause.
Proof.
  cbv zeta.
  destruct (pause_scope (exec (deployed 1 2) booked_run).1 (everyone 7 5)
              (CancelReservation 1) true) as [Hframe _].
  destruct (Hframe eq_refl) as [Hok _].
  destruct (pause_scope (set_paused true (exec (deployed 1 2) booked_run).1)
              (everyone 8 5) Pause true) as [_ Hres].
  split.
  - eexists. apply Hok. by vm_compute.
  - apply Hres. done.
Defined.

(** *** The reservation numbered 0 *)

Lemma reachable_zero st log :
  reachable st log →
  1 ≤ nextReservationId st ∧
  booking (reservation_at st 0) = booking zeroReservation ∧
  status (reservation_at st 0) ≠ Cancelled.
Proof.
  apply (reachable_state_ind
           (λ s, 1 ≤ nextReservationId s ∧
                 booking (reservation_at s 0) = booking zeroReservation ∧
                 status (reservation_at s 0) ≠ Cancelled)).
  - intros. unfold reservation_at, deployed. simpl. by rewrite lookup_empty.
  - intros s env c s' effects (Hone & Hb & Hnc) Hcall.
    destruct (call_counters _ _ _ _ _ Hcall) as [Hle _].
    split; [lia|].
    rewrite (call_booking _ _ _ _ _ 0 Hcall) by lia. split; [done|].
    destruct (call_reservation _ _ _ _ _ 0 Hcall)
      as [[-> _] | [(_ & Hact & Hstep) | (? & _)]]; [done| |lia].
    destruct Hstep as [(_ & _ & ->) | [(_ & _ & _ & ->) | (-> & _ & _)]].
    + fields. congruence.
    + done.
    + simpl in Hcall. apply cancelReservation_Ok in Hcall
        as ((_ & _ & _ & _ & Hnow & _) & _).
      unfold booking in Hb. injection Hb as _ _ _ Hst _ _ _.
      rewrite Hst in Hnow. simpl in Hnow. lia.
Qed.

(** X16: the reservation numbered 0. The counter starts at 1, so the
    identifier 0 always passes the "Reservation inexistante" check although
    no reservation is ever created under it: in every reachable state
    [getReservation 0] returns a record for user 0, spot 0 and an empty
    window, spot 0 does not exist, nobody can cancel this record, and as long
    as it has not been started the oracle can start it (the count of
    occupations of spot 0 fitting in 256 bits), which marks the non-existent
    spot 0 as occupied. *)
Theorem reservation_zero st log :
  reachable st log →
  (∃ r, getReservation st 0 = Ok r ∧ booking r = booking zeroReservation) ∧
  (0 ∉ spotExists st) ∧
  (∀ env, ¬ succeeds (cancelReservation st env 0)) ∧
  (∀ env,
     msg_sender env = oracleAddress st →
     actualStartTime (reservation_at st 0) = 0 →
     totalOccupations (spot_at st 0) + 1 ≤ U256.MAX →
     ∃ st' effects,
       startReservation st env 0 = Ok (st', effects) ∧
       isOccupied (spot_at st' 0) = true).
Proof.
  intros Hreach. destruct (reachable_zero _ _ Hreach) as (Hone & Hb & Hnc).
  split_and!.
  - exists (reservation_at st 0). split; [|done].
    unfold getReservation, validReservation.
    by rewrite (proj2 (N.ltb_lt _ _)) by lia.
  - rewrite (proj1 (reachable_spots _ _ 0 Hreach)). lia.
  - intros env [[st' effects] H].
    apply cancelReservation_Ok in H as ((_ & _ & _ & _ & Hnow & _) & _).
    unfold booking in Hb. injection Hb as _ _ _ Hst _ _ _.
    rewrite Hst in Hnow. simpl in Hnow. lia.
  - intros env Ho Hns Hocc.
    assert (Hsp : resSpotId (reservation_at st 0) = 0).
    { unfold booking in Hb. by injection Hb as _ _ ->. }
    assert (Hact : status (reservation_at st 0) = Active).
    { destruct (reachable_reservations _ _ 0 Hreach)
        as (_ & _ & _ & Hexp & _ & Hcomp).
      destruct (status (reservation_at st 0)); try done.
      destruct Hcomp as [Hpos _]; [done|]. lia. }
    eexists _, _. split.
    + apply startReservation_Ok. cbv zeta. rewrite Hsp.
      split; [|split; reflexivity]. split_and!; try done. lia.
    + by rewrite spot_at_write.
Qed.

Lemma reservation_zero_witness :
  ∃ st' effects,
    startReservation (exec (deployed 1 2) booked_run).1 (everyone 2 3) 0
    = Ok (st', effects) ∧
    isOccupied (spot_at st' 0) = true.
Proof.
  destruct (reservation_zero _ _ (reachable_exec 1 2 booked_run))
    as (_ & _ & _ & H).
  apply H; by vm_compute.
Defined.

(** *** Reading back what was written *)

(** X17: a created spot is served. After a successful [createParkingSpot]
    the view [getParkingSpot] returns, under the number the counter had, the
    spot with the given location and rate, active, free and without
    earnings; the other spots read as before, and the one event emitted
    carries the same number, location and rate. *)
Theorem created_spot_is_served st env loc rate st' effects :
  createParkingSpot st env loc rate = Ok (st', effects) →
  let k := nextSpotId st in
  msg_sender env = owner st ∧ 0 < rate ∧
  getParkingSpot st' k = Ok (mkSpot k loc rate true false 0 0 0 0) ∧
  nextSpotId st' = k + 1 ∧
  (∀ k', k' ≠ k → getParkingSpot st' k' = getParkingSpot st k') ∧
  effects = [Emit (SpotCreated k loc rate)].
Proof.
  intros H. cbv zeta. unfold createParkingSpot in H. bind_steps H.
  injection H as <- <-. apply N.eqb_eq in Hv. apply N.ltb_lt in Hv0.
  split_and!; try done.
  - unfold getParkingSpot, spotExistsModifier, spot_at. fields.
    rewrite bool_decide_eq_true_2 by (apply elem_of_union; left;
                                      by apply elem_of_singleton).
    by rewrite lookup_insert_eq.
  - intros k' Hne. unfold getParkingSpot, spotExistsModifier, spot_at. fields.
    rewrite lookup_insert_ne by done.
    destruct (decide (k' ∈ spotExists st)) as [Hin|Hnin].
    + rewrite !bool_decide_eq_true_2; [done..|].
      apply elem_of_union. by right.
    + rewrite !bool_decide_eq_false_2; [done..|].
      intros [?%elem_of_singleton|?]%elem_of_union; done.
Qed.

Lemma created_spot_is_served_witness :
  ∃ st' effects,
    createParkingSpot (deployed 1 2) (everyone 1 0) "A1" 100
    = Ok (st', effects) ∧
    getParkingSpot st' 1 = Ok (mkSpot 1 "A1" 100 true false 0 0 0 0).
Proof.
  destruct (createParkingSpot (deployed 1 2) (everyone 1 0) "A1" 100)
    as [[st' effects]|e] eqn:H; [|by vm_compute in H].
  exists st', effects. split; [done|].
  by destruct (created_spot_is_served _ _ _ _ _ _ H) as (_ & _ & ? & _).
Defined.

(** X18: a booking is served. After a successful [reserveSpot] the view
    [getReservation] returns, under the number the counter had, an Active
    reservation with the caller, the spot, the window, the cost of the window
    and the amount sent; the number is the last entry of the caller's list;
    the spot records the end of the window; the contract keeps exactly the
    cost and sends the surplus back. *)
Theorem booking_is_served st env value sp b e st' effects :
  reserveSpot st env value sp b e = Ok (st', effects) →
  let id := nextReservationId st in
  let cost := (e - b) * hourlyRate (spot_at st sp) / HOUR in
  getReservation st' id
  = Ok (mkReservation id (msg_sender env) sp b e cost value Active 0 0) ∧
  getUserReservations st' (msg_sender env)
  = getUserReservations st (msg_sender env) ++ [id] ∧
  getParkingSpot st' sp = Ok (spot_set_reservationEnd e (spot_at st sp)) ∧
  balance st' = balance st + cost ∧
  transferred effects = value - cost.
Proof.
  intros H. cbv zeta. pose proof H as Hok.
  apply reserveSpot_Ok in Hok
    as (_ & Hin & _ & _ & _ & _ & _ & _ & _ & Hpaid & Hst & ->).
  pose proof (call_userReservations st env (ReserveSpot value sp b e) st'
                _ (msg_sender env) H) as Hur.
  rewrite decide_True in Hur by done.
  pose proof (call_created st env value sp b e st' _ H) as Hnew.
  unfold getReservation, getUserReservations, getParkingSpot,
    validReservation, spotExistsModifier.
  rewrite Hnew, Hur. clear H Hnew Hur. subst st'.
  rewrite spot_at_reserved. fields.
  rewrite (proj2 (N.ltb_lt _ _)) by lia.
  rewrite bool_decide_eq_true_2 by done.
  split_and!; try done.
  destruct (_ <? value) eqn:Hlt; simpl.
  - lia.
  - apply N.ltb_ge in Hlt. lia.
Qed.

Lemma booking_is_served_witness :
  ∃ st' effects,
    reserveSpot (exec (deployed 1 2) booked_run).1 (everyone 8 0)
      150 1 20000 23600 = Ok (st', effects) ∧
    balance st' = 200 ∧ transferred effects = 50.
Proof.
  destruct (reserveSpot (exec (deployed 1 2) booked_run).1 (everyone 8 0)
              150 1 20000 23600) as [[st' effects]|err] eqn:H;
    [|by vm_compute in H].
  exists st', effects. split; [done|].
  destruct (booking_is_served _ _ _ _ _ _ _ _ H) as (_ & _ & _ & Hb & Ht).
  split; [etrans; [exact Hb|by vm_compute]|].
  etrans; [exact Ht|by vm_compute].
Defined.

(** *** The flow of ether *)

(** X19: the flow of ether. In every successful call, what the contract
    holds afterwards plus what it sent out is what it held before plus the
    value sent with the call. A booking pays only its caller (the surplus), a
    cancellation only its caller (the refund), a completion only the
    requester of the reservation, a withdrawal only the owner; no other call
    pays anyone. *)
Theorem ether_flow st env c st' effects :
  call st env c = Ok (st', effects) →
  balance st' + transferred effects = balance st + value_of c ∧
  ∀ to, to ∈ recipients effects →
    match c with
    | ReserveSpot _ _ _ _ | CancelReservation _ => to = msg_sender env
    | CompleteReservation id => to = user (reservation_at st id)
    | WithdrawPlatformEarnings => to = owner st
    | _ => False
    end.
Proof.
  intros H. destruct c; simpl in H; cbn [value_of].
  - unfold createParkingSpot in H. bind_steps H. injection H as <- <-.
    simpl. split; [lia|]. intros to Hin. by apply elem_of_nil in Hin.
  - apply reserveSpot_Ok in H
      as (_ & _ & _ & _ & _ & _ & _ & _ & _ & Hpaid & -> & ->).
    fields. destruct (_ <? value) eqn:Hlt; simpl.
    + split; [lia|]. by intros to ->%list_elem_of_singleton.
    + apply N.ltb_ge in Hlt. split; [lia|].
      intros to Hin. by apply elem_of_nil in Hin.
  - unfold startReservation in H. bind_steps H. injection H as <- <-.
    simpl. split; [lia|]. intros to Hin. by apply elem_of_nil in Hin.
  - apply completeReservation_Ok in H
      as (_ & _ & _ & _ & _ & _ & _ & Href & -> & ->).
    unfold refundOf in *. fields. destruct (_ <? _) eqn:Hlt; simpl.
    + split; [lia|]. by intros to ->%list_elem_of_singleton.
    + split; [lia|]. intros to Hin. by apply elem_of_nil in Hin.
  - apply cancelReservation_Ok in H
      as ((_ & _ & _ & _ & _ & _ & _ & _ & Href) & -> & ->).
    fields. simpl. split; [lia|]. by intros to ->%list_elem_of_singleton.
  - unfold updatePlatformFee in H. bind_steps H. injection H as <- <-.
    simpl. split; [lia|]. intros to Hin. by apply elem_of_nil in Hin.
  - unfold updateOracle in H. bind_steps H. injection H as <- <-.
    simpl. split; [lia|]. intros to Hin. by apply elem_of_nil in Hin.
  - unfold withdrawPlatformEarnings in H. bind_steps H. injection H as <- <-.
    fields_in H1. fields. simpl. split; [lia|].
    by intros to ->%list_elem_of_singleton.
  - unfold pause in H. bind_steps H. injection H as <- <-.
    simpl. split; [lia|]. intros to Hin. by apply elem_of_nil in Hin.
  - unfold unpause in H. bind_steps H. injection H as <- <-.
    simpl. split; [lia|]. intros to Hin. by apply elem_of_nil in Hin.
  - unfold transferOwnership in H. bind_steps H. injection H as <- <-.
    simpl. split; [lia|]. intros to Hin. by apply elem_of_nil in Hin.
  - unfold renounceOwnership in H. bind_steps H. injection H as <- <-.
    simpl. split; [lia|]. intros to Hin. by apply elem_of_nil in Hin.
Qed.

Lemma ether_flow_witness :
  ∃ st' effects,
    call (exec (deployed 1 2) started_run).1 (everyone 2 11800)
      (CompleteReservation 1) = Ok (st', effects) ∧
    balance st' + transferred effects = 100.
Proof.
  destruct (call (exec (deployed 1 2) started_run).1 (everyone 2 11800)
              (CompleteReservation 1)) as [[st' effects]|err] eqn:H;
    [|by vm_compute in H].
  exists st', effects. split; [done|].
  destruct (ether_flow _ _ _ _ _ H) as [Hb _].
  etrans; [exact Hb|by vm_compute].
Defined.

End ParkingSystemExtras.

(** * Further properties of ParkingOracle *)

Module ParkingOracleExtras.
Import ParkingOracle U256Facts ParkingOracleFacts.

(** *** The removal loop *)

Lemma index_Ok {A} (l : list A) i x : l !! i = Some x → index l i = Ok x.
Proof. unfold index. by intros ->. Qed.

(** The loop walks over the entries that are not the address. *)
Lemma removeActive_skip a l : ∀ k i n,
  (∀ j x, (i ≤ j < i + k)%nat → l !! j = Some x → x ≠ a) →
  (i + k ≤ length l)%nat →
  removeActive a (k + n) i l = removeActive a n (i + k) l.
Proof.
  induction k as [|k IH]; intros i n Hskip Hlen.
  - by rewrite Nat.add_0_r.
  - destruct (lookup_lt_is_Some_2 l i) as [x Hx]; [lia|].
    cbn [removeActive Nat.add]. rewrite (index_Ok _ _ _ Hx).
    cbn [mbind result_bind].
    assert (Hne : x ≠ a) by (apply (Hskip i); [lia|done]).
    apply N.eqb_neq in Hne. rewrite Hne.
    rewrite IH; [f_equal; lia| |lia].
    intros j y Hj. apply Hskip. lia.
Qed.

Lemma removeActive_absent a l :
  a ∉ l → removeActive a (length l) 0 l = Ok l.
Proof.
  intros Hnin.
  rewrite <- (Nat.add_0_r (length l)), removeActive_skip; [done| |done].
  intros j x _ Hx ->. apply Hnin. by eapply list_elem_of_lookup_2.
Qed.

Lemma removeActive_found a l1 l2 :
  a ∉ l1 →
  removeActive a (length (l1 ++ a :: l2)) 0 (l1 ++ a :: l2)
  = Ok (match reverse l2 with
        | [] => l1
        | y :: rest => l1 ++ y :: reverse rest
        end).
Proof.
  intros Hnin.
  assert (Hhere : (l1 ++ a :: l2) !! length l1 = Some a)
    by by apply list_lookup_middle.
  replace (length (l1 ++ a :: l2)) with (length l1 + S (length l2))%nat
    by (rewrite length_app; simpl; lia).
  rewrite removeActive_skip; [| |rewrite length_app; simpl; lia].
  2:{ intros j x Hj Hx ->. apply Hnin.
      rewrite lookup_app_l in Hx by lia.
      exact (list_elem_of_lookup_2 _ _ _ Hx). }
  cbn [removeActive Nat.add]. rewrite (index_Ok _ _ _ Hhere).
  cbn [mbind result_bind]. rewrite N.eqb_refl.
  destruct (reverse l2) as [|y rest] eqn:Hrev;
    apply (f_equal reverse) in Hrev; rewrite reverse_involutive in Hrev;
    subst l2.
  - assert (Hlast : (l1 ++ [a]) !! (length (l1 ++ [a]) - 1)%nat = Some a).
    { apply list_lookup_middle. rewrite length_app. simpl. lia. }
    change (reverse []) with (@nil address) in *.
    rewrite (index_Ok _ _ _ Hlast). cbn [mbind result_bind].
    rewrite list_insert_id by done.
    unfold pop. destruct (l1 ++ [a]) eqn:Heq.
    { by destruct l1. }
    rewrite <- Heq. by rewrite removelast_last.
  - rewrite reverse_cons in *.
    assert (Hlast : (l1 ++ a :: reverse rest ++ [y])
                      !! (length (l1 ++ a :: reverse rest ++ [y]) - 1)%nat
                    = Some y).
    { replace (l1 ++ a :: reverse rest ++ [y])
        with ((l1 ++ a :: reverse rest) ++ [y])
        by by rewrite <- app_assoc.
      apply list_lookup_middle. rewrite length_app. simpl. lia. }
    rewrite (index_Ok _ _ _ Hlast). cbn [mbind result_bind].
    replace (<[length l1 := y]> (l1 ++ a :: reverse rest ++ [y]))
      with ((l1 ++ y :: reverse rest) ++ [y]).
    2:{ rewrite insert_app_r_alt by lia. rewrite Nat.sub_diag. simpl.
        by rewrite <- app_assoc. }
    unfold pop. destruct ((l1 ++ y :: reverse rest) ++ [y]) eqn:Heq.
    { by destruct l1. }
    rewrite <- Heq. by rewrite removelast_last.
Qed.

Lemma removeActive_perm a l1 l2 :
  a ∉ l1 →
  ∃ l', removeActive a (length (l1 ++ a :: l2)) 0 (l1 ++ a :: l2) = Ok l' ∧
        l' ≡ₚ l1 ++ l2 ∧ take (length l1) l' = l1 ∧
        length l' = (length (l1 ++ a :: l2) - 1)%nat.
Proof.
  intros Hnin. eexists. split; [by apply removeActive_found|].
  destruct (reverse l2) as [|y rest] eqn:Hrev;
    apply (f_equal reverse) in Hrev; rewrite reverse_involutive in Hrev;
    subst l2.
  - simpl. rewrite app_nil_r, firstn_all, length_app. simpl.
    split_and!; try done. lia.
  - rewrite reverse_cons. split_and!.
    + apply Permutation_app_head. apply Permutation_cons_append.
    + by rewrite take_app_length.
    + rewrite !length_app. simpl. rewrite length_app. simpl. lia.
Qed.

(** X20: the removal loop. Run over the whole array, the loop of
    [removeOracleNode] never reads out of bounds: an array that does not
    hold the address is left as it is; otherwise the first occurrence is
    overwritten by the last entry and the array is shortened by one: if the
    first occurrence is the last entry the result is the array without it,
    otherwise the last entry takes the place of the first occurrence and the
    entries between them follow in their order. So the entries before that
    occurrence stay in place and the array keeps, up to order, every other
    entry, later occurrences of the address included. *)
Theorem removal_loop a l :
  (a ∉ l → removeActive a (length l) 0 l = Ok l) ∧
  (∀ l1, l = l1 ++ [a] → a ∉ l1 → removeActive a (length l) 0 l = Ok l1) ∧
  (∀ l1 mid y,
     l = l1 ++ a :: mid ++ [y] → a ∉ l1 →
     removeActive a (length l) 0 l = Ok (l1 ++ y :: mid)) ∧
  (∀ l1 l2,
     l = l1 ++ a :: l2 → a ∉ l1 →
     ∃ l', removeActive a (length l) 0 l = Ok l' ∧
           l' ≡ₚ l1 ++ l2 ∧ take (length l1) l' = l1 ∧
           length l' = (length l - 1)%nat).
Proof.
  split_and!.
  - apply removeActive_absent.
  - intros l1 -> Hnin. by rewrite removeActive_found.
  - intros l1 mid y -> Hnin. rewrite removeActive_found by done.
    rewrite reverse_app. simpl. by rewrite reverse_involutive.
  - intros l1 l2 -> Hnin. by apply removeActive_perm.
Qed.

Lemma removal_loop_witness :
  removeActive 5 3 0 [5; 6; 7] = Ok [7; 6] ∧
  ∃ l', removeActive 5 4 0 [3; 5; 7; 5] = Ok l' ∧ l' ≡ₚ [3] ++ [7; 5].
Proof.
  destruct (removal_loop 5 [5; 6; 7]) as (_ & _ & Hswap & _).
  destruct (removal_loop 5 [3; 5; 7; 5]) as (_ & _ & _ & Hperm).
  split.
  - apply (Hswap [] [6] 7 eq_refl). by intros ?%elem_of_nil.
  - destruct (Hperm [3] [7; 5] eq_refl) as (l' & Hl & Hp & _).
    + by intros [=]%list_elem_of_singleton.
    + by exists l'.
Defined.
(** *** The registry of nodes *)

Lemma accepted_frame st env _spotId _isOccupied _confidence _sensorType
    _dataHash hist :
  let st' := accepted st env _spotId _isOccupied _confidence _sensorType
               _dataHash hist in
  activeOracles st' = activeOracles st ∧
  parkingSystemContract st' = parkingSystemContract st ∧
  owner st' = owner st ∧ paused st' = paused st.
Proof. cbv zeta. unfold accepted, _rewardOracle. by destruct (_ <? 1000). Qed.

Lemma penalizeOracle_frame st a :
  activeOracles (_penalizeOracle st a).1 = activeOracles st ∧
  parkingSystemContract (_penalizeOracle st a).1 = parkingSystemContract st ∧
  owner (_penalizeOracle st a).1 = owner st ∧
  paused (_penalizeOracle st a).1 = paused st.
Proof.
  unfold _penalizeOracle. cbv zeta.
  destruct (10 <? _); destruct (_ <? 100); done.
Qed.

Lemma accepted_node_at st env _spotId _isOccupied _confidence _sensorType
    _dataHash hist b :
  node_at (accepted st env _spotId _isOccupied _confidence _sensorType
             _dataHash hist) b
  = if decide (msg_sender env = b)
    then let n := node_at st b in
         mkOracleNode (nodeAddress n) (isActive n)
           (if reputation n <? 1000 then reputation n + 1 else reputation n)
           (totalUpdates n + 1) (block_timestamp env) (nodeId n)
    else node_at st b.
Proof.
  unfold accepted. rewrite rewardOracle_node, !node_at_write.
  destruct (decide (msg_sender env = b)) as [<-|Hb].
  - rewrite decide_True by done. by fields.
  - unfold node_at. by fields.
Qed.

(** What a successful call does to the record of node [b]: it registers
    the node, or it keeps its address and label and does not activate it. *)
Lemma call_node st env c st' events b :
  call st env c = Ok (st', events) →
  (∃ label, c = AddOracleNode b label ∧ b ≠ 0 ∧
            isActive (node_at st b) = false ∧
            node_at st' b = mkOracleNode b true 500 0 0 label) ∨
  ((∀ label, c ≠ AddOracleNode b label) ∧
   nodeAddress (node_at st' b) = nodeAddress (node_at st b) ∧
   nodeId (node_at st' b) = nodeId (node_at st b) ∧
   (isActive (node_at st' b) = true → isActive (node_at st b) = true)).
Proof.
  intros H. destruct c; simpl in H.
  - unfold addOracleNode in H. bind_steps H. injection H as <- <-.
    apply negb_true_iff in Hv0, Hv1. apply N.eqb_neq in Hv0.
    change (node_at (set_activeOracles ?l ?s) b) with (node_at s b).
    rewrite node_at_write. case_decide as Hb; [subst|].
    + left. by exists _nodeId.
    + right. split; [|done]. intros label [= ? _]. done.
  - unfold removeOracleNode in H. bind_steps H. injection H as <- <-.
    change (node_at (set_activeOracles ?l ?s) b) with (node_at s b).
    rewrite node_at_write. right. split; [done|].
    case_decide; [subst|done]. by fields.
  - right. split; [done|]. apply updateSensorData_Ok in H as [_ H].
    destruct (semantically_rejected _ _ _ _).
    + destruct H as [-> _]. rewrite penalizeOracle_node.
      case_decide; [subst|done]. unfold penalized. fields.
      split_and!; try done. by destruct (_ <? 100).
    + destruct H as (hist & _ & _ & -> & _). rewrite accepted_node_at.
      case_decide; [subst|done]. by fields.
  - unfold updateParkingSystemContract in H. bind_steps H.
    injection H as <- <-. by right.
  - unfold updateOracleReputation in H. bind_steps H. injection H as <- <-.
    rewrite node_at_write. right. split; [done|].
    case_decide; [subst|done]. by fields.
  - unfold pause in H. bind_steps H. injection H as <- <-. by right.
  - unfold unpause in H. bind_steps H. injection H as <- <-. by right.
  - unfold transferOwnership in H. bind_steps H. injection H as <- <-.
    by right.
  - unfold renounceOwnership in H. bind_steps H. injection H as <- <-.
    by right.
Qed.

Lemma call_activeOracles st env c st' events :
  call st env c = Ok (st', events) →
  match c with
  | AddOracleNode a _ => activeOracles st' = activeOracles st ++ [a]
  | RemoveOracleNode a =>
      isActive (node_at st' a) = false ∧
      removeActive a (length (activeOracles st)) 0 (activeOracles st)
      = Ok (activeOracles st')
  | _ => activeOracles st' = activeOracles st
  end.
Proof.
  intros H. destruct c; simpl in H.
  - unfold addOracleNode in H. bind_steps H. by injection H as <- <-.
  - unfold removeOracleNode in H. bind_steps H. injection H as <- <-.
    fields_in Hv1. split; [|done].
    change (node_at (set_activeOracles ?l ?s) _nodeAddress)
      with (node_at s _nodeAddress).
    by rewrite node_at_write_eq.
  - apply updateSensorData_Ok in H as [_ H].
    destruct (semantically_rejected _ _ _ _).
    + destruct H as [-> _]. by destruct (penalizeOracle_frame st (msg_sender env)).
    + destruct H as (hist & _ & _ & -> & _).
      by destruct (accepted_frame st env _spotId _isOccupied _confidence
                     _sensorType _dataHash hist).
  - unfold updateParkingSystemContract in H. bind_steps H.
    by injection H as <- <-.
  - unfold updateOracleReputation in H. bind_steps H. by injection H as <- <-.
  - unfold pause in H. bind_steps H. by injection H as <- <-.
  - unfold unpause in H. bind_steps H. by injection H as <- <-.
  - unfold transferOwnership in H. bind_steps H. by injection H as <- <-.
  - unfold renounceOwnership in H. bind_steps H. by injection H as <- <-.
Qed.

Lemma reachable_ind (P : State → Prop) :
  (∀ deployer parking, P (deployed deployer parking)) →
  (∀ st env c st' events,
     P st → call st env c = Ok (st', events) → P st') →
  ∀ st, reachable st → P st.
Proof.
  intros Hinit Hstep st (deployer & parking & txs & <-).
  by apply exec_ind.
Qed.

Lemma reachable_registry st :
  reachable st →
  ∀ b, (isActive (node_at st b) = true →
        b ∈ activeOracles st ∧ nodeAddress (node_at st b) = b ∧ b ≠ 0) ∧
       (nodeAddress (node_at st b) = 0 ∨ nodeAddress (node_at st b) = b).
Proof.
  revert st.
  apply (reachable_ind
           (λ s, ∀ b,
              (isActive (node_at s b) = true →
               b ∈ activeOracles s ∧ nodeAddress (node_at s b) = b ∧ b ≠ 0) ∧
              (nodeAddress (node_at s b) = 0 ∨
               nodeAddress (node_at s b) = b))).
  - intros deployer parking b. unfold node_at, deployed. simpl.
    rewrite lookup_empty. simpl. split; [done|by left].
  - intros s env c s' events IH Hcall b.
    destruct (IH b) as (Hact & Haddr).
    pose proof (call_activeOracles _ _ _ _ _ Hcall) as Hl.
    destruct (call_node _ _ _ _ _ b Hcall)
      as [(label & -> & Hb0 & Hin & ->) | (Hnot & Ha & _ & Hi)].
    + simpl. rewrite Hl. split; [|by right].
      intros _. split; [|done].
      apply elem_of_app. right. by apply list_elem_of_singleton.
    + rewrite Ha. split; [|done].
      intros Hb. destruct (Hact (Hi Hb)) as (Hin & Hself & Hb0).
      split; [|done].
      destruct c; try (by rewrite Hl).
      * rewrite Hl. apply elem_of_app. by left.
      * destruct Hl as [Hoff Hl].
        assert (Hne : b ≠ _nodeAddress) by (intros ->; congruence).
        destruct (decide (_nodeAddress ∈ activeOracles s)) as [Hm|Hm].
        -- apply list_elem_of_split_l in Hm as (l1 & l2 & Heq & Hnin).
           rewrite Heq in Hl, Hin.
           destruct (removeActive_perm _ l1 l2 Hnin) as (l' & Hl' & Hp & _).
           rewrite Hl' in Hl. injection Hl as <-. rewrite Hp.
           apply elem_of_app in Hin as [?|Hin%elem_of_cons];
             apply elem_of_app; [by left|].
           destruct Hin as [?|?]; [done|by right].
        -- rewrite removeActive_absent in Hl by done. by injection Hl as <-.
Qed.

(** X21: the registry. In every reachable state an active node is listed
    in [getActiveOracles] and carries its own, non-zero address; the record
    of any address carries that address or, if it was never registered, the
    zero address. *)
Theorem active_nodes_are_listed st a :
  reachable st →
  (isActive (getOracleNode st a) = true →
   a ∈ getActiveOracles st ∧ nodeAddress (getOracleNode st a) = a ∧ a ≠ 0) ∧
  (nodeAddress (getOracleNode st a) = 0 ∨
   nodeAddress (getOracleNode st a) = a).
Proof. intros Hreach. apply (reachable_registry _ Hreach a). Qed.

Lemma reachable_exec_oracle deployer parking txs :
  reachable (exec (deployed deployer parking) txs).
Proof. by exists deployer, parking, txs. Qed.

Lemma active_nodes_are_listed_witness :
  5 ∈ getActiveOracles (exec (deployed 1 2) registered_run).
Proof.
  apply (proj1 (active_nodes_are_listed _ 5
                  (reachable_exec_oracle 1 2 registered_run))).
  by vm_compute.
Defined.

Lemma removeOracleNode_Ok st env a :
  reachable st →
  msg_sender env = owner st → isActive (node_at st a) = true →
  ∃ l1 l2 l',
    activeOracles st = l1 ++ a :: l2 ∧ (a ∉ l1) ∧ l' ≡ₚ l1 ++ l2 ∧
    removeOracleNode st env a
    = Ok (set_activeOracles l'
            (write_node a (node_set_isActive false (node_at st a)) st),
          [OracleNodeRemoved a]).
Proof.
  intros Hreach Ho Hact.
  destruct (reachable_registry _ Hreach a) as [Hl _].
  destruct (Hl Hact) as (Hin & _).
  apply list_elem_of_split_l in Hin as (l1 & l2 & Heq & Hnin).
  destruct (removeActive_perm _ l1 l2 Hnin) as (l' & Hl' & Hp & _).
  exists l1, l2, l'. split_and!; try done.
  unfold removeOracleNode, onlyOwner.
  rewrite (proj2 (N.eqb_eq _ _) Ho), Hact.
  cbn [require mbind result_bind]. fields. by rewrite Heq, Hl'.
Qed.

(** X22: removing a node. In every reachable state [removeOracleNode]
    succeeds exactly when the caller is the owner and the node is active:
    the loop finds the address and never reads out of bounds. Afterwards the
    node is inactive with its reputation and counters kept, the list is one
    entry shorter, and every other active node is still listed and
    untouched. *)
Theorem removal_succeeds st env a :
  reachable st →
  (succeeds (removeOracleNode st env a) ↔
   msg_sender env = owner st ∧ isActive (node_at st a) = true) ∧
  (∀ st' events,
     removeOracleNode st env a = Ok (st', events) →
     getOracleNode st' a = node_set_isActive false (node_at st a) ∧
     length (getActiveOracles st') = (length (getActiveOracles st) - 1)%nat ∧
     ∀ b, b ≠ a →
          getOracleNode st' b = getOracleNode st b ∧
          (b ∈ getActiveOracles st → b ∈ getActiveOracles st')).
Proof.
  intros Hreach. split.
  - split.
    + intros [[st' events] H]. unfold removeOracleNode in H. bind_steps H.
      by apply N.eqb_eq in Hv.
    + intros [Ho Hact].
      destruct (removeOracleNode_Ok _ _ _ Hreach Ho Hact)
        as (l1 & l2 & l' & _ & _ & _ & H).
      by eexists.
  - intros st' events H.
    assert (Hg : msg_sender env = owner st ∧ isActive (node_at st a) = true).
    { unfold removeOracleNode in H. bind_steps H. by apply N.eqb_eq in Hv. }
    destruct Hg as [Ho Hact].
    destruct (removeOracleNode_Ok _ _ _ Hreach Ho Hact)
      as (l1 & l2 & l' & Heq & Hnin & Hp & H').
    rewrite H' in H. injection H as <- <-.
    unfold getOracleNode, getActiveOracles. fields.
    change (node_at (set_activeOracles l' ?s)) with (node_at s).
    rewrite node_at_write_eq. split; [done|]. split.
    + rewrite Hp, Heq, !length_app. simpl. lia.
    + intros b Hne. rewrite node_at_write, decide_False by done.
      split; [done|]. rewrite Hp, Heq, !elem_of_app, elem_of_cons.
      intros [?|[?|?]]; [by left|done|by right].
Qed.

Lemma removal_succeeds_witness :
  succeeds (removeOracleNode (exec (deployed 1 2) registered_run)
              (mkEnv 1 50) 5).
Proof.
  apply (proj1 (removal_succeeds _ (mkEnv 1 50) 5
                  (reachable_exec_oracle 1 2 registered_run))).
  by vm_compute.
Defined.
(** *** What a reading changes *)

Lemma accepted_history st env _spotId _isOccupied _confidence _sensorType
    _dataHash hist :
  sensorHistory
    (accepted st env _spotId _isOccupied _confidence _sensorType _dataHash
       hist)
  = <[_spotId := hist]> (sensorHistory st).
Proof. unfold accepted, _rewardOracle. by destruct (_ <? 1000). Qed.

Lemma latest_at_accepted st env _spotId _isOccupied _confidence _sensorType
    _dataHash hist k :
  latest_at (accepted st env _spotId _isOccupied _confidence _sensorType
               _dataHash hist) k
  = if decide (_spotId = k)
    then mkSensorData _spotId _isOccupied _confidence (block_timestamp env)
           _sensorType _dataHash
    else latest_at st k.
Proof.
  unfold latest_at. rewrite accepted_latest, lookup_insert.
  by destruct (decide (_spotId = k)).
Qed.

Lemma history_at_accepted st env _spotId _isOccupied _confidence _sensorType
    _dataHash hist k :
  history_at (accepted st env _spotId _isOccupied _confidence _sensorType
                _dataHash hist) k
  = if decide (_spotId = k) then hist else history_at st k.
Proof.
  unfold history_at. rewrite accepted_history, lookup_insert.
  by destruct (decide (_spotId = k)).
Qed.

Lemma penalizeOracle_reads st a k :
  latest_at (_penalizeOracle st a).1 k = latest_at st k ∧
  history_at (_penalizeOracle st a).1 k = history_at st k.
Proof.
  unfold latest_at, history_at.
  by destruct (penalizeOracle_stores st a) as (-> & -> & _).
Qed.

Lemma reading_frame_lemma st env _spotId _isOccupied _confidence _sensorType
    _dataHash st' events :
  updateSensorData st env _spotId _isOccupied _confidence _sensorType
    _dataHash = Ok (st', events) →
  activeOracles st' = activeOracles st ∧
  owner st' = owner st ∧ paused st' = paused st ∧
  parkingSystemContract st' = parkingSystemContract st.
Proof.
  intros H. apply updateSensorData_Ok in H as [_ H].
  destruct (semantically_rejected _ _ _ _).
  - destruct H as [-> _].
    by destruct (penalizeOracle_frame st (msg_sender env))
      as (-> & -> & -> & ->).
  - destruct H as (hist & _ & _ & -> & _).
    by destruct (accepted_frame st env _spotId _isOccupied _confidence
                   _sensorType _dataHash hist) as (-> & -> & -> & ->).
Qed.

(** X23: what a reading touches. A successful [updateSensorData] leaves
    the list of active nodes, the owner, the pause flag and the address of
    the parking contract as they are, changes no node but the caller's and
    no spot but the one reported; a rejected reading changes no stored
    reading at all, an accepted one becomes the latest reading of its
    spot. *)
Theorem reading_frame st env _spotId _isOccupied _confidence _sensorType
    _dataHash st' events :
  updateSensorData st env _spotId _isOccupied _confidence _sensorType
    _dataHash = Ok (st', events) →
  getActiveOracles st' = getActiveOracles st ∧
  owner st' = owner st ∧ paused st' = paused st ∧
  parkingSystemContract st' = parkingSystemContract st ∧
  (∀ b, b ≠ msg_sender env → getOracleNode st' b = getOracleNode st b) ∧
  (∀ k, k ≠ _spotId →
        getLatestSensorData st' k = getLatestSensorData st k ∧
        getSensorHistory st' k = getSensorHistory st k) ∧
  (if semantically_rejected st _spotId _isOccupied _confidence
   then getLatestSensorData st' _spotId = getLatestSensorData st _spotId ∧
        getSensorHistory st' _spotId = getSensorHistory st _spotId ∧
        processedDataHashes st' = processedDataHashes st
   else getLatestSensorData st' _spotId
        = mkSensorData _spotId _isOccupied _confidence (block_timestamp env)
            _sensorType _dataHash ∧
        processedDataHashes st' = {[_dataHash]} ∪ processedDataHashes st).
Proof.
  intros H. apply updateSensorData_Ok in H as [_ H].
  unfold getActiveOracles, getOracleNode, getLatestSensorData,
    getSensorHistory.
  destruct (semantically_rejected _ _ _ _).
  - destruct H as [-> _].
    destruct (penalizeOracle_frame st (msg_sender env)) as (-> & -> & -> & ->).
    split_and!; try done.
    + intros b Hb. rewrite penalizeOracle_node. by rewrite decide_False.
    + intros k _. apply penalizeOracle_reads.
    + apply penalizeOracle_reads.
    + apply penalizeOracle_reads.
    + by destruct (penalizeOracle_stores st (msg_sender env))
        as (_ & _ & -> & _).
  - destruct H as (hist & _ & _ & -> & _).
    destruct (accepted_frame st env _spotId _isOccupied _confidence
                _sensorType _dataHash hist) as (-> & -> & -> & ->).
    split_and!; try done.
    + intros b Hb. rewrite accepted_node_at. by rewrite decide_False.
    + intros k Hk. rewrite latest_at_accepted, history_at_accepted.
      by rewrite !decide_False.
    + rewrite latest_at_accepted. by rewrite decide_True.
    + apply accepted_processed.
Qed.

Lemma reading_frame_witness :
  ∃ st' events,
    updateSensorData (exec (deployed 1 2) registered_run) (mkEnv 5 100)
      1 true 90 "fusion" 1 = Ok (st', events) ∧
    getActiveOracles st' = [5] ∧ paused st' = false.
Proof.
  destruct (updateSensorData (exec (deployed 1 2) registered_run)
              (mkEnv 5 100) 1 true 90 "fusion" 1)
    as [[st' events]|err] eqn:H; [|by vm_compute in H].
  exists st', events. split; [done|].
  destruct (reading_frame _ _ _ _ _ _ _ _ _ H) as (-> & _ & -> & _).
  by vm_compute.
Defined.

(** *** The stored readings *)

Lemma pushHistory_elems h d h' :
  (length h ≤ MAX_HISTORY_SIZE)%nat → pushHistory h d = Ok h' →
  (length h' ≤ MAX_HISTORY_SIZE)%nat ∧ ∀ x, x ∈ h' → x ∈ h ∨ x = d.
Proof.
  unfold MAX_HISTORY_SIZE. intros Hlen H.
  destruct (decide (length h < 100)%nat) as [Hroom|Hfull].
  - rewrite pushHistory_room in H by done. injection H as <-.
    rewrite length_app. simpl. split; [lia|].
    intros x [?|?%list_elem_of_singleton]%elem_of_app; [by left|by right].
  - destruct h as [|x0 [|x1 rest]]; simpl in *; try lia.
    rewrite pushHistory_full in H by lia. injection H as <-.
    simpl. split; [lia|]. intros x Hx. left.
    apply elem_of_cons in Hx as [->|Hx]; [|by apply list_elem_of_further].
    apply list_elem_of_further, list_elem_of_here.
Qed.

Lemma pushHistory_total h d :
  (length h ≤ MAX_HISTORY_SIZE)%nat → ∃ h', pushHistory h d = Ok h'.
Proof.
  unfold MAX_HISTORY_SIZE. intros Hlen.
  destruct (decide (length h < 100)%nat) as [Hroom|Hfull].
  - eexists. by apply pushHistory_room.
  - destruct h as [|x0 [|x1 rest]]; simpl in *; try lia.
    eexists. apply pushHistory_full. lia.
Qed.

Lemma well_stored_mono st st' k d :
  processedDataHashes st ⊆ processedDataHashes st' →
  timestamp (latest_at st k) ≤ timestamp (latest_at st' k) →
  well_stored st k d → well_stored st' k d.
Proof.
  intros Hsub Hle (? & ? & ? & ? & ? & Hin & Hts).
  split_and!; try done; [by apply Hsub|lia].
Qed.

Lemma call_stored st env c st' events :
  (∀ k, (length (history_at st k) ≤ MAX_HISTORY_SIZE)%nat ∧
        (∀ d, d ∈ history_at st k → well_stored st k d) ∧
        (is_Some (latestSensorData st !! k) →
         well_stored st k (latest_at st k))) →
  call st env c = Ok (st', events) →
  ∀ k, (length (history_at st' k) ≤ MAX_HISTORY_SIZE)%nat ∧
       (∀ d, d ∈ history_at st' k → well_stored st' k d) ∧
       (is_Some (latestSensorData st' !! k) →
        well_stored st' k (latest_at st' k)).
Proof.
  intros IH H. destruct c; simpl in H.
  - unfold addOracleNode in H. bind_steps H. by injection H as <- <-.
  - unfold removeOracleNode in H. bind_steps H. by injection H as <- <-.
  - apply updateSensorData_Ok in H as [Hg H].
    destruct (semantically_rejected _ _ _ _) eqn:Hrej.
    + destruct H as [-> _]. intros k. destruct (IH k) as (Hlen & Hh & Hl).
      destruct (penalizeOracle_reads st (msg_sender env) k) as [Hlat Hhis].
      destruct (penalizeOracle_stores st (msg_sender env))
        as (Hls & _ & Hpr & _).
      rewrite Hhis, Hls. split; [done|].
      assert (Hmono : ∀ d, well_stored st k d →
                well_stored (_penalizeOracle st (msg_sender env)).1 k d).
      { intros d. apply well_stored_mono; [by rewrite Hpr|by rewrite Hlat]. }
      split; [by intros d ?%Hh%Hmono|].
      intros Hs. rewrite Hlat. by apply Hmono, Hl.
    + destruct H as (hist & Hpush & _ & -> & _). intros k.
      destruct (IH k) as (Hlen & Hh & Hl).
      destruct Hg as (_ & _ & Hspot & _ & Hcool & Hconf & _ & Hty).
      unfold semantically_rejected in Hrej.
      apply orb_false_iff in Hrej as [Hhi _]. apply N.ltb_ge in Hhi.
      unfold UPDATE_COOLDOWN in Hcool.
      set (st' := accepted st env _spotId _isOccupied _confidence
                    _sensorType _dataHash hist).
      assert (Hmono : ∀ d, well_stored st k d → well_stored st' k d).
      { intros d. apply well_stored_mono.
        - unfold st'. rewrite accepted_processed. apply union_subseteq_r.
        - unfold st'. rewrite latest_at_accepted.
          destruct (decide (_spotId = k)) as [<-|?]; [simpl; lia|done]. }
      assert (Hnew : _spotId = k →
                well_stored st' k
                  (mkSensorData _spotId _isOccupied _confidence
                     (block_timestamp env) _sensorType _dataHash)).
      { intros <-. unfold well_stored, st'.
        rewrite accepted_processed, latest_at_accepted, decide_True by done.
        simpl. split_and!; try done.
        apply elem_of_union_l. by apply elem_of_singleton. }
      unfold st' in *. rewrite history_at_accepted, latest_at_accepted.
      rewrite accepted_latest.
      destruct (decide (_spotId = k)) as [Heq|Hne].
      * subst k.
        destruct (pushHistory_elems _ _ _ Hlen Hpush) as [Hlen' Hel].
        split; [done|]. split; [|by intros _; apply Hnew].
        intros d [Hd | ->]%Hel; [by apply Hmono, Hh|by apply Hnew].
      * rewrite lookup_insert_ne by done.
        split; [done|]. split; [by intros d ?%Hh%Hmono|].
        by intros ?%Hl%Hmono.
  - unfold updateParkingSystemContract in H. bind_steps H.
    by injection H as <- <-.
  - unfold updateOracleReputation in H. bind_steps H.
    by injection H as <- <-.
  - unfold pause in H. bind_steps H. by injection H as <- <-.
  - unfold unpause in H. bind_steps H. by injection H as <- <-.
  - unfold transferOwnership in H. bind_steps H. by injection H as <- <-.
  - unfold renounceOwnership in H. bind_steps H. by injection H as <- <-.
Qed.

Lemma reachable_stored st :
  reachable st →
  ∀ k, (length (history_at st k) ≤ MAX_HISTORY_SIZE)%nat ∧
       (∀ d, d ∈ history_at st k → well_stored st k d) ∧
       (is_Some (latestSensorData st !! k) →
        well_stored st k (latest_at st k)).
Proof.
  revert st.
  apply (reachable_ind
           (λ s, ∀ k, (length (history_at s k) ≤ MAX_HISTORY_SIZE)%nat ∧
                      (∀ d, d ∈ history_at s k → well_stored s k d) ∧
                      (is_Some (latestSensorData s !! k) →
                       well_stored s k (latest_at s k)))).
  - intros deployer parking k. unfold history_at, deployed. simpl.
    rewrite !lookup_empty. simpl. split; [lia|]. split.
    + intros d Hd. by apply elem_of_nil in Hd.
    + by intros [? [=]].
  - intros st env c st' events IH Hcall. by eapply call_stored.
Qed.

(** X24: the stored readings. In every reachable state the history of a
    spot holds at most 100 readings, and every reading in it, like the latest
    reading of a spot that has one, carries the number of that spot (not 0),
    a confidence from 70 to 100, a sensor type, a hash marked as processed
    and a time not after that of the latest reading. *)
Theorem stored_readings st k d :
  reachable st →
  (length (getSensorHistory st k) ≤ 100)%nat ∧
  (d ∈ getSensorHistory st k ∨
   (d = getLatestSensorData st k ∧ 0 < timestamp d) →
   spotId d = k ∧ 0 < k ∧ 70 ≤ confidence d ∧ confidence d ≤ 100 ∧
   (0 < String.length (sensorType d))%nat ∧
   dataHash d ∈ processedDataHashes st ∧
   timestamp d ≤ timestamp (getLatestSensorData st k)).
Proof.
  intros Hreach. unfold getSensorHistory, getLatestSensorData.
  destruct (reachable_stored _ Hreach k) as (Hlen & Hh & Hl).
  split; [done|]. intros [Hd | [-> Hts]].
  - by apply Hh.
  - apply Hl. by apply prior_reading_iff_timestamp.
Qed.

Lemma stored_readings_witness :
  let st := exec (deployed 1 2) (registered_run ++ readings 3) in
  70 ≤ confidence (getLatestSensorData st 1) ∧
  dataHash (getLatestSensorData st 1) ∈ processedDataHashes st.
Proof.
  cbv zeta.
  destruct (stored_readings _ 1
              (getLatestSensorData
                 (exec (deployed 1 2) (registered_run ++ readings 3)) 1)
              (reachable_exec_oracle 1 2 (registered_run ++ readings 3)))
    as [_ H].
  destruct H as (_ & _ & Hc & _ & _ & Hh & _); [|done].
  right. split; [done|by vm_compute].
Defined.
(** *** Acceptance *)

Lemma updateSensorData_accepted st env _spotId _isOccupied _confidence
    _sensorType _dataHash hist :
  guards_pass st env _spotId _confidence _sensorType _dataHash →
  semantically_rejected st _spotId _isOccupied _confidence = false →
  pushHistory (history_at st _spotId)
    (mkSensorData _spotId _isOccupied _confidence (block_timestamp env)
       _sensorType _dataHash) = Ok hist →
  totalUpdates (node_at st (msg_sender env)) + 1 ≤ U256.MAX →
  updateSensorData st env _spotId _isOccupied _confidence _sensorType
    _dataHash
  = Ok (accepted st env _spotId _isOccupied _confidence _sensorType
          _dataHash hist,
        [SensorDataUpdated _spotId _isOccupied _confidence (msg_sender env)
           _sensorType]).
Proof.
  intros (Hact & Hp & Hspot & Hmax & Hcool & Hconf & Hfresh & Hty) Hrej
    Hpush Hupd.
  pose proof (validateSensorData_after_guards st env _spotId _isOccupied
                _confidence _sensorType Hcool Hconf) as Hval.
  pass_modifiers Hact Hp Hspot Hmax Hcool.
  rewrite (proj2 (N.leb_le _ _) Hconf). cbn [require mbind result_bind].
  rewrite (bool_decide_eq_false_2 _ Hfresh).
  rewrite (proj2 (Nat.ltb_lt _ _) Hty).
  cbn [require negb mbind result_bind].
  rewrite Hval, Hrej. cbn [negb mbind result_bind].
  change (history_at (mark_processed _ (write_latest _ _ st)) _spotId)
    with (history_at st _spotId).
  rewrite Hpush. cbn [mbind result_bind].
  change (node_at (write_history _ _ (mark_processed _ (write_latest _ _ st)))
            (msg_sender env)) with (node_at st (msg_sender env)).
  unfold U256.add. rewrite (proj2 (N.leb_le _ _) Hupd).
  cbn [checked mbind result_bind]. rewrite notifyParkingSystem_id.
  by destruct (_shouldNotifyParkingSystem _ _ _).
Qed.

(** X25: when a reading goes through. In every reachable state
    [updateSensorData] succeeds exactly when the guards pass and the reading
    is either semantically rejected or the caller's count of updates fits in
    256 bits: pushing onto the history and evicting from it never read out of
    bounds. *)
Theorem reading_goes_through st env _spotId _isOccupied _confidence
    _sensorType _dataHash :
  reachable st →
  succeeds (updateSensorData st env _spotId _isOccupied _confidence
              _sensorType _dataHash) ↔
  guards_pass st env _spotId _confidence _sensorType _dataHash ∧
  (semantically_rejected st _spotId _isOccupied _confidence = true ∨
   totalUpdates (node_at st (msg_sender env)) + 1 ≤ U256.MAX).
Proof.
  intros Hreach. split.
  - intros [[st' events] H]. apply updateSensorData_Ok in H as [Hg H].
    split; [done|]. destruct (semantically_rejected _ _ _ _); [by left|].
    destruct H as (hist & _ & ? & _). by right.
  - intros [Hg Hcase].
    destruct (semantically_rejected st _spotId _isOccupied _confidence)
      eqn:Hrej.
    + eexists. by apply updateSensorData_soft.
    + destruct Hcase as [?|Hupd]; [done|].
      destruct (reachable_stored _ Hreach _spotId) as (Hlen & _).
      destruct (pushHistory_total (history_at st _spotId)
                  (mkSensorData _spotId _isOccupied _confidence
                     (block_timestamp env) _sensorType _dataHash) Hlen)
        as [hist Hpush].
      eexists. by apply updateSensorData_accepted.
Qed.

Lemma reading_goes_through_witness :
  succeeds (updateSensorData
              (exec (deployed 1 2) (registered_run ++ readings 100))
              (mkEnv 5 10100) 1 true 90 "fusion" 101).
Proof.
  apply (reading_goes_through _ _ _ _ _ _ _
           (reachable_exec_oracle 1 2 (registered_run ++ readings 100))).
  split; [|right; by vm_compute].
  unfold guards_pass. split_and!; try (by vm_compute). simpl. lia.
Defined.

(** *** The notification *)

(** X26: the notification test never holds. [updateSensorData] overwrites
    the latest reading of the spot before it evaluates
    [_shouldNotifyParkingSystem], so the test compares the new reading with
    itself: for every accepted reading it is false, also for the first
    reading of a spot and for a change of occupancy, the two cases the test
    is written for. *)
Theorem notification_never_fires st env _spotId _isOccupied _confidence
    _sensorType _dataHash st' events :
  updateSensorData st env _spotId _isOccupied _confidence _sensorType
    _dataHash = Ok (st', events) →
  semantically_rejected st _spotId _isOccupied _confidence = false →
  _shouldNotifyParkingSystem st' _spotId _isOccupied = false ∧
  (timestamp (latest_at st _spotId) = 0 ∨
   isOccupied (latest_at st _spotId) ≠ _isOccupied →
   _shouldNotifyParkingSystem st _spotId _isOccupied = true).
Proof.
  intros H Hrej. apply updateSensorData_Ok in H as [Hg H].
  rewrite Hrej in H. destruct H as (hist & _ & _ & -> & _).
  destruct Hg as (_ & _ & _ & _ & Hcool & _). unfold UPDATE_COOLDOWN in Hcool.
  unfold _shouldNotifyParkingSystem. cbv zeta. split.
  - rewrite latest_at_accepted, decide_True by done. simpl.
    rewrite eqb_reflx. simpl. rewrite orb_false_r. apply N.eqb_neq. lia.
  - intros [Hz | Hne].
    + by rewrite Hz.
    + apply orb_true_iff. right. apply negb_true_iff.
      by apply eqb_false_iff.
Qed.

Lemma notification_never_fires_witness :
  ∃ st' events,
    updateSensorData (exec (deployed 1 2) registered_run) (mkEnv 5 100)
      1 true 90 "fusion" 1 = Ok (st', events) ∧
    _shouldNotifyParkingSystem st' 1 true = false ∧
    _shouldNotifyParkingSystem (exec (deployed 1 2) registered_run) 1 true
    = true.
Proof.
  destruct (updateSensorData (exec (deployed 1 2) registered_run)
              (mkEnv 5 100) 1 true 90 "fusion" 1)
    as [[st' events]|err] eqn:H; [|by vm_compute in H].
  exists st', events. split; [done|].
  destruct (notification_never_fires _ _ _ _ _ _ _ _ _ H ltac:(by vm_compute))
    as [Hno Hyes].
  split; [done|]. apply Hyes. left. by vm_compute.
Defined.

(** *** The cooldown *)

Lemma call_latest_time st env c st' events k :
  call st env c = Ok (st', events) →
  timestamp (latest_at st k) ≤ timestamp (latest_at st' k).
Proof.
  intros H. destruct c; simpl in H.
  - unfold addOracleNode in H. bind_steps H. by injection H as <- <-.
  - unfold removeOracleNode in H. bind_steps H. by injection H as <- <-.
  - apply updateSensorData_Ok in H as [Hg H].
    destruct (semantically_rejected _ _ _ _).
    + destruct H as [-> _].
      by destruct (penalizeOracle_reads st (msg_sender env) k) as [-> _].
    + destruct H as (hist & _ & _ & -> & _). rewrite latest_at_accepted.
      destruct (decide (_spotId = k)) as [<-|?]; [|done].
      destruct Hg as (_ & _ & _ & _ & Hcool & _). simpl. lia.
  - unfold updateParkingSystemContract in H. bind_steps H.
    by injection H as <- <-.
  - unfold updateOracleReputation in H. bind_steps H.
    by injection H as <- <-.
  - unfold pause in H. bind_steps H. by injection H as <- <-.
  - unfold unpause in H. bind_steps H. by injection H as <- <-.
  - unfold transferOwnership in H. bind_steps H. by injection H as <- <-.
  - unfold renounceOwnership in H. bind_steps H. by injection H as <- <-.
Qed.

(** X27: the cooldown. The time of the latest reading of a spot never
    moves back, so a reading for a spot submitted less than 30 time units
    after the latest reading known in some state is refused in every state
    reached from it, whoever submits it and whatever it reports; and two
    readings accepted for one spot are at least 30 units apart. *)
Theorem cooldown_holds st txs env _spotId _isOccupied _confidence
    _sensorType _dataHash :
  block_timestamp env < timestamp (latest_at st _spotId) + UPDATE_COOLDOWN →
  timestamp (latest_at st _spotId)
  ≤ timestamp (latest_at (exec st txs) _spotId) ∧
  ¬ succeeds (updateSensorData (exec st txs) env _spotId _isOccupied
                _confidence _sensorType _dataHash).
Proof.
  intros Hsoon.
  assert (Hle : timestamp (latest_at st _spotId)
                ≤ timestamp (latest_at (exec st txs) _spotId)).
  { apply (exec_ind (λ s, timestamp (latest_at st _spotId)
                          ≤ timestamp (latest_at s _spotId))); [|done].
    intros s env' c s' events Hs Hcall.
    etrans; [exact Hs|]. by eapply call_latest_time. }
  split; [done|]. intros [[st' events] H].
  apply updateSensorData_Ok in H as [(_ & _ & _ & _ & Hcool & _) _].
  unfold UPDATE_COOLDOWN in *. lia.
Qed.

Lemma cooldown_holds_witness :
  ¬ succeeds (updateSensorData
                (exec (exec (deployed 1 2) (registered_run ++ readings 1))
                   [(mkEnv 1 101, AddOracleNode 6 "n6")])
                (mkEnv 6 129) 1 false 95 "camera" 7).
Proof.
  apply cooldown_holds. by vm_compute.
Defined.

(** *** The owner's override of a reputation *)

(** X28: the override. [updateOracleReputation] succeeds exactly when the
    caller is the owner, the value is at most 1000 and the record of the
    address carries a non-zero address; it then sets the reputation and
    nothing else: no node is activated or deactivated by it, whatever the
    value, and the list of active nodes is unchanged. *)
Theorem reputation_override st env a r :
  (succeeds (updateOracleReputation st env a r) ↔
   msg_sender env = owner st ∧ r ≤ 1000 ∧ nodeAddress (node_at st a) ≠ 0) ∧
  (∀ st' events,
     updateOracleReputation st env a r = Ok (st', events) →
     reputation (getOracleNode st' a) = r ∧
     (∀ b, isActive (getOracleNode st' b) = isActive (getOracleNode st b)) ∧
     (∀ b, b ≠ a → getOracleNode st' b = getOracleNode st b) ∧
     getActiveOracles st' = getActiveOracles st ∧
     events = [OracleNodeUpdated a (isActive (node_at st a)) r]).
Proof.
  split.
  - split.
    + intros [[st' events] H]. unfold updateOracleReputation in H.
      bind_steps H. apply N.eqb_eq in Hv. apply N.leb_le in Hv0.
      apply negb_true_iff, N.eqb_neq in Hv1. done.
    + intros (Ho & Hr & Ha). unfold updateOracleReputation, onlyOwner.
      rewrite (proj2 (N.eqb_eq _ _) Ho), (proj2 (N.leb_le _ _) Hr).
      rewrite (proj2 (N.eqb_neq _ _) Ha). by eexists.
  - intros st' events H. unfold updateOracleReputation in H. bind_steps H.
    injection H as <- <-. unfold getOracleNode, getActiveOracles.
    rewrite node_at_write_eq. split_and!; try done.
    + intros b. rewrite node_at_write. by case_decide; [subst|].
    + intros b Hb. rewrite node_at_write. by rewrite decide_False.
Qed.

Lemma reputation_override_witness :
  succeeds (updateOracleReputation (exec (deployed 1 2) registered_run)
              (mkEnv 1 10) 5 50).
Proof.
  apply (proj1 (reputation_override _ (mkEnv 1 10) 5 50)). by vm_compute.
Defined.

(** *** Who may call *)

(** X29: who may call the oracle contract. Every call but a reading
    succeeds only for the owner; a reading succeeds only for a node that is
    active, when the contract is not paused; and the owner, the pause flag
    and the address of the parking contract change only in calls made by the
    owner. *)
Theorem oracle_access st env c st' events :
  call st env c = Ok (st', events) →
  (owner_only c = true → msg_sender env = owner st) ∧
  (owner_only c = false →
   isActive (node_at st (msg_sender env)) = true ∧ paused st = false) ∧
  (msg_sender env ≠ owner st →
   owner st' = owner st ∧ paused st' = paused st ∧
   parkingSystemContract st' = parkingSystemContract st ∧
   getActiveOracles st' = getActiveOracles st).
Proof.
  intros H. destruct c; simpl in H; cbn [owner_only].
  - unfold addOracleNode in H. bind_steps H. by apply N.eqb_eq in Hv.
  - unfold removeOracleNode in H. bind_steps H. by apply N.eqb_eq in Hv.
  - pose proof H as Hok.
    apply updateSensorData_Ok in Hok as [(Hact & Hp & _) _].
    split; [done|]. split; [done|]. intros _.
    by destruct (reading_frame_lemma _ _ _ _ _ _ _ _ _ H) as (? & ? & ? & ?).
  - unfold updateParkingSystemContract in H. bind_steps H.
    by apply N.eqb_eq in Hv.
  - unfold updateOracleReputation in H. bind_steps H. by apply N.eqb_eq in Hv.
  - unfold pause in H. bind_steps H. by apply N.eqb_eq in Hv.
  - unfold unpause in H. bind_steps H. by apply N.eqb_eq in Hv.
  - unfold transferOwnership in H. bind_steps H. by apply N.eqb_eq in Hv.
  - unfold renounceOwnership in H. bind_steps H. by apply N.eqb_eq in Hv.
Qed.

Lemma oracle_access_witness :
  ∃ st' events,
    call (exec (deployed 1 2) registered_run) (mkEnv 5 100)
      (UpdateSensorData 1 true 90 "fusion" 1) = Ok (st', events) ∧
    owner st' = 1 ∧ paused st' = false.
Proof.
  destruct (call (exec (deployed 1 2) registered_run) (mkEnv 5 100)
              (UpdateSensorData 1 true 90 "fusion" 1))
    as [[st' events]|err] eqn:H; [|by vm_compute in H].
  exists st', events. split; [done|].
  destruct (oracle_access _ _ _ _ _ H) as (_ & _ & Hkeep).
  destruct Hkeep as (-> & -> & _); by vm_compute.
Defined.

(** *** Registration *)

(** X30: registration. [addOracleNode] succeeds exactly when the caller is
    the owner, the address is not zero and the node is not active. It then
    stores a fresh record (reputation 500, no updates) under the address and
    appends the address to the list of active nodes without looking for it
    there: an address still listed, as after an automatic deactivation, is
    then listed twice. *)
Theorem registration st env a label :
  (succeeds (addOracleNode st env a label) ↔
   msg_sender env = owner st ∧ a ≠ 0 ∧ isActive (node_at st a) = false) ∧
  (∀ st' events,
     addOracleNode st env a label = Ok (st', events) →
     getOracleNode st' a = mkOracleNode a true 500 0 0 label ∧
     getActiveOracles st' = getActiveOracles st ++ [a] ∧
     (a ∈ getActiveOracles st → ¬ NoDup (getActiveOracles st')) ∧
     (∀ b, b ≠ a → getOracleNode st' b = getOracleNode st b) ∧
     events = [OracleNodeAdded a label]).
Proof.
  split.
  - split.
    + intros [[st' events] H]. unfold addOracleNode in H. bind_steps H.
      apply N.eqb_eq in Hv. apply negb_true_iff in Hv0, Hv1.
      apply N.eqb_neq in Hv0. done.
    + intros (Ho & Ha & Hoff). unfold addOracleNode, onlyOwner.
      rewrite (proj2 (N.eqb_eq _ _) Ho), (proj2 (N.eqb_neq _ _) Ha), Hoff.
      by eexists.
  - intros st' events H. unfold addOracleNode in H. bind_steps H.
    injection H as <- <-. unfold getOracleNode, getActiveOracles. fields.
    change (node_at (set_activeOracles ?l ?s)) with (node_at s).
    rewrite node_at_write_eq. split_and!; try done.
    + intros Hin Hnd. apply NoDup_app in Hnd as (_ & Hdis & _).
      apply (Hdis a Hin). by apply list_elem_of_singleton.
    + intros b Hb. rewrite node_at_write. by rewrite decide_False.
Qed.

Lemma registration_witness :
  let st := exec (deployed 1 2) deactivated_run in
  isActive (getOracleNode st 5) = false ∧ 5 ∈ getActiveOracles st ∧
  ∃ st' events,
    addOracleNode st (mkEnv 1 300) 5 "n5" = Ok (st', events) ∧
    getActiveOracles st' = [5; 5].
Proof.
  cbv zeta. split; [by vm_compute|].
  split; [vm_compute; apply list_elem_of_here|].
  destruct (addOracleNode (exec (deployed 1 2) deactivated_run) (mkEnv 1 300)
              5 "n5") as [[st' events]|err] eqn:H; [|by vm_compute in H].
  exists st', events. split; [done|].
  destruct (proj2 (registration _ _ _ _) _ _ H) as (_ & -> & _).
  by vm_compute.
Defined.

End ParkingOracleExtras.
